(** * Tone-AI-Devops: the deployment-log step engine

    A shallow embedding of the timer-driven engine of
    [src/components/DeploymentResults.tsx] (component [DeploymentLogs]),
    of the prompt gate of [src/components/MagicCanvas.tsx] and of the
    screen switch of the [Index] page.

    - React state ([useState]) and the closure variables of an effect
      invocation are fields of an explicit [State] record;
    - [setTimeout] is a list of outstanding timers; the environment picks
      which timer fires and when (never before it is due);
    - calls of the [onComplete] prop are recorded in a trace, together
      with the other actions of the engine on its log. *)

From Stdlib Require Import ZArith Lia ZifyNat.
From stdpp Require Import base tactics option numbers list strings pretty.

Local Open Scope Z_scope.
Local Open Scope nat_scope.

(** [lia] with division by a constant. *)
Ltac Zify.zify_post_hook ::= Z.to_euclidean_division_equations.

(** ** Data model *)

(** [status: "pending" | "running" | "completed" | "error"] *)
Inductive Status := pending | running | completed | error.

(** The [lucide-react] icons used by the step catalog. *)
Inductive Icon := Zap | Terminal | GitBranch | Server | Shield | Globe | CheckCircle.

#[global] Instance Status_eq_dec : EqDecision Status.
Proof. solve_decision. Defined.
#[global] Instance Icon_eq_dec : EqDecision Icon.
Proof. solve_decision. Defined.

(** An element of [deploymentSteps]. Durations are milliseconds. *)
Module Step.
Record t := mk { message : string; details : string; icon : Icon; duration : Z }.
End Step.

(** [interface LogEntry]; [timestamp] is the clock (ms) at creation,
    [details] is the optional field. *)
Module LogEntry.
Record t := mk {
  id : string;
  message : string;
  status : Status;
  timestamp : Z;
  icon : Icon;
  details : option string
}.

(** [{ ...log, status: st }] *)
Definition with_status (st : Status) (log : t) : t :=
  mk (id log) (message log) st (timestamp log) (icon log) (details log).
End LogEntry.

(** [interface DeploymentResult], the payload handed to [onComplete]. *)
Module DeploymentResult.
Record t := mk {
  liveUrl : string;
  sourceRepo : string;
  configRepo : string;
  services : list string;
  status : string
}.
End DeploymentResult.

(** The step catalog of the source. *)
Definition deploymentSteps : list Step.t := [
  Step.mk "요구사항 분석 중..." "Google Gemini API로 자연어 해석" Zap 2000;
  Step.mk "설계도(YAML) 생성 완료" "Kubernetes + Istio + Vault 설정 자동 생성" Terminal 3000;
  Step.mk "Git 저장소에 커밋 중..." "Config Repo에 인프라 설계도 저장" GitBranch 2000;
  Step.mk "Argo CD가 동기화를 시작했습니다" "GitOps 기반 자동 배포 트리거" Server 4000;
  Step.mk "Kubernetes 클러스터에 배포 중..." "Pod, Service, Ingress 리소스 생성" Server 3000;
  Step.mk "Istio 보안 정책 적용 중..." "mTLS + AuthorizationPolicy 자동 설정" Shield 2500;
  Step.mk "도메인 연결 및 SSL 인증서 발급..." "Let's Encrypt 자동 인증서 + Gateway 설정" Globe 3000;
  Step.mk "배포 완료! 🎉" "모든 서비스가 정상 동작하고 있습니다" CheckCircle 1000
].

(** The object literal passed to [onComplete]. *)
Definition completionPayload : DeploymentResult.t :=
  DeploymentResult.mk
    "https://chat.my-app.com"
    "https://github.com/tone-platform/my-chat-app"
    "https://github.com/tone-platform/my-chat-app-config"
    ["Frontend"; "Backend"; "Redis"; "Database"]
    "deployed".

(** [`step-${stepIndex}`] *)
Definition stepId (stepIndex : nat) : string := "step-" +:+ pretty stepIndex.

(** The updater of the step-duration callback:
    [prev.map(log => log.id === id ? { ...log, status: "completed" } : log)] *)
Definition markCompleted (entryId : string) (prev : list LogEntry.t) : list LogEntry.t :=
  (λ log, if bool_decide (LogEntry.id log = entryId)
          then LogEntry.with_status completed log
          else log) <$> prev.

(** ** JavaScript strings of user input

    The prompt is typed by the user and is trimmed, sliced and measured,
    so it is kept as JavaScript has it: a sequence of UTF-16 code units. *)
Definition jsstring := list N.

(** ECMAScript [WhiteSpace] and [LineTerminator] code points, the
    characters [String.prototype.trim] strips. All lie in the basic
    plane, so each is one code unit. *)
Definition isWhiteSpace (c : N) : bool :=
  bool_decide (c ∈ [0x09; 0x0B; 0x0C; 0x20; 0xA0; 0x1680; 0x202F; 0x205F; 0x3000; 0xFEFF]%N)
  || ((0x2000 <=? c) && (c <=? 0x200A))%N.

Definition isLineTerminator (c : N) : bool :=
  bool_decide (c ∈ [0x0A; 0x0D; 0x2028; 0x2029]%N).

Definition isTrimmed (c : N) : bool := isWhiteSpace c || isLineTerminator c.

Fixpoint trimStart (s : jsstring) : jsstring :=
  match s with
  | c :: s' => if isTrimmed c then trimStart s' else s
  | [] => []
  end.

Definition trimEnd (s : jsstring) : jsstring := reverse (trimStart (reverse s)).

Definition trim (s : jsstring) : jsstring := trimEnd (trimStart s).

(** Truthiness of a string: the empty string is the only falsy one. *)
Definition truthy (s : jsstring) : bool :=
  match s with [] => false | _ => true end.

(** ** MagicCanvas: the prompt gate *)
Module MagicCanvas.
(** [handleDeploy]: the result is the argument [onDeploy] is called
    with, or [None] when [onDeploy] is not called. *)
Definition handleDeploy (prompt : jsstring) (isDeploying : bool) : option jsstring :=
  if truthy (trim prompt) && negb isDeploying then Some prompt else None.

(** [disabled={!prompt.trim() || isDeploying}] of the deploy button. *)
Definition buttonDisabled (prompt : jsstring) (isDeploying : bool) : bool :=
  negb (truthy (trim prompt)) || isDeploying.
End MagicCanvas.

(** ** Index: the screen switch *)
Module Index.
Inductive AppState := canvas | deploying | completedScreen.

Record t := mk {
  appState : AppState;
  currentPrompt : jsstring;
  deploymentResult : option DeploymentResult.t
}.

(** [useState] initial values. *)
Definition initial : t := mk canvas [] None.

Definition handleDeploy (prompt : jsstring) (st : t) : t :=
  mk deploying prompt (deploymentResult st).

Definition handleDeploymentComplete (result : DeploymentResult.t) (st : t) : t :=
  mk completedScreen (currentPrompt st) (Some result).

Definition handleStartNew (st : t) : t := mk canvas [] None.

(** A click on the deploy button of the canvas screen. The canvas is
    only rendered in state [canvas], with [isDeploying={false}] and
    [onDeploy={handleDeploy}]. *)
Definition clickDeploy (typed : jsstring) (st : t) : t :=
  match appState st with
  | canvas =>
      match MagicCanvas.handleDeploy typed false with
      | Some prompt => handleDeploy prompt st
      | None => st
      end
  | _ => st
  end.

(** What can happen to the page: a click on the deploy button with
    some text typed, the engine reporting completion (the engine is
    only rendered in state [deploying]), a click on the start-over
    button (only rendered in state [completedScreen]). *)
Inductive Event :=
  | ClickDeploy (typed : jsstring)
  | EngineCompleted (result : DeploymentResult.t)
  | ClickStartNew.

Definition handle (e : Event) (st : t) : t :=
  match e with
  | ClickDeploy typed => clickDeploy typed st
  | EngineCompleted result =>
      match appState st with
      | deploying => handleDeploymentComplete result st
      | _ => st
      end
  | ClickStartNew =>
      match appState st with
      | completedScreen => handleStartNew st
      | _ => st
      end
  end.

Definition run (events : list Event) (st : t) : t :=
  foldl (λ st e, handle e st) st events.
End Index.

(** ** DeploymentLogs: the step engine *)

(** The identity of a function value passed as the [onComplete] prop;
    React compares effect dependencies by identity. *)
Definition Handler := nat.

(** [interface DeploymentLogsProps] *)
Record DeploymentLogsProps := mkProps {
  isActive : bool;
  onComplete : Handler;
  prompt : jsstring
}.

(** The variables one invocation of the effect closes over: its own
    [let stepIndex] and the [onComplete] it was rendered with. Effect
    invocations ("runs") are numbered in the order they happen. *)
Record Closure := mkClosure { stepIndex : nat; closedOnComplete : Handler }.

(** The three functions handed to [setTimeout], each with the run whose
    variables it closes over:
    - [StepElapsed]: [() => { setLogs(prev => prev.map(...)); stepIndex++;
      setTimeout(processStep, 500) }], which also closes over [logEntry]
      and reads its id;
    - [NextStep]: [processStep];
    - [Completion]: [() => { onComplete({...}) }]. *)
Inductive Callback :=
  | StepElapsed (run : nat) (entryId : string)
  | NextStep (run : nat)
  | Completion (run : nat).

Record Timer := mkTimer { due : Z; callback : Callback }.

(** What the engine does to its log and to the outside, in the order it
    does it: [setLogs([])], [setLogs(prev => [...prev, logEntry])],
    [setLogs(prev => prev.map(...))] for an entry id, and
    [onComplete(result)]. *)
Inductive Action :=
  | Cleared
  | Appended (logEntry : LogEntry.t)
  | Marked (entryId : string)
  | Called (h : Handler) (result : DeploymentResult.t).

Record Occurrence := occ { at_time : Z; by_run : nat; action : Action }.

(** The component and its environment: the two [useState] cells, the
    closure of each effect invocation, the outstanding [setTimeout]s
    (oldest first), the wall clock in ms, the actions so far (oldest
    first) and the dependencies [[isActive, onComplete]] of the last
    render. *)
Record State := mkState {
  logs : list LogEntry.t;
  currentStep : nat;
  closures : list Closure;
  timers : list Timer;
  clock : Z;
  trace : list Occurrence;
  deps : option (bool * Handler)
}.

(** The component as first mounted. *)
Definition mounted : State := mkState [] 0 [] [] 0 [] None.

Definition setLogs (f : list LogEntry.t → list LogEntry.t) (s : State) : State :=
  mkState (f (logs s)) (currentStep s) (closures s) (timers s) (clock s) (trace s) (deps s).

Definition setCurrentStep (n : nat) (s : State) : State :=
  mkState (logs s) n (closures s) (timers s) (clock s) (trace s) (deps s).

Definition setClosures (f : list Closure → list Closure) (s : State) : State :=
  mkState (logs s) (currentStep s) (f (closures s)) (timers s) (clock s) (trace s) (deps s).

Definition setTimers (f : list Timer → list Timer) (s : State) : State :=
  mkState (logs s) (currentStep s) (closures s) (f (timers s)) (clock s) (trace s) (deps s).

Definition setClock (t : Z) (s : State) : State :=
  mkState (logs s) (currentStep s) (closures s) (timers s) t (trace s) (deps s).

Definition setDeps (d : bool * Handler) (s : State) : State :=
  mkState (logs s) (currentStep s) (closures s) (timers s) (clock s) (trace s) (Some d).

Definition emit (run : nat) (a : Action) (s : State) : State :=
  mkState (logs s) (currentStep s) (closures s) (timers s) (clock s)
          (trace s ++ [occ (clock s) run a]) (deps s).

(** [setTimeout(cb, delay)]: a negative delay counts as zero. *)
Definition setTimeout (cb : Callback) (delay : Z) (s : State) : State :=
  setTimers (λ pending, pending ++ [mkTimer (clock s + Z.max 0 delay) cb]) s.

(** [stepIndex++] in the closure of [run]. *)
Definition incrStepIndex (run : nat) (s : State) : State :=
  setClosures (alter (λ c, mkClosure (S (stepIndex c)) (closedOnComplete c)) run) s.

(** The invocations of [onComplete] so far. *)
Definition calls (s : State) : list (Handler * DeploymentResult.t) :=
  omap (λ o, match action o with Called h r => Some (h, r) | _ => None end) (trace s).

(** What the environment does to the component: the parent renders it
    with some props at time [t], or the [k]-th outstanding timer fires
    at time [t]. *)
Inductive Event :=
  | Render (t : Z) (props : DeploymentLogsProps)
  | Fire (k : nat) (t : Z).

Section Engine.
Variable catalog : list Step.t.

(** [const processStep = () => { ... }] of effect invocation [run]. *)
Definition processStep (run : nat) (s : State) : State :=
  match closures s !! run with
  | None => s
  | Some c =>
      if bool_decide (length catalog ≤ stepIndex c) then
        setTimeout (Completion run) 1000 s
      else
        match catalog !! stepIndex c with
        | None => s
        | Some step =>
            let logEntry :=
              LogEntry.mk (stepId (stepIndex c)) (Step.message step) running
                          (clock s) (Step.icon step) (Some (Step.details step)) in
            let s := emit run (Appended logEntry) s in
            let s := setLogs (λ prev, prev ++ [logEntry]) s in
            let s := setCurrentStep (stepIndex c) s in
            setTimeout (StepElapsed run (LogEntry.id logEntry)) (Step.duration step) s
        end
  end.

(** The body of a timer callback. *)
Definition runCallback (cb : Callback) (s : State) : State :=
  match cb with
  | StepElapsed run entryId =>
      let s := emit run (Marked entryId) s in
      let s := setLogs (markCompleted entryId) s in
      let s := incrStepIndex run s in
      setTimeout (NextStep run) 500 s
  | NextStep run => processStep run s
  | Completion run =>
      match closures s !! run with
      | None => s
      | Some c => emit run (Called (closedOnComplete c) completionPayload) s
      end
  end.

(** The body of [useEffect(() => { ... }, [isActive, onComplete])].
    It returns no cleanup function. *)
Definition effect (props : DeploymentLogsProps) (s : State) : State :=
  if negb (isActive props) then s
  else
    let run := length (closures s) in
    let s := emit run Cleared s in
    let s := setLogs (λ _, []) s in
    let s := setCurrentStep 0 s in
    let s := setClosures (λ cs, cs ++ [mkClosure 0 (onComplete props)]) s in
    processStep run s.

(** A render runs the effect when a dependency changed since the last
    render (always on the first one). *)
Definition render (props : DeploymentLogsProps) (s : State) : State :=
  let d := (isActive props, onComplete props) in
  if bool_decide (deps s = Some d) then s else effect props (setDeps d s).

(** One event. Time does not go backwards and a timer does not fire
    before it is due; an event that breaks this is refused. *)
Definition step (e : Event) (s : State) : option State :=
  match e with
  | Render t props =>
      if bool_decide (clock s ≤ t)%Z then Some (render props (setClock t s)) else None
  | Fire k t =>
      match timers s !! k with
      | None => None
      | Some tm =>
          if bool_decide (clock s ≤ t ∧ due tm ≤ t)%Z
          then Some (runCallback (callback tm) (setClock t (setTimers (delete k) s)))
          else None
      end
  end.

Fixpoint exec (sched : list Event) (s : State) : option State :=
  match sched with
  | [] => Some s
  | e :: rest => step e s ≫= exec rest
  end.

(** The punctual environment: the timer due first (the older one among
    equals) fires exactly when it is due. *)
Fixpoint earliest (pending : list Timer) : option (nat * Timer) :=
  match pending with
  | [] => None
  | tm :: rest =>
      match earliest rest with
      | Some (k, tm') =>
          if bool_decide (due tm' < due tm)%Z then Some (S k, tm') else Some (0, tm)
      | None => Some (0, tm)
      end
  end.

Definition nextFire (s : State) : option Event :=
  '(k, tm) ← earliest (timers s); Some (Fire k (Z.max (clock s) (due tm))).

Definition tick (s : State) : option State := nextFire s ≫= λ e, step e s.

Fixpoint ticks (n : nat) (s : State) : option State :=
  match n with
  | 0 => Some s
  | S n' => tick s ≫= ticks n'
  end.

(** The sequencer states of the specification, read off the closure of
    the latest effect invocation. *)
Inductive SequencerState := Idle | RunningAt (i : nat) | Completed.

Definition currentRun (s : State) : nat := pred (length (closures s)).

Definition sequencerState (s : State) : SequencerState :=
  match closures s !! currentRun s with
  | None => Idle
  | Some c =>
      if bool_decide (stepIndex c < length catalog) then RunningAt (stepIndex c)
      else Completed
  end.
End Engine.

(** The text under the header: [prompt.slice(0, 80)] followed by
    ['...'] when [prompt.length > 80]; the only use of [prompt]. *)
Definition promptPreview (prompt : jsstring) : jsstring :=
  take 80 prompt ++ (if bool_decide (80 < length prompt) then [46; 46; 46]%N else []).

(** ** Vocabulary of the statements *)

(** [stepIndex] of effect invocation [run] (0 before it exists). *)
Definition stepIndexOf (run : nat) (s : State) : nat :=
  default 0 (stepIndex <$> closures s !! run).

(** An event that leaves the effect dependencies at [d]: a timer, or a
    render with the same [isActive] and [onComplete] (the prompt is free
    to change). A schedule of such events after a first render is one
    run, without re-activation. *)
Definition keepsDeps (d : bool * Handler) (e : Event) : bool :=
  match e with
  | Render _ props => bool_decide ((isActive props, onComplete props) = d)
  | Fire _ _ => true
  end.

Definition uninterrupted (props : DeploymentLogsProps) (sched : list Event) : bool :=
  forallb (keepsDeps (isActive props, onComplete props)) sched.

(** The number of timer firings in a schedule. *)
Fixpoint firings (sched : list Event) : nat :=
  match sched with
  | [] => 0
  | Fire _ _ :: rest => S (firings rest)
  | Render _ _ :: rest => firings rest
  end.

(** The same event with the prompt replaced. *)
Definition withPrompt (prompt' : jsstring) (e : Event) : Event :=
  match e with
  | Render t props => Render t (mkProps (isActive props) (onComplete props) prompt')
  | Fire k t => Fire k t
  end.

(** A log entry without its creation time. *)
Definition untimed (log : LogEntry.t) : LogEntry.t :=
  LogEntry.mk (LogEntry.id log) (LogEntry.message log) (LogEntry.status log) 0
              (LogEntry.icon log) (LogEntry.details log).

(** The entry of step [i] of the catalog, created at [t], in status [st]. *)
Definition entryOf (i : nat) (step : Step.t) (st : Status) (t : Z) : LogEntry.t :=
  LogEntry.mk (stepId i) (Step.message step) st t (Step.icon step) (Some (Step.details step)).

(** What every action of the engine satisfies: an entry is appended in
    status [running], [onComplete] is called with the fixed payload. *)
Definition lawful (o : Occurrence) : Prop :=
  match action o with
  | Appended logEntry => LogEntry.status logEntry = running
  | Called _ result => result = completionPayload
  | _ => True
  end.

Definition twoState (log : LogEntry.t) : Prop :=
  LogEntry.status log = running ∨ LogEntry.status log = completed.

(** The run a timer belongs to, the number of timers a run has
    outstanding and the number of calls of [onComplete] it has made. *)
Definition timerRun (tm : Timer) : nat :=
  match callback tm with
  | StepElapsed run _ | NextStep run | Completion run => run
  end.

Definition isCall (o : Occurrence) : bool :=
  match action o with Called _ _ => true | _ => false end.

Definition pendingOf (run : nat) (s : State) : nat :=
  length (filter (λ tm, timerRun tm = run) (timers s)).

Definition callsBy (run : nat) (s : State) : nat :=
  length (filter (λ o, by_run o = run ∧ isCall o = true) (trace s)).

Section RunInvariant.
Variable catalog : list Step.t.
Variable h : Handler.

(** The untimed entries of the first [k] steps, all completed. *)
Definition settled (k : nat) : list LogEntry.t :=
  imap (λ i step, entryOf i step completed 0) (take k catalog).

(** The order of actions in a trace: an entry of a step after the
    first is appended after, and later than, the marking of the entry
    of the step before it by the same run; [onComplete] is called
    after, and later than, the marking of the entry of the last step. *)
Definition ordered (tr : list Occurrence) : Prop :=
  (∀ pos t r logEntry i,
      tr !! pos = Some (occ t r (Appended logEntry)) →
      LogEntry.id logEntry = stepId (S i) →
      ∃ pos' t', pos' < pos ∧ (t' < t)%Z
                 ∧ tr !! pos' = Some (occ t' r (Marked (stepId i))))
  ∧ (∀ pos t r h' result i,
      tr !! pos = Some (occ t r (Called h' result)) →
      S i = length catalog →
      ∃ pos' t', pos' < pos ∧ (t' < t)%Z
                 ∧ tr !! pos' = Some (occ t' r (Marked (stepId i)))).

(** The states of one run, by the number of timers fired since its
    activation: step [i] running, step [i] done and the pause before
    the next one, all steps done and the delay before the callback,
    callback made. *)
Inductive phase (s : State) (f : nat) : Prop :=
  | phase_running i step d :
      f = 2 * i →
      catalog !! i = Some step →
      untimed <$> logs s = settled i ++ [entryOf i step running 0] →
      currentStep s = i →
      closures s = [mkClosure i h] →
      timers s = [mkTimer d (StepElapsed 0 (stepId i))] →
      calls s = [] →
      phase s f
  | phase_settling i d pos t :
      f = 2 * i + 1 →
      i < length catalog →
      untimed <$> logs s = settled (S i) →
      currentStep s = i →
      closures s = [mkClosure (S i) h] →
      timers s = [mkTimer d (NextStep 0)] →
      calls s = [] →
      trace s !! pos = Some (occ t 0 (Marked (stepId i))) → (t < d)%Z →
      phase s f
  | phase_finishing d :
      f = 2 * length catalog →
      untimed <$> logs s = settled (length catalog) →
      currentStep s = pred (length catalog) →
      closures s = [mkClosure (length catalog) h] →
      timers s = [mkTimer d (Completion 0)] →
      calls s = [] →
      (∀ i, S i = length catalog →
            ∃ pos t, trace s !! pos = Some (occ t 0 (Marked (stepId i))) ∧ (t < d)%Z) →
      phase s f
  | phase_finished :
      f = 2 * length catalog + 1 →
      untimed <$> logs s = settled (length catalog) →
      currentStep s = pred (length catalog) →
      closures s = [mkClosure (length catalog) h] →
      timers s = [] →
      calls s = [(h, completionPayload)] →
      phase s f.

Definition run_inv (f : nat) (s : State) : Prop :=
  phase s f ∧ deps s = Some (true, h) ∧ ordered (trace s).

(** What holds of an outstanding timer in any execution, with any
    number of runs: the step timer of a run is for the step its
    [stepIndex] points at; the pause timer and the callback timer are
    due later than the marking they follow. *)
Definition timer_fact (s : State) (tm : Timer) : Prop :=
  match callback tm with
  | StepElapsed run entryId =>
      ∃ c, closures s !! run = Some c ∧ stepIndex c < length catalog
           ∧ entryId = stepId (stepIndex c)
  | NextStep run =>
      ∃ c i pos t, closures s !! run = Some c ∧ stepIndex c = S i ∧ S i ≤ length catalog
                   ∧ trace s !! pos = Some (occ t run (Marked (stepId i))) ∧ (t < due tm)%Z
  | Completion run =>
      ∀ i, S i = length catalog →
           ∃ pos t, trace s !! pos = Some (occ t run (Marked (stepId i))) ∧ (t < due tm)%Z
  end.

(** Every run has one timer outstanding until it makes its one call. *)
Definition any_inv (s : State) : Prop :=
  (∀ run, pendingOf run s + callsBy run s
          = if bool_decide (run < length (closures s)) then 1 else 0)
  ∧ (∀ k tm, timers s !! k = Some tm → timer_fact s tm)
  ∧ ordered (trace s).
End RunInvariant.

(** ** A recorded run

    The props and the timer schedule of one complete run over
    [deploymentSteps]: activation at time 0 with an empty prompt, each
    timer firing when it is due. *)
Definition demoProps : DeploymentLogsProps := mkProps true 1 [].

Definition demoSchedule : list Event := [
  Fire 0 2000; Fire 0 2500; Fire 0 5500; Fire 0 6000; Fire 0 8000; Fire 0 8500;
  Fire 0 12500; Fire 0 13000; Fire 0 16000; Fire 0 16500; Fire 0 19000; Fire 0 19500;
  Fire 0 22500; Fire 0 23000; Fire 0 24000; Fire 0 24500; Fire 0 25500
]%Z.

(** The state after the activation and the first [n] timers of the
    recorded run. *)
Definition demoRun (n : nat) : State :=
  default mounted (exec deploymentSteps (Render 0 demoProps :: take n demoSchedule) mounted).

(** A recorded re-activation: the same activation, then at time 100,
    with step 0 in flight, a render with another [onComplete]; then [n]
    timers, each firing when it is due. *)
Definition reactivationProps : DeploymentLogsProps := mkProps true 2 [].

Definition reactivatedRun (n : nat) : State :=
  default mounted
    (exec deploymentSteps [Render 0 demoProps; Render 100 reactivationProps] mounted
       ≫= ticks deploymentSteps n).

(** ** The view of the engine

    What [DeploymentLogs] renders from its state: the prompt under the
    header, the badge and the keys of the rows. *)

(** UTF-16 surrogates, and the strings in which they only come in
    pairs ([String.prototype.isWellFormed]). *)
Definition isHighSurrogate (c : N) : bool := ((0xD800 <=? c) && (c <=? 0xDBFF))%N.
Definition isLowSurrogate (c : N) : bool := ((0xDC00 <=? c) && (c <=? 0xDFFF))%N.

Fixpoint isWellFormed (s : jsstring) : bool :=
  match s with
  | [] => true
  | c :: rest =>
      if isHighSurrogate c then
        match rest with
        | d :: rest' => isLowSurrogate d && isWellFormed rest'
        | [] => false
        end
      else if isLowSurrogate c then false
      else isWellFormed rest
  end.


(** The badge: [{currentStep + 1} / {deploymentSteps.length}]. *)
Definition badge (catalog : list Step.t) (s : State) : nat * nat :=
  (currentStep s + 1, length catalog).

(** The React keys of the rows: [key={log.id}]. *)
Definition rowKeys (s : State) : list string := LogEntry.id <$> logs s.

(** ** The times of a run *)

(** What a step takes: its duration (a negative one counts as zero) and
    the pause after it. *)
Definition pace (step : Step.t) : Z := (Z.max 0 (Step.duration step) + 500)%Z.

(** The time from the activation to the start of step [i], and to the
    call of [onComplete], when no timer is late. *)
Definition startOf (catalog : list Step.t) (i : nat) : Z :=
  foldr Z.add 0%Z (pace <$> take i catalog).

Definition runLength (catalog : list Step.t) : Z :=
  (startOf catalog (length catalog) + 1000)%Z.

Section Timing.
Variable catalog : list Step.t.
Variable R : Z → Z → Prop.
Variable t0 : Z.

(** When the timer of a run is due if no timer was late, from the
    activation. *)
Definition idealDue (s : State) (tm : Timer) : Z :=
  match callback tm with
  | StepElapsed _ _ => (startOf catalog (S (stepIndexOf 0 s)) - 500)%Z
  | NextStep _ => startOf catalog (stepIndexOf 0 s)
  | Completion _ => runLength catalog
  end.

(** The times of a run activated at [t0] stand in relation [R] to the
    times without lateness: the timestamps of the entries, the
    markings, the call and the outstanding timer. *)
Definition timed (s : State) : Prop :=
  (∀ k log, logs s !! k = Some log →
     R (t0 + startOf catalog k)%Z (LogEntry.timestamp log))
  ∧ (∀ o i, o ∈ trace s → action o = Marked (stepId i) →
     R (t0 + startOf catalog (S i) - 500)%Z (at_time o))
  ∧ (∀ o h r, o ∈ trace s → action o = Called h r →
     R (t0 + runLength catalog)%Z (at_time o))
  ∧ (∀ tm, tm ∈ timers s → R (t0 + idealDue s tm)%Z (due tm)).
End Timing.

(** ** The life of the log *)

(** A log that has only grown at its end and only had entries completed:
    every entry is still at its position, as it was or completed. *)
Definition evolves (before after : list LogEntry.t) : Prop :=
  length before ≤ length after
  ∧ ∀ k log, before !! k = Some log →
      after !! k = Some log ∨ after !! k = Some (LogEntry.with_status completed log).

(** An event that renders the component inactive, or a timer. *)
Definition keepsInactive (e : Event) : bool :=
  match e with
  | Render _ props => negb (isActive props)
  | Fire _ _ => true
  end.

(** ** The page and its three screens together

    [Index] shows [MagicCanvas] in state [canvas], [DeploymentLogs] in
    state [deploying] and [DeploymentResults] in state [completed] when
    a result is there. *)

(** The code units of a literal of the source: the UTF-16 form of the
    text that the Rocq literal holds as UTF-8 bytes. *)
Fixpoint utf16_of_utf8 (bytes : list N) : jsstring :=
  match bytes with
  | [] => []
  | b :: rest =>
      if (b <? 0x80)%N then b :: utf16_of_utf8 rest
      else if (b <? 0xE0)%N then
        match rest with
        | b1 :: rest' =>
            (N.lor (N.shiftl (N.land b 0x1F) 6) (N.land b1 0x3F)) :: utf16_of_utf8 rest'
        | _ => []
        end
      else if (b <? 0xF0)%N then
        match rest with
        | b1 :: b2 :: rest' =>
            (N.lor (N.shiftl (N.land b 0x0F) 12)
               (N.lor (N.shiftl (N.land b1 0x3F) 6) (N.land b2 0x3F)))
            :: utf16_of_utf8 rest'
        | _ => []
        end
      else
        match rest with
        | b1 :: b2 :: b3 :: rest' =>
            let cp := N.lor (N.shiftl (N.land b 0x07) 18)
                        (N.lor (N.shiftl (N.land b1 0x3F) 12)
                           (N.lor (N.shiftl (N.land b2 0x3F) 6) (N.land b3 0x3F))) in
            let v := (cp - 0x10000)%N in
            (0xD800 + N.shiftr v 10)%N :: (0xDC00 + N.land v 0x3FF)%N
            :: utf16_of_utf8 rest'
        | _ => []
        end
  end.

Definition utf16 (literal : string) : jsstring :=
  utf16_of_utf8 (Ascii.N_of_ascii <$> String.list_ascii_of_string literal).

(** [examplePrompts] of [MagicCanvas]. *)
Definition examplePrompts : list jsstring := utf16 <$> [
  "Python으로 만든 실시간 채팅 앱, Redis 사용, 도메인은 chat.my-app.com";
  "Node.js REST API with PostgreSQL database for a todo app";
  "React 대시보드 앱과 Express 백엔드, JWT 인증 포함";
  "Go 마이크로서비스로 이메일 발송 API, SMTP 연결"
].

(** [serviceIcons] of [DeploymentResults]: the own properties of the
    object literal, [None] for a name that is not one of its keys. *)
Inductive ServiceIcon := GlobeIcon | ZapIcon | DatabaseIcon.

Definition serviceIcons (service : string) : option ServiceIcon :=
  if bool_decide (service = "Frontend") then Some GlobeIcon
  else if bool_decide (service = "Backend") then Some ZapIcon
  else if bool_decide (service = "Redis") then Some DatabaseIcon
  else if bool_decide (service = "Database") then Some DatabaseIcon
  else None.

(** The lookup [serviceIcons[service as keyof typeof serviceIcons]] at
    run time: an own property of the object literal, or else a
    property that every object inherits from [Object.prototype], or
    else [undefined]. *)
Definition objectPrototypeKeys : list string :=
  ["constructor"; "hasOwnProperty"; "isPrototypeOf"; "propertyIsEnumerable";
   "toLocaleString"; "toString"; "valueOf"; "__proto__"; "__defineGetter__";
   "__defineSetter__"; "__lookupGetter__"; "__lookupSetter__"].

Inductive PropertyValue :=
  | OwnIcon (icon : ServiceIcon)
  | InheritedValue
  | UndefinedValue.

Definition serviceIconLookup (service : string) : PropertyValue :=
  match serviceIcons service with
  | Some icon => OwnIcon icon
  | None =>
      if bool_decide (service ∈ objectPrototypeKeys) then InheritedValue else UndefinedValue
  end.

(** What [Index] renders: its three conditional children, in order. *)
Inductive Screen :=
  | CanvasScreen
  | LogsScreen (prompt : jsstring)
  | ResultsScreen (result : DeploymentResult.t).

Definition screens (st : Index.t) : list Screen :=
  (match Index.appState st with Index.canvas => [CanvasScreen] | _ => [] end)
  ++ (match Index.appState st with
      | Index.deploying => [LogsScreen (Index.currentPrompt st)]
      | _ => []
      end)
  ++ (match Index.appState st, Index.deploymentResult st with
      | Index.completedScreen, Some result => [ResultsScreen result]
      | _, _ => []
      end).

(** A call of one of the three handlers of [Index], by whoever holds
    it. *)
Inductive HandlerCall :=
  | CallDeploy (prompt : jsstring)
  | CallDeploymentComplete (result : DeploymentResult.t)
  | CallStartNew.

Definition callHandler (c : HandlerCall) (st : Index.t) : Index.t :=
  match c with
  | CallDeploy prompt => Index.handleDeploy prompt st
  | CallDeploymentComplete result => Index.handleDeploymentComplete result st
  | CallStartNew => Index.handleStartNew st
  end.

Module App.
(** The page with the state of the screen it shows: the text typed into
    the canvas, the engine while its screen is mounted, the time, the
    number of renders of [Index] (each render makes new handler
    functions; [Index] renders again when its state changes), and the
    number of timers that were outstanding when their engine was
    unmounted. *)
Record t := mk {
  page : Index.t;
  typed : jsstring;
  engine : option State;
  now : Z;
  indexRenders : nat;
  orphaned : nat
}.

Definition initial : t := mk Index.initial [] None 0 1 0.

(** What the user and the timers do: type into the text area, click an
    example, click the deploy button at time [t], have the [k]-th timer
    of the engine fire at time [t], click the start-over button. *)
Inductive Event :=
  | TypeText (text : jsstring)
  | ClickExample (i : nat)
  | ClickDeploy (t : Z)
  | TimerFires (k : nat) (t : Z)
  | ClickStartNew.

Section Step.
Variable catalog : list Step.t.

(** The calls of [onComplete] reach [handleDeploymentComplete] of the
    render of [Index] that made the handler; every render makes the
    same function of the same state setters. *)
Definition deliver (newCalls : list (Handler * DeploymentResult.t)) (st : Index.t) : Index.t :=
  foldl (λ st call, Index.handleDeploymentComplete call.2 st) st newCalls.

(** One event; [None] when it cannot happen: a time in the past, a
    timer that is not there or not due, an element that is not on the
    screen. *)
Definition step (e : Event) (a : t) : option t :=
  match e, Index.appState (page a) with
  | TypeText text, Index.canvas =>
      Some (mk (page a) text (engine a) (now a) (indexRenders a) (orphaned a))
  | ClickExample i, Index.canvas =>
      match examplePrompts !! i with
      | Some example =>
          Some (mk (page a) example (engine a) (now a) (indexRenders a) (orphaned a))
      | None => None
      end
  | ClickDeploy t, Index.canvas =>
      if bool_decide (now a ≤ t)%Z then
        match MagicCanvas.handleDeploy (typed a) false with
        | Some prompt =>
            let renders := S (indexRenders a) in
            match step catalog (Render t (mkProps true renders prompt)) mounted with
            | Some s =>
                Some (mk (Index.handleDeploy prompt (page a)) [] (Some s) t renders
                         (orphaned a))
            | None => None
            end
        | None => Some (mk (page a) (typed a) (engine a) t (indexRenders a) (orphaned a))
        end
      else None
  | TimerFires k t, Index.deploying =>
      if bool_decide (now a ≤ t)%Z then
        match engine a with
        | Some s =>
            match step catalog (Fire k t) s with
            | Some s' =>
                match drop (length (calls s)) (calls s') with
                | [] =>
                    Some (mk (page a) (typed a) (Some s') t (indexRenders a) (orphaned a))
                | newCalls =>
                    Some (mk (deliver newCalls (page a)) (typed a) None t
                             (S (indexRenders a)) (orphaned a + length (timers s')))
                end
            | None => None
            end
        | None => None
        end
      else None
  | ClickStartNew, Index.completedScreen =>
      Some (mk (Index.handleStartNew (page a)) [] None (now a) (S (indexRenders a))
               (orphaned a))
  | _, _ => None
  end.

Fixpoint exec (events : list Event) (a : t) : option t :=
  match events with
  | [] => Some a
  | e :: rest => step e a ≫= exec rest
  end.

(** The punctual environment of the engine, at the level of the page. *)
Definition tick (a : t) : option t :=
  match engine a with
  | Some s =>
      match nextFire s with
      | Some (Fire k t) => step (TimerFires k t) a
      | _ => None
      end
  | None => None
  end.

Fixpoint ticks (n : nat) (a : t) : option t :=
  match n with
  | 0 => Some a
  | S n' => tick a ≫= ticks n'
  end.

(** What holds of the page whatever happens to it: on the canvas it is
    as at the start; while deploying the engine is in the one run its
    mount started, with the prompt of the page and the clock of the
    page; on the result screen the result is the payload of the engine;
    and no timer was ever orphaned. *)
Definition sound (a : t) : Prop :=
  orphaned a = 0 ∧ (0 ≤ now a)%Z ∧
  match Index.appState (page a) with
  | Index.canvas => page a = Index.initial ∧ engine a = None
  | Index.deploying =>
      Index.deploymentResult (page a) = None
      ∧ trim (Index.currentPrompt (page a)) ≠ []
      ∧ ∃ s f, engine a = Some s ∧ run_inv catalog (indexRenders a) f s
               ∧ f ≤ 2 * length catalog ∧ now a = clock s
  | Index.completedScreen =>
      Index.deploymentResult (page a) = Some completionPayload ∧ engine a = None
  end.
End Step.
End App.

(** A recorded session of the page: an example is clicked, the deploy
    button is clicked at time 10, and two timers fire, the second one
    late. *)
Definition demoSession : list App.Event :=
  [App.ClickExample 0; App.ClickDeploy 10; App.TimerFires 0 2010; App.TimerFires 0 2600].

Definition demoApp : App.t :=
  default App.initial (App.exec deploymentSteps demoSession App.initial).

(** A recorded hiding: the recorded run is rendered inactive, with
    another handler, at time 5700, after its third timer; the timers
    go on firing when they are due. *)
Definition hidingProps : DeploymentLogsProps := mkProps false 5 [].

Definition hiddenSchedule : list Event := Render 5700 hidingProps :: drop 3 demoSchedule.

Definition hiddenRun : State :=
  default mounted
    (exec deploymentSteps (Render 0 demoProps :: take 3 demoSchedule ++ hiddenSchedule)
       mounted).

(** ** The timers still to come *)

(** How many timers the run of an outstanding timer still fires, this
    one included: two for every step from [stepIndex] on, one less when
    the step is already running, and the callback timer. *)
Definition remaining (catalog : list Step.t) (s : State) (tm : Timer) : nat :=
  match callback tm with
  | StepElapsed run _ => 2 * (length catalog - stepIndexOf run s) + 1
  | NextStep run => 2 * (length catalog - stepIndexOf run s) + 2
  | Completion _ => 1
  end.

Definition outstanding (catalog : list Step.t) (s : State) : nat :=
  sum_list_with (remaining catalog s) (timers s).

(** ** A run on its own

    A run is on its own when it starts with no timer outstanding and
    the body of the effect does not run again while it lasts. *)

(** A schedule in which no render starts a run, for a component whose
    last render had the dependencies [d]: a render either leaves the
    dependencies as they are, so the effect does not run, or has
    [isActive] false, so the effect returns at its first line. *)
Fixpoint undisturbed (d : bool * Handler) (sched : list Event) : bool :=
  match sched with
  | [] => true
  | Fire _ _ :: rest => undisturbed d rest
  | Render _ props :: rest =>
      (bool_decide ((isActive props, onComplete props) = d) || negb (isActive props))
      && undisturbed (isActive props, onComplete props) rest
  end.

(** The timer events of a schedule. *)
Fixpoint fires (sched : list Event) : list Event :=
  match sched with
  | [] => []
  | Fire k t :: rest => Fire k t :: fires rest
  | Render _ _ :: rest => fires rest
  end.

(** The state of a run of a fresh component, seen in a component that
    had [length pre] effect invocations and the actions [tpre] before:
    the run numbers are shifted by the number of earlier invocations. *)
Definition shiftCallback (r : nat) (cb : Callback) : Callback :=
  match cb with
  | StepElapsed run entryId => StepElapsed (r + run) entryId
  | NextStep run => NextStep (r + run)
  | Completion run => Completion (r + run)
  end.

Definition shiftTimer (r : nat) (tm : Timer) : Timer :=
  mkTimer (due tm) (shiftCallback r (callback tm)).

Definition shiftOccurrence (r : nat) (o : Occurrence) : Occurrence :=
  occ (at_time o) (r + by_run o) (action o).

Definition embed (pre : list Closure) (tpre : list Occurrence)
    (d : option (bool * Handler)) (s0 : State) : State :=
  mkState (logs s0) (currentStep s0) (pre ++ closures s0)
          (shiftTimer (length pre) <$> timers s0) (clock s0)
          (tpre ++ (shiftOccurrence (length pre) <$> trace s0)) d.

(** [s] is [s0] so embedded, up to the dependencies of the last render
    and to a clock that renders have moved on. *)
Definition mirrors (pre : list Closure) (tpre : list Occurrence) (s0 s : State) : Prop :=
  logs s = logs s0
  ∧ currentStep s = currentStep s0
  ∧ closures s = pre ++ closures s0
  ∧ timers s = shiftTimer (length pre) <$> timers s0
  ∧ trace s = tpre ++ (shiftOccurrence (length pre) <$> trace s0)
  ∧ (clock s0 ≤ clock s)%Z.

(** A recorded second run: after the recorded run is over the
    component is rendered with another [onComplete] at time 30000, and
    the timers of the new run fire when they are due. *)
Definition secondSchedule : list Event :=
  (λ e, match e with Fire k t => Fire k (t + 30000) | Render t props => Render t props end)
    <$> demoSchedule.

Definition secondRun (n : nat) : State :=
  default mounted
    (exec deploymentSteps (Render 30000 reactivationProps :: take n secondSchedule)
       (demoRun 17)).

(** A recorded late re-activation: the recorded run is re-activated at
    time 6100, with step 2 in flight; then [n] timers fire, each when it
    is due. *)
Definition lateReactivation (n : nat) : State :=
  default mounted
    (exec deploymentSteps
       (Render 0 demoProps :: take 4 demoSchedule ++ [Render 6100 reactivationProps])
       mounted
     ≫= ticks deploymentSteps n).

(** * Properties *)

(** ** The log store *)

Section LogStore.
Implicit Types (prev : list LogEntry.t) (log : LogEntry.t) (entryId : string).

Lemma markCompleted_length entryId prev :
  length (markCompleted entryId prev) = length prev.
Proof. unfold markCompleted. by rewrite length_fmap. Qed.

Lemma markCompleted_lookup entryId prev k :
  markCompleted entryId prev !! k =
    (λ log, if bool_decide (LogEntry.id log = entryId)
            then LogEntry.with_status completed log else log) <$> prev !! k.
Proof. unfold markCompleted. by rewrite list_lookup_fmap. Qed.

Lemma markCompleted_app entryId prev more :
  markCompleted entryId (prev ++ more)
  = markCompleted entryId prev ++ markCompleted entryId more.
Proof. unfold markCompleted. by rewrite fmap_app. Qed.

(** Marking leaves a list of completed entries as it is, whatever
    their ids. *)
Lemma markCompleted_settled entryId prev :
  Forall (λ log, LogEntry.status log = completed) prev →
  markCompleted entryId prev = prev.
Proof.
  induction 1 as [|log prev Hlog _ IH]; [done|].
  unfold markCompleted in *. rewrite fmap_cons, IH. f_equal.
  case_bool_decide; [|done]. destruct log; simpl in *. by subst.
Qed.

Lemma markCompleted_absent entryId prev :
  (∀ log, log ∈ prev → LogEntry.id log ≠ entryId) →
  markCompleted entryId prev = prev.
Proof.
  induction prev as [|log prev IH]; intros Habs; [done|].
  unfold markCompleted in *. rewrite fmap_cons, IH.
  - rewrite bool_decide_eq_false_2; [done|]. apply Habs. by left.
  - intros log' Hin. apply Habs. by right.
Qed.
End LogStore.

(** C8. [markCompleted id] keeps the length and the order of the log;
    an entry whose id is [id] comes out with status [completed] and its
    id, message, details, timestamp and icon as they were; an entry with
    another id comes out as it went in; and when no entry has the id the
    log comes out as it went in. *)
Theorem markCompleted_frame (entryId : string) (prev : list LogEntry.t) :
  length (markCompleted entryId prev) = length prev
  ∧ (∀ k log, prev !! k = Some log → LogEntry.id log = entryId →
       ∃ log', markCompleted entryId prev !! k = Some log'
               ∧ LogEntry.status log' = completed
               ∧ LogEntry.id log' = LogEntry.id log
               ∧ LogEntry.message log' = LogEntry.message log
               ∧ LogEntry.details log' = LogEntry.details log
               ∧ LogEntry.timestamp log' = LogEntry.timestamp log
               ∧ LogEntry.icon log' = LogEntry.icon log)
  ∧ (∀ k log, prev !! k = Some log → LogEntry.id log ≠ entryId →
       markCompleted entryId prev !! k = Some log)
  ∧ (∀ k, prev !! k = None → markCompleted entryId prev !! k = None)
  ∧ ((∀ log, log ∈ prev → LogEntry.id log ≠ entryId) →
       markCompleted entryId prev = prev).
Proof.
  split; [apply markCompleted_length|].
  split; [|split; [|split]].
  - intros k log Hk Hid. rewrite markCompleted_lookup, Hk. simpl.
    rewrite bool_decide_eq_true_2 by done.
    eexists. split; [done|]. by repeat split.
  - intros k log Hk Hid. rewrite markCompleted_lookup, Hk. simpl.
    by rewrite bool_decide_eq_false_2.
  - intros k Hk. by rewrite markCompleted_lookup, Hk.
  - apply markCompleted_absent.
Qed.

(** On the log of the recorded run with the second step running: its
    id flips that entry only, an id of no entry flips nothing. *)
Example markCompleted_demo :
  LogEntry.status <$> logs (demoRun 2) = [completed; running]
  ∧ LogEntry.status <$> markCompleted "step-1" (logs (demoRun 2)) = [completed; completed]
  ∧ untimed <$> markCompleted "step-1" (logs (demoRun 2))
    = LogEntry.with_status completed <$> (untimed <$> logs (demoRun 2))
  ∧ markCompleted "step-9" (logs (demoRun 2)) = logs (demoRun 2).
Proof. by vm_compute. Qed.

(** ** The prompt gate *)

Section Trim.
Implicit Types (s : jsstring).

Lemma trimStart_blank s : forallb isTrimmed s = true → trimStart s = [].
Proof.
  induction s as [|c s IH]; simpl; [done|].
  intros [Hc Hs]%andb_prop. rewrite Hc. auto.
Qed.

Lemma trimStart_nil_blank s : trimStart s = [] → forallb isTrimmed s = true.
Proof.
  induction s as [|c s IH]; simpl; [done|].
  destruct (isTrimmed c); [auto|done].
Qed.

Lemma forallb_reverse s : forallb isTrimmed (reverse s) = forallb isTrimmed s.
Proof.
  induction s as [|c s IH]; [done|].
  rewrite reverse_cons, forallb_app, IH. simpl.
  rewrite andb_true_r. apply andb_comm.
Qed.

Lemma trim_blank s : trim s = [] ↔ forallb isTrimmed s = true.
Proof.
  unfold trim, trimEnd. split.
  - intros H. apply (f_equal reverse) in H.
    rewrite reverse_involutive, reverse_nil in H.
    apply trimStart_nil_blank in H. rewrite forallb_reverse in H.
    destruct (trimStart s) as [|c s'] eqn:E; [by apply trimStart_nil_blank|].
    exfalso. revert E H. induction s as [|d s IH]; simpl; [done|].
    destruct (isTrimmed d) eqn:Hd; [auto|].
    intros [= <- <-]. simpl. by rewrite Hd.
  - intros H. by rewrite (trimStart_blank _ H).
Qed.
End Trim.

Lemma Index_deploying_prompt (events : list Index.Event) :
  Index.appState (Index.run events Index.initial) = Index.deploying →
  trim (Index.currentPrompt (Index.run events Index.initial)) ≠ [].
Proof.
  unfold Index.run.
  induction events as [|e events IH] using rev_ind; [done|].
  rewrite foldl_app. simpl.
  set (st := foldl _ _ events) in *.
  destruct e as [typed|result|]; simpl.
  - unfold Index.clickDeploy, MagicCanvas.handleDeploy.
    destruct (Index.appState st) eqn:Hst; try by (rewrite ?Hst; auto).
    destruct (trim typed) eqn:Ht; simpl; [by rewrite Hst|].
    intros _. by rewrite Ht.
  - destruct (Index.appState st) eqn:Hst; simpl; by (rewrite ?Hst; auto).
  - destruct (Index.appState st) eqn:Hst; simpl; by (rewrite ?Hst; auto).
Qed.

(** C10. [handleDeploy] calls [onDeploy] exactly when the trimmed prompt
    is not empty and [isDeploying] is false, and then with the prompt as
    typed; it does not call it for a prompt made of white space and line
    terminators only, nor while [isDeploying] is true; the deploy button
    is disabled in exactly the cases where [handleDeploy] does nothing;
    and whatever happens to the page, whenever it shows the engine the
    prompt it passes has a non-empty trimmed form. *)
Theorem handleDeploy_gate (prompt : jsstring) (isDeploying : bool) :
  (∀ arg, MagicCanvas.handleDeploy prompt isDeploying = Some arg
          ↔ arg = prompt ∧ trim prompt ≠ [] ∧ isDeploying = false)
  ∧ (forallb isTrimmed prompt = true → MagicCanvas.handleDeploy prompt isDeploying = None)
  ∧ (isDeploying = true → MagicCanvas.handleDeploy prompt isDeploying = None)
  ∧ (MagicCanvas.buttonDisabled prompt isDeploying = true
     ↔ MagicCanvas.handleDeploy prompt isDeploying = None)
  ∧ (∀ events, Index.appState (Index.run events Index.initial) = Index.deploying →
       trim (Index.currentPrompt (Index.run events Index.initial)) ≠ []).
Proof.
  unfold MagicCanvas.handleDeploy, MagicCanvas.buttonDisabled.
  split; [|split; [|split; [|split]]].
  - intros arg. destruct (trim prompt) eqn:Ht, isDeploying; simpl;
      (split; [intros [= <-]|intros (-> & ? & ?)]); done.
  - intros Hb. apply trim_blank in Hb. by rewrite Hb.
  - intros ->. by rewrite andb_false_r.
  - by destruct (trim prompt), isDeploying.
  - apply Index_deploying_prompt.
Qed.

Example handleDeploy_blank :
  MagicCanvas.handleDeploy [32; 9; 10; 0x3000]%N false = None
  ∧ MagicCanvas.handleDeploy [32; 65; 32]%N false = Some [32; 65; 32]%N
  ∧ MagicCanvas.handleDeploy [65]%N true = None.
Proof. by vm_compute. Qed.

(** ** One run of the engine *)

Lemma stepId_inj i j : stepId i = stepId j → i = j.
Proof.
  unfold stepId. intros H. injection H as H.
  change (pretty i = pretty j) in H. by apply (inj pretty) in H.
Qed.

Lemma untimed_markCompleted entryId prev :
  untimed <$> markCompleted entryId prev = markCompleted entryId (untimed <$> prev).
Proof.
  unfold markCompleted. rewrite <- !list_fmap_compose.
  apply list_fmap_ext. intros _ log _. simpl.
  by case_bool_decide.
Qed.

Section OneRun.
Variable catalog : list Step.t.
Variable h : Handler.

Lemma settled_all_completed k :
  Forall (λ log, LogEntry.status log = completed) (settled catalog k).
Proof.
  unfold settled. apply Forall_lookup_2. intros i log.
  rewrite list_lookup_imap. destruct (take k catalog !! i); by intros [= <-].
Qed.

Lemma settled_S k step :
  catalog !! k = Some step →
  settled catalog (S k) = settled catalog k ++ [entryOf k step completed 0].
Proof.
  intros Hk. unfold settled. rewrite (take_S_r _ _ _ Hk), imap_app. simpl.
  rewrite length_take_le, Nat.add_0_r; [done|].
  apply lookup_lt_Some in Hk. lia.
Qed.

Lemma settled_length k : k ≤ length catalog → length (settled catalog k) = k.
Proof. intros Hk. unfold settled. rewrite length_imap, length_take_le; lia. Qed.

Lemma settled_lookup k i step :
  i < k → catalog !! i = Some step →
  settled catalog k !! i = Some (entryOf i step completed 0).
Proof.
  intros Hi Hs. unfold settled.
  by rewrite list_lookup_imap, lookup_take_lt, Hs.
Qed.

Lemma mark_running k step :
  catalog !! k = Some step →
  markCompleted (stepId k) (settled catalog k ++ [entryOf k step running 0])
  = settled catalog (S k).
Proof.
  intros Hk. rewrite markCompleted_app, (settled_S _ _ Hk).
  rewrite markCompleted_settled by apply settled_all_completed.
  f_equal. unfold markCompleted. simpl. by rewrite bool_decide_eq_true_2.
Qed.

Lemma ordered_snoc_marked tr t r entryId :
  ordered catalog tr → ordered catalog (tr ++ [occ t r (Marked entryId)]).
Proof.
  intros [Ha Hc]. split.
  - intros pos t0 r0 e i Hpos Hid.
    apply lookup_app_Some in Hpos as [Hpos|[_ Hpos]].
    + destruct (Ha _ _ _ _ _ Hpos Hid) as (q & t' & ? & ? & Hq).
      exists q, t'. repeat split; [done..|]. by apply lookup_app_l_Some.
    + by destruct (pos - length tr) as [|[|]].
  - intros pos t0 r0 h' res i Hpos Hn.
    apply lookup_app_Some in Hpos as [Hpos|[_ Hpos]].
    + destruct (Hc _ _ _ _ _ _ Hpos Hn) as (q & t' & ? & ? & Hq).
      exists q, t'. repeat split; [done..|]. by apply lookup_app_l_Some.
    + by destruct (pos - length tr) as [|[|]].
Qed.

Lemma ordered_snoc_appended tr t r e :
  ordered catalog tr →
  (∀ i, LogEntry.id e = stepId (S i) →
     ∃ pos' t', (t' < t)%Z ∧ tr !! pos' = Some (occ t' r (Marked (stepId i)))) →
  ordered catalog (tr ++ [occ t r (Appended e)]).
Proof.
  intros [Ha Hc] Hnew. split.
  - intros pos t0 r0 e0 i Hpos Hid.
    apply lookup_app_Some in Hpos as [Hpos|[Hge Hpos]].
    + destruct (Ha _ _ _ _ _ Hpos Hid) as (q & t' & ? & ? & Hq).
      exists q, t'. repeat split; [done..|]. by apply lookup_app_l_Some.
    + destruct (pos - length tr) as [|[|]] eqn:E; [|done..].
      injection Hpos as -> -> ->.
      destruct (Hnew _ Hid) as (q & t' & ? & Hq).
      exists q, t'. split; [|split; [done|by apply lookup_app_l_Some]].
      apply lookup_lt_Some in Hq. lia.
  - intros pos t0 r0 h' res i Hpos Hn.
    apply lookup_app_Some in Hpos as [Hpos|[_ Hpos]].
    + destruct (Hc _ _ _ _ _ _ Hpos Hn) as (q & t' & ? & ? & Hq).
      exists q, t'. repeat split; [done..|]. by apply lookup_app_l_Some.
    + by destruct (pos - length tr) as [|[|]].
Qed.

Lemma ordered_snoc_called tr t r h' res :
  ordered catalog tr →
  (∀ i, S i = length catalog →
     ∃ pos' t', (t' < t)%Z ∧ tr !! pos' = Some (occ t' r (Marked (stepId i)))) →
  ordered catalog (tr ++ [occ t r (Called h' res)]).
Proof.
  intros [Ha Hc] Hnew. split.
  - intros pos t0 r0 e0 i Hpos Hid.
    apply lookup_app_Some in Hpos as [Hpos|[_ Hpos]].
    + destruct (Ha _ _ _ _ _ Hpos Hid) as (q & t' & ? & ? & Hq).
      exists q, t'. repeat split; [done..|]. by apply lookup_app_l_Some.
    + by destruct (pos - length tr) as [|[|]].
  - intros pos t0 r0 h0 res0 i Hpos Hn.
    apply lookup_app_Some in Hpos as [Hpos|[Hge Hpos]].
    + destruct (Hc _ _ _ _ _ _ Hpos Hn) as (q & t' & ? & ? & Hq).
      exists q, t'. repeat split; [done..|]. by apply lookup_app_l_Some.
    + destruct (pos - length tr) as [|[|]] eqn:E; [|done..].
      injection Hpos as -> -> -> ->.
      destruct (Hnew _ Hn) as (q & t' & ? & Hq).
      exists q, t'. split; [|split; [done|by apply lookup_app_l_Some]].
      apply lookup_lt_Some in Hq. lia.
Qed.

(** Activation of a freshly mounted component starts the run. *)
Lemma activation_inv t0 props :
  isActive props = true → onComplete props = h → (0 ≤ t0)%Z →
  ∃ s, step catalog (Render t0 props) mounted = Some s ∧ run_inv catalog h 0 s
       ∧ currentStep s = 0 ∧ stepIndexOf 0 s = 0.
Proof.
  intros Hact Hh Ht0. unfold step. simpl.
  rewrite bool_decide_eq_true_2 by done. eexists. split; [done|].
  unfold render, effect. simpl. rewrite Hact, Hh. simpl.
  unfold processStep. simpl.
  case_bool_decide as Hlen.
  - assert (length catalog = 0) as Hz by lia.
    split; [|done]. split; [|split; [done|]].
    + eapply phase_finishing; simpl; rewrite ?Hz; try done; intros; lia.
    + split; intros pos ?????; simpl; destruct pos as [|[|]]; done.
  - destruct (catalog !! 0) as [step|] eqn:Hstep.
    2:{ apply lookup_ge_None in Hstep. lia. }
    split; [|done]. split; [|split; [done|]].
    + by eapply (phase_running _ _ _ _ 0 step).
    + simpl. apply (ordered_snoc_appended [_]).
      * split; intros pos ?????; destruct pos as [|[|]]; done.
      * simpl. intros i Hi. by apply stepId_inj in Hi.
Qed.

(** One event of the run: the phase advances by one for a timer and
    stays for a render; once [stepIndex] has reached the end of the
    catalog the log is not touched any more. *)
Lemma step_inv f e s s' :
  run_inv catalog h f s →
  keepsDeps (true, h) e = true →
  step catalog e s = Some s' →
  run_inv catalog h (f + firings [e]) s'
  ∧ (length catalog ≤ stepIndexOf 0 s → logs s' = logs s).
Proof.
  destruct s as [lg cur cls tms ck tr dp].
  intros (Hph & Hd & Ho) Hkeep Hstep. simpl in Hd. subst dp.
  destruct e as [t props|k t]; simpl in Hkeep, Hstep.
  - (* a render with the same dependencies *)
    apply bool_decide_eq_true_1 in Hkeep.
    case_bool_decide; [|done]. injection Hstep as <-.
    unfold render. simpl. rewrite Hkeep, bool_decide_eq_true_2 by done.
    split; [|done]. rewrite Nat.add_0_r. split; [|done].
    destruct Hph; [eapply phase_running|eapply phase_settling
                  |eapply phase_finishing|eapply phase_finished]; eauto.
  - destruct Hph as [i st d Hf Hst Hlg Hcur Hcls Htms Hcalls
                    |i d pos tm Hf Hi Hlg Hcur Hcls Htms Hcalls Hpos Htm
                    |d Hf Hlg Hcur Hcls Htms Hcalls Hlast
                    |Hf Hlg Hcur Hcls Htms Hcalls];
      unfold calls in Hcalls; simpl in *; subst cls tms;
      (destruct k as [|k]; [|done]); simpl in Hstep;
      try done; case_bool_decide as Ht; [|done| |done| |done];
      injection Hstep as <-; simpl.
    + (* the duration of step [i] has elapsed *)
      split.
      2:{ unfold stepIndexOf. simpl. intros Hge.
          apply lookup_lt_Some in Hst. lia. }
      split; [|split; [done|by apply ordered_snoc_marked]].
      eapply (phase_settling _ _ _ _ i _ (length tr) t); simpl.
      * lia.
      * by eapply lookup_lt_Some.
      * by rewrite untimed_markCompleted, Hlg, mark_running.
      * done.
      * done.
      * done.
      * unfold calls. simpl. by rewrite omap_app, Hcalls.
      * by rewrite lookup_app_r, Nat.sub_diag.
      * lia.
    + (* the pause after step [i] has elapsed *)
      unfold processStep. simpl. case_bool_decide as Hend.
      * assert (S i = length catalog) as HN by lia.
        split; [|done]. split; [|done].
        eapply phase_finishing; simpl; rewrite <- ?HN; try done; [lia|].
        intros j Hj. exists pos, tm. assert (j = i) as -> by lia.
        split; [done|lia].
      * destruct (catalog !! S i) as [st|] eqn:Hst.
        2:{ apply lookup_ge_None in Hst. lia. }
        split; [|unfold stepIndexOf; simpl; lia].
        split; [|split; [done|]]; simpl.
        -- eapply (phase_running _ _ _ _ (S i) st); simpl; try done; [lia| |].
           ++ by rewrite fmap_app, Hlg.
           ++ unfold calls. simpl. by rewrite omap_app, Hcalls.
        -- apply ordered_snoc_appended; [done|]. simpl.
           intros j Hj. apply stepId_inj in Hj. injection Hj as ->.
           exists pos, tm. split; [lia|done].
    + (* the delay before the callback has elapsed *)
      split; [|done]. split; [|split; [done|]]; simpl.
      * eapply phase_finished; simpl; try done; [lia|].
        unfold calls. simpl. by rewrite omap_app, Hcalls.
      * apply ordered_snoc_called; [done|].
        intros j Hj. destruct (Hlast j Hj) as (pos & tm & Hpos & Htm).
        exists pos, tm. split; [lia|done].
Qed.

Lemma phase_indices f s :
  phase catalog h s f →
  currentStep s = (f / 2) `min` pred (length catalog)
  ∧ stepIndexOf 0 s = ((f + 1) / 2) `min` length catalog.
Proof.
  unfold stepIndexOf.
  intros [i st d -> Hst _ -> -> _ _|i d pos t -> Hi _ -> -> _ _ _ _
         |d -> _ -> -> _ _ _| -> _ -> -> _ _]; cbn -[Nat.div Nat.mul Nat.min];
    try apply lookup_lt_Some in Hst; lia.
Qed.

Lemma untimed_entryOf log i step st :
  untimed log = entryOf i step st 0 →
  log = entryOf i step st (LogEntry.timestamp log) ∧ LogEntry.status log = st.
Proof. destruct log. unfold untimed, entryOf. simpl. by intros [= -> -> -> -> ->]. Qed.

(** The log in a phase: entry [k] is the entry of step [k]; it is
    completed, or running while step [k] is; the entries are those of
    the steps started so far. *)
Lemma phase_logs f s :
  phase catalog h s f →
  length (logs s) = (f / 2 + 1) `min` length catalog
  ∧ ∀ k log, logs s !! k = Some log →
      ∃ step, catalog !! k = Some step
              ∧ log = entryOf k step (LogEntry.status log) (LogEntry.timestamp log)
              ∧ (LogEntry.status log = completed
                 ∨ LogEntry.status log = running ∧ f = 2 * k).
Proof.
  intros Hph.
  assert (∃ k0, k0 ≤ length catalog ∧
            (untimed <$> logs s = settled catalog k0 ∧ (f / 2 + 1) `min` length catalog = k0
             ∨ ∃ step, catalog !! k0 = Some step ∧ f = 2 * k0
                ∧ untimed <$> logs s = settled catalog k0 ++ [entryOf k0 step running 0]))
    as (k0 & Hk0 & Hcase).
  { destruct Hph as [i st d -> Hst Hlg _ _ _ _|i d pos t -> Hi Hlg _ _ _ _ _ _
                    |d -> Hlg _ _ _ _ _| -> Hlg _ _ _ _].
    - exists i. split; [apply lookup_lt_Some in Hst; lia|]. right. by exists st.
    - exists (S i). split; [lia|]. left. split; [done|lia].
    - exists (length catalog). split; [lia|]. left. split; [done|lia].
    - exists (length catalog). split; [lia|]. left. split; [done|lia]. }
  assert (∀ k log, k < k0 → logs s !! k = Some log →
            settled catalog k0 !! k = Some (untimed log) →
            ∃ step, catalog !! k = Some step
              ∧ log = entryOf k step (LogEntry.status log) (LogEntry.timestamp log)
              ∧ LogEntry.status log = completed) as Hsettled.
  { intros k log Hk Hlog Hs.
    destruct (catalog !! k) as [step|] eqn:Hstep.
    2:{ apply lookup_ge_None in Hstep. lia. }
    rewrite (settled_lookup _ _ _ Hk Hstep) in Hs. apply (inj Some) in Hs.
    symmetry in Hs. apply untimed_entryOf in Hs as [Hs Hstat].
    exists step. rewrite Hstat. auto. }
  destruct Hcase as [[Hlg Hlen]|(step & Hstep & -> & Hlg)].
  - split.
    + rewrite <- (length_fmap untimed), Hlg, settled_length; lia.
    + intros k log Hlog.
      assert (k < k0) as Hk.
      { apply lookup_lt_Some in Hlog.
        rewrite <- (length_fmap untimed), Hlg, settled_length in Hlog; lia. }
      destruct (Hsettled k log Hk Hlog) as (st & ? & ? & ?).
      { by rewrite <- Hlg, list_lookup_fmap, Hlog. }
      exists st. auto.
  - apply lookup_lt_Some in Hstep as Hlt. split.
    + rewrite <- (length_fmap untimed), Hlg, length_app, settled_length by lia.
      cbn [length]. lia.
    + intros k log Hlog.
      assert ((untimed <$> logs s) !! k = Some (untimed log)) as Hu
        by by rewrite list_lookup_fmap, Hlog.
      rewrite Hlg in Hu. apply lookup_app_Some in Hu as [Hu|[Hge Hu]].
      * apply lookup_lt_Some in Hu as Hk. rewrite settled_length in Hk by lia.
        destruct (Hsettled k log Hk Hlog Hu) as (st & ? & ? & ?).
        exists st. auto.
      * rewrite settled_length in Hge, Hu by lia.
        destruct (k - k0) as [|?] eqn:E; [|done].
        assert (k = k0) as -> by lia.
        apply (inj Some) in Hu. symmetry in Hu.
        apply untimed_entryOf in Hu as [Hu Hstat].
        exists step. rewrite Hstat. auto.
Qed.

Lemma exec_inv sched : ∀ f s s',
  run_inv catalog h f s →
  forallb (keepsDeps (true, h)) sched = true →
  exec catalog sched s = Some s' →
  run_inv catalog h (f + firings sched) s'
  ∧ (length catalog ≤ stepIndexOf 0 s → logs s' = logs s).
Proof.
  induction sched as [|e sched IH]; intros f s s' Hinv Hkeep Hexec;
    simpl in Hkeep, Hexec.
  - injection Hexec as <-. simpl. by rewrite Nat.add_0_r.
  - apply andb_prop in Hkeep as [He Hkeep].
    destruct (step catalog e s) as [s1|] eqn:Hstep; [|done]. simpl in Hexec.
    destruct (step_inv _ _ _ _ Hinv He Hstep) as [Hinv1 Hfr1].
    destruct (IH _ _ _ Hinv1 Hkeep Hexec) as [Hinv' Hfr'].
    split.
    + replace (f + firings (e :: sched)) with (f + firings [e] + firings sched);
        [done|]. destruct e; simpl; lia.
    + intros Hge. rewrite Hfr', Hfr1; [done..|].
      destruct Hinv as [Hph _], Hinv1 as [Hph1 _].
      apply phase_indices in Hph as [_ Hix], Hph1 as [_ Hix1].
      rewrite Hix in Hge. rewrite Hix1.
      assert ((f + 1) / 2 ≤ (f + firings [e] + 1) / 2); [|lia].
      apply Nat.Div0.div_le_mono. lia.
Qed.

(** The punctual environment always has a timer to fire until the
    callback is made. *)
Lemma tick_inv f s :
  run_inv catalog h f s → f ≤ 2 * length catalog →
  ∃ k t s', tick catalog s = Some s' ∧ step catalog (Fire k t) s = Some s'
            ∧ run_inv catalog h (S f) s'.
Proof.
  intros Hinv Hf.
  assert (∃ tm, timers s = [tm]) as [tm Htm].
  { destruct Hinv as [[] _]; eauto. lia. }
  assert (step catalog (Fire 0 (clock s `max` due tm)%Z) s
          = Some (runCallback catalog (callback tm)
                    (setClock (clock s `max` due tm)%Z (setTimers (delete 0) s)))) as Hstep.
  { unfold step. rewrite Htm. simpl. rewrite bool_decide_eq_true_2; [done|lia]. }
  exists 0, (clock s `max` due tm)%Z. eexists. split; [|split; [exact Hstep|]].
  - unfold tick, nextFire. rewrite Htm. simpl. exact Hstep.
  - replace (S f) with (f + firings [Fire 0 (clock s `max` due tm)%Z]) by (simpl; lia).
    by eapply step_inv.
Qed.

Lemma ticks_inv n : ∀ f s,
  run_inv catalog h f s → f + n ≤ 2 * length catalog + 1 →
  ∃ sched s', ticks catalog n s = Some s' ∧ exec catalog sched s = Some s'
              ∧ forallb (keepsDeps (true, h)) sched = true
              ∧ firings sched = n
              ∧ run_inv catalog h (f + n) s'.
Proof.
  induction n as [|n IH]; intros f s Hinv Hf.
  - exists [], s. by rewrite Nat.add_0_r.
  - destruct (tick_inv f s Hinv) as (k & t & s1 & Htick & Hstep & Hinv1); [lia|].
    destruct (IH (S f) s1 Hinv1) as (sched & s' & Hticks & Hexec & Hkeep & Hfire & Hinv');
      [lia|].
    exists (Fire k t :: sched), s'. split; [|split; [|split; [|split]]].
    + change (tick catalog s ≫= ticks catalog n = Some s'). by rewrite Htick.
    + change (step catalog (Fire k t) s ≫= exec catalog sched = Some s').
      by rewrite Hstep.
    + done.
    + simpl. lia.
    + by replace (f + S n) with (S f + n) by lia.
Qed.
End OneRun.

(** ** Any execution, with any number of runs *)

Lemma filter_delete_length {A} (P : A → Prop) `{∀ x, Decision (P x)} (l : list A) k x :
  l !! k = Some x →
  length (filter P (delete k l)) + (if decide (P x) then 1 else 0) = length (filter P l).
Proof.
  revert k. induction l as [|y l IH]; intros k Hk; [done|].
  destruct k as [|k]; simpl in Hk.
  - injection Hk as ->. simpl. rewrite filter_cons.
    destruct (decide (P x)); simpl; lia.
  - simpl. rewrite !filter_cons. specialize (IH k Hk).
    destruct (decide (P y)); simpl; lia.
Qed.

Lemma filter_snoc_length {A} (P : A → Prop) `{∀ x, Decision (P x)} (l : list A) x :
  length (filter P (l ++ [x])) = length (filter P l) + (if decide (P x) then 1 else 0).
Proof.
  rewrite filter_app, length_app, filter_cons. simpl.
  by destruct (decide (P x)).
Qed.

Lemma filter_length_zero {A} (P : A → Prop) `{∀ x, Decision (P x)} (l : list A) x :
  length (filter P l) = 0 → x ∈ l → ¬ P x.
Proof.
  intros Hz Hin HP.
  assert (x ∈ filter P l) as Hx by by apply list_elem_of_filter.
  destruct (filter P l); [by apply elem_of_nil in Hx|done].
Qed.

Section AnyExecutionFacts.
Variable catalog : list Step.t.

Lemma ordered_snoc_cleared tr t r :
  ordered catalog tr → ordered catalog (tr ++ [occ t r Cleared]).
Proof.
  intros [Ha Hc]. split.
  - intros pos t0 r0 e i Hpos Hid.
    apply lookup_app_Some in Hpos as [Hpos|[_ Hpos]].
    + destruct (Ha _ _ _ _ _ Hpos Hid) as (q & t' & ? & ? & Hq).
      exists q, t'. repeat split; [done..|]. by apply lookup_app_l_Some.
    + by destruct (pos - length tr) as [|[|]].
  - intros pos t0 r0 h' res i Hpos Hn.
    apply lookup_app_Some in Hpos as [Hpos|[_ Hpos]].
    + destruct (Hc _ _ _ _ _ _ Hpos Hn) as (q & t' & ? & ? & Hq).
      exists q, t'. repeat split; [done..|]. by apply lookup_app_l_Some.
    + by destruct (pos - length tr) as [|[|]].
Qed.

(** A fact about a timer survives whatever keeps the closure of its run
    and extends the trace. *)
Lemma timer_fact_mono s s' tm :
  (∀ c, closures s !! timerRun tm = Some c → closures s' !! timerRun tm = Some c) →
  (∀ pos o, trace s !! pos = Some o → trace s' !! pos = Some o) →
  timer_fact catalog s tm → timer_fact catalog s' tm.
Proof.
  unfold timer_fact, timerRun. intros Hcl Htr.
  destruct (callback tm) as [run entryId|run|run].
  - intros (c & Hc & ?). exists c. split; [by apply Hcl|done].
  - intros (c & i & pos & t & Hc & ? & ? & Hpos & ?).
    exists c, i, pos, t. repeat split; [by apply Hcl|done..|by apply Htr|done].
  - intros Hw i Hi. destruct (Hw i Hi) as (pos & t & Hpos & ?).
    exists pos, t. split; [by apply Htr|done].
Qed.

(** [processStep] of a run that has no timer outstanding and has made
    no call leaves it with one timer. *)
Lemma processStep_any run c s :
  closures s !! run = Some c →
  stepIndex c ≤ length catalog →
  (∀ i, stepIndex c = S i →
     ∃ pos t, trace s !! pos = Some (occ t run (Marked (stepId i))) ∧ (t < clock s)%Z) →
  (∀ r, pendingOf r s + callsBy r s + (if bool_decide (r = run) then 1 else 0)
        = if bool_decide (r < length (closures s)) then 1 else 0) →
  (∀ k tm, timers s !! k = Some tm → timer_fact catalog s tm) →
  ordered catalog (trace s) →
  any_inv catalog (processStep catalog run s).
Proof.
  intros Hc Hle Hprev Hcount Hfacts Hord. unfold processStep. rewrite Hc.
  case_bool_decide as Hend.
  - split; [|split; [|done]].
    + intros r. specialize (Hcount r). unfold pendingOf, callsBy in *. simpl.
      rewrite filter_snoc_length.
      destruct (decide (timerRun _ = r)) as [Hr|Hr]; unfold timerRun in Hr; simpl in Hr;
        repeat case_bool_decide; lia.
    + intros k tm Hk. simpl in Hk.
      apply lookup_app_Some in Hk as [Hk|[_ Hk]].
      * eapply timer_fact_mono; [| |by eapply Hfacts]; done.
      * destruct (k - length (timers s)) as [|[|]]; [|done..].
        injection Hk as <-. unfold timer_fact. simpl.
        intros i Hi. destruct (Hprev i) as (pos & t & Hpos & Ht); [lia|].
        exists pos, t. split; [done|lia].
  - destruct (catalog !! stepIndex c) as [step|] eqn:Hstep.
    2:{ apply lookup_ge_None in Hstep. lia. }
    split; [|split].
    + intros r. specialize (Hcount r). unfold pendingOf, callsBy in *. simpl.
      rewrite !filter_snoc_length.
      rewrite (decide_False (P := _ ∧ _)) by (intros [_ ?]; done).
      destruct (decide (timerRun _ = r)) as [Hr|Hr]; unfold timerRun in Hr; simpl in Hr;
        repeat case_bool_decide; lia.
    + intros k tm Hk. simpl in Hk.
      apply lookup_app_Some in Hk as [Hk|[_ Hk]].
      * eapply timer_fact_mono; [| |by eapply Hfacts]; [done|].
        intros pos o Hpos. simpl. by apply lookup_app_l_Some.
      * destruct (k - length (timers s)) as [|[|]]; [|done..].
        injection Hk as <-. unfold timer_fact. simpl.
        exists c. split; [done|]. split; [lia|done].
    + simpl. apply ordered_snoc_appended; [done|]. simpl.
      intros i Hi. apply stepId_inj in Hi.
      destruct (Hprev i Hi) as (pos & t & Hpos & Ht). by exists pos, t.
Qed.
End AnyExecutionFacts.

Section AnyExecutionSteps.
Variable catalog : list Step.t.

Lemma any_inv_frame s s' :
  closures s' = closures s → timers s' = timers s → trace s' = trace s →
  any_inv catalog s → any_inv catalog s'.
Proof.
  intros Hcl Htm Htr (Hcount & Hfacts & Hord).
  unfold any_inv, pendingOf, callsBy. rewrite Hcl, Htm, Htr.
  split; [done|split; [|done]].
  intros k tm Hk. eapply timer_fact_mono; [| |by eapply Hfacts].
  - by rewrite Hcl.
  - by rewrite Htr.
Qed.

(** The timer that fires is the only one of its run, and its run has
    made no call. *)
Lemma fired_timer s k tm :
  any_inv catalog s → timers s !! k = Some tm →
  timerRun tm < length (closures s)
  ∧ (∀ r, length (filter (λ tm', timerRun tm' = r) (delete k (timers s))) + callsBy r s
          + (if bool_decide (r = timerRun tm) then 1 else 0)
          = if bool_decide (r < length (closures s)) then 1 else 0)
  ∧ (∀ j tm', delete k (timers s) !! j = Some tm' →
       timerRun tm' ≠ timerRun tm ∧ timer_fact catalog s tm').
Proof.
  intros (Hcount & Hfacts & _) Hk.
  assert (∀ r, length (filter (λ tm', timerRun tm' = r) (delete k (timers s)))
               + (if bool_decide (r = timerRun tm) then 1 else 0) = pendingOf r s) as Hdel.
  { intros r. unfold pendingOf.
    rewrite <- (filter_delete_length (λ tm', timerRun tm' = r) _ _ _ Hk).
    destruct (decide (timerRun tm = r)); case_bool_decide; congruence || lia. }
  split; [|split].
  - specialize (Hcount (timerRun tm)). specialize (Hdel (timerRun tm)).
    rewrite bool_decide_eq_true_2 in Hdel by done.
    case_bool_decide; [done|lia].
  - intros r. specialize (Hcount r). specialize (Hdel r). lia.
  - intros j tm' Hj.
    assert (tm' ∈ delete k (timers s)) as Hin by (apply list_elem_of_lookup; eauto).
    split.
    + apply (filter_length_zero (λ tm', timerRun tm' = timerRun tm)
               (delete k (timers s))); [|done].
      specialize (Hcount (timerRun tm)). specialize (Hdel (timerRun tm)).
      rewrite bool_decide_eq_true_2 in Hdel by done.
      case_bool_decide; lia.
    + apply list_elem_of_delete_inv, list_elem_of_lookup in Hin as [j' Hj'].
      by eapply Hfacts.
Qed.

Lemma step_any e s s' :
  any_inv catalog s → step catalog e s = Some s' → any_inv catalog s'.
Proof.
  intros Hinv Hstep. destruct e as [t props|k t]; simpl in Hstep.
  - case_bool_decide; [|done]. injection Hstep as <-.
    unfold render. case_bool_decide; [by eapply any_inv_frame|].
    unfold effect. destruct (isActive props); simpl; [|by eapply any_inv_frame].
    destruct Hinv as (Hcount & Hfacts & Hord).
    eapply (processStep_any _ _ (mkClosure 0 (onComplete props))); simpl.
    + by rewrite lookup_app_r, Nat.sub_diag.
    + lia.
    + done.
    + intros r. specialize (Hcount r). unfold pendingOf, callsBy in *. simpl.
      rewrite filter_snoc_length, length_app. simpl.
      rewrite (decide_False (P := _ ∧ _)) by (intros [_ ?]; done).
      repeat case_bool_decide; lia.
    + intros k tm Hk. eapply timer_fact_mono; [| |by eapply Hfacts]; simpl.
      * intros c. apply lookup_app_l_Some.
      * intros pos o. apply lookup_app_l_Some.
    + by apply ordered_snoc_cleared.
  - destruct (timers s !! k) as [tm|] eqn:Hk; [|done].
    case_bool_decide as Ht; [|done]. injection Hstep as <-.
    destruct (fired_timer s k tm Hinv Hk) as (Hrun & Hcount & Hothers).
    destruct Hinv as (_ & Hfacts & Hord).
    pose proof (Hfacts k tm Hk) as Hfact.
    unfold timer_fact in Hfact.
    destruct tm as [d [run entryId|run|run]];
      change (timerRun (mkTimer d _)) with run in *; simpl in *.
    + (* the duration of a step has elapsed *)
      destruct Hfact as (c & Hc & Hlt & ->).
      split; [|split].
      * intros r. specialize (Hcount r). unfold pendingOf, callsBy in *. simpl.
        rewrite !filter_snoc_length, length_alter.
        rewrite (decide_False (P := _ ∧ _)) by (intros [_ ?]; done).
        destruct (decide (timerRun _ = r)) as [Hr|Hr]; unfold timerRun in Hr; simpl in Hr;
          repeat case_bool_decide; lia.
      * intros j tm' Hj. simpl in Hj.
        apply lookup_app_Some in Hj as [Hj|[_ Hj]].
        -- destruct (Hothers j tm' Hj) as [Hne Hf].
           eapply timer_fact_mono; [| |exact Hf]; simpl.
           ++ intros c'. by rewrite list_lookup_alter_ne.
           ++ intros pos o. apply lookup_app_l_Some.
        -- destruct (j - length (delete k (timers s))) as [|[|]]; [|done..].
           injection Hj as <-. unfold timer_fact. simpl.
           exists (mkClosure (S (stepIndex c)) (closedOnComplete c)), (stepIndex c),
             (length (trace s)), t.
           split; [by rewrite list_lookup_alter_eq, Hc|].
           split; [done|]. split; [lia|].
           split; [by rewrite lookup_app_r, Nat.sub_diag|lia].
      * by apply ordered_snoc_marked.
    + (* the pause after a step has elapsed *)
      destruct Hfact as (c & i & pos & t' & Hc & Hix & Hle & Hpos & Ht').
      eapply (processStep_any _ _ c); simpl; try done.
      * lia.
      * intros i' Hi'. exists pos, t'. assert (i' = i) as -> by lia.
        split; [done|lia].
      * intros j tm' Hj. destruct (Hothers j tm' Hj) as [_ Hf].
        by eapply timer_fact_mono; [| |exact Hf].
    + (* the delay before the callback has elapsed *)
      destruct (closures s !! run) as [c|] eqn:Hc.
      2:{ apply lookup_ge_None in Hc. lia. }
      split; [|split]; simpl.
      * intros r. specialize (Hcount r). unfold pendingOf, callsBy in *. simpl.
        rewrite filter_snoc_length.
        destruct (decide (by_run _ = r ∧ _)) as [[Hr _]|Hr]; simpl in Hr;
          repeat case_bool_decide; try lia.
        exfalso. apply Hr. by split.
      * intros j tm' Hj. destruct (Hothers j tm' Hj) as [_ Hf].
        eapply timer_fact_mono; [| |exact Hf]; simpl; [done|].
        intros pos o. apply lookup_app_l_Some.
      * apply ordered_snoc_called; [done|].
        intros i Hi. destruct (Hfact i Hi) as (pos & t' & Hpos & Ht').
        exists pos, t'. split; [lia|done].
Qed.

Lemma exec_any sched : ∀ s s',
  any_inv catalog s → exec catalog sched s = Some s' → any_inv catalog s'.
Proof.
  induction sched as [|e sched IH]; intros s s' Hinv Hexec; simpl in Hexec.
  - by injection Hexec as <-.
  - destruct (step catalog e s) as [s1|] eqn:Hstep; [|done].
    eapply IH; [|done]. by eapply step_any.
Qed.

Lemma mounted_any : any_inv catalog mounted.
Proof.
  split; [|split].
  - intros r. by destruct r.
  - intros k tm Hk. by destruct k.
  - split; intros pos; intros; by destruct pos.
Qed.
End AnyExecutionSteps.

(** What any event adds to the trace and does to the statuses, in a run
    or not. *)
Lemma markCompleted_twoState entryId prev :
  Forall twoState prev → Forall twoState (markCompleted entryId prev).
Proof.
  unfold markCompleted. intros H. apply Forall_fmap.
  eapply Forall_impl; [exact H|]. intros log Hlog. simpl.
  case_bool_decide; [by right|done].
Qed.

Lemma processStep_lawful catalog run s :
  Forall lawful (trace s) → Forall twoState (logs s) →
  Forall lawful (trace (processStep catalog run s))
  ∧ Forall twoState (logs (processStep catalog run s)).
Proof.
  intros Htr Hlg. unfold processStep.
  destruct (closures s !! run) as [c|]; [|done].
  case_bool_decide; [done|].
  destruct (catalog !! stepIndex c) as [step|]; [|done]. simpl. split.
  - apply Forall_app. split; [done|]. by apply Forall_singleton.
  - apply Forall_app. split; [done|]. apply Forall_singleton. by left.
Qed.

Lemma step_lawful catalog e s s' :
  Forall lawful (trace s) → Forall twoState (logs s) →
  step catalog e s = Some s' →
  Forall lawful (trace s') ∧ Forall twoState (logs s').
Proof.
  intros Htr Hlg Hstep. destruct e as [t props|k t]; simpl in Hstep.
  - case_bool_decide; [|done]. injection Hstep as <-.
    unfold render. case_bool_decide; [done|].
    unfold effect. destruct (isActive props); simpl; [|done].
    apply processStep_lawful; simpl; [|done].
    apply Forall_app. split; [done|]. by apply Forall_singleton.
  - destruct (timers s !! k) as [tm|]; [|done].
    case_bool_decide; [|done]. injection Hstep as <-.
    destruct (callback tm) as [run entryId|run|run]; simpl.
    + split; [|by apply markCompleted_twoState].
      apply Forall_app. split; [done|]. by apply Forall_singleton.
    + by apply processStep_lawful.
    + destruct (closures s !! run) as [c|]; simpl; [|done].
      split; [|done]. apply Forall_app. split; [done|]. by apply Forall_singleton.
Qed.

Lemma exec_lawful catalog sched : ∀ s s',
  Forall lawful (trace s) → Forall twoState (logs s) →
  exec catalog sched s = Some s' →
  Forall lawful (trace s') ∧ Forall twoState (logs s').
Proof.
  induction sched as [|e sched IH]; intros s s' Htr Hlg Hexec; simpl in Hexec.
  - by injection Hexec as <-.
  - destruct (step catalog e s) as [s1|] eqn:Hstep; [|done].
    destruct (step_lawful _ _ _ _ Htr Hlg Hstep). by eapply IH.
Qed.

Lemma phase_calls catalog h f s :
  phase catalog h s f →
  (f ≤ 2 * length catalog ∧ calls s = [] ∧ ∃ tm, timers s = [tm])
  ∨ (f = 2 * length catalog + 1 ∧ calls s = [(h, completionPayload)] ∧ timers s = []).
Proof.
  intros [i st d -> Hst _ _ _ -> ->|i d pos t -> Hi _ _ _ -> -> _ _
         |d -> _ _ _ -> -> _| -> _ _ _ -> ->];
    [left|left|left|right]; try apply lookup_lt_Some in Hst; (split; [lia|eauto]).
Qed.

(** In a run the entries are completed from the first on, with at most
    a running one at the end. *)
Lemma run_log_shape catalog h f s :
  phase catalog h s f →
  (∀ k log, logs s !! k = Some log → LogEntry.status log = running →
     length (logs s) = S k
     ∧ ∀ j log', j < k → logs s !! j = Some log' → LogEntry.status log' = completed)
  ∧ (calls s ≠ [] →
     length (logs s) = length catalog
     ∧ Forall (λ log, LogEntry.status log = completed) (logs s)).
Proof.
  intros Hph. destruct (phase_logs _ _ _ _ Hph) as [Hlen Hlogs]. split.
  - intros k log Hk Hrun.
    destruct (Hlogs k log Hk) as (st & Hst & _ & [?|[_ Hf]]); [congruence|].
    apply lookup_lt_Some in Hst. split; [lia|].
    intros j log' Hj Hlog'.
    destruct (Hlogs j log' Hlog') as (_ & _ & _ & [?|[_ Hf']]); [done|lia].
  - intros Hcalls. destruct (phase_calls _ _ _ _ Hph) as [(_ & ? & _)|(Hf & _ & _)]; [done|].
    split; [lia|]. apply Forall_lookup_2. intros k log Hk.
    destruct (Hlogs k log Hk) as (st & Hst & _ & [?|[_ Hf']]); [done|].
    apply lookup_lt_Some in Hst. lia.
Qed.

(** ** The run and its guarantees *)

(** Every state of a run: activation of the mounted component, then
    timers and renders that keep the dependencies. *)
Lemma run_state catalog props t0 sched s :
  isActive props = true →
  uninterrupted props sched = true →
  exec catalog (Render t0 props :: sched) mounted = Some s →
  run_inv catalog (onComplete props) (firings sched) s.
Proof.
  intros Hact Hun Hexec. unfold uninterrupted in Hun. rewrite Hact in Hun.
  change (step catalog (Render t0 props) mounted ≫= exec catalog sched = Some s) in Hexec.
  destruct (step catalog (Render t0 props) mounted) as [s0|] eqn:Hstep; [|done].
  assert (0 ≤ t0)%Z as Ht0.
  { unfold step in Hstep. simpl in Hstep. by case_bool_decide. }
  destruct (activation_inv catalog (onComplete props) t0 props Hact eq_refl Ht0)
    as (s0' & Hstep' & Hinv & _).
  rewrite Hstep in Hstep'. injection Hstep' as <-.
  by destruct (exec_inv _ _ _ _ _ _ Hinv Hun Hexec) as [? _].
Qed.

(** The recorded schedule is the one the punctual environment follows,
    and it ends the run. *)
Example demoRun_punctual :
  ticks deploymentSteps 17 (demoRun 0) = Some (demoRun 17)
  ∧ tick deploymentSteps (demoRun 17) = None
  ∧ clock (demoRun 17) = 25500%Z.
Proof. by vm_compute. Qed.



(** The two runs of the recorded re-activation each make one call. *)
Example callsBy_reactivated :
  callsBy 0 (reactivatedRun 34) = 1 ∧ callsBy 1 (reactivatedRun 34) = 1
  ∧ pendingOf 0 (reactivatedRun 4) = 1 ∧ pendingOf 1 (reactivatedRun 4) = 1.
Proof. by vm_compute. Qed.



(** The actions of the recorded run up to the second step. *)
Example demoRun_2_actions :
  (λ o, (at_time o,
         match action o with
         | Cleared => "cleared"
         | Appended logEntry => "appended " +:+ LogEntry.id logEntry
         | Marked entryId => "marked " +:+ entryId
         | Called _ _ => "called"
         end)) <$> trace (demoRun 2)
  = [(0, "cleared"); (0, "appended step-0"); (2000, "marked step-0");
     (2500, "appended step-1")]%Z.
Proof. by vm_compute. Qed.

(** The log of the recorded run after four timers: two completed
    entries and the running one. *)
Example demoRun_4_statuses :
  LogEntry.status <$> logs (demoRun 4) = [completed; completed; running].
Proof. by vm_compute. Qed.

(** ** The prompt and the payload *)

Lemma exec_withPrompt catalog prompt' sched : ∀ s,
  exec catalog (withPrompt prompt' <$> sched) s = exec catalog sched s.
Proof.
  induction sched as [|e sched IH]; intros s; [done|].
  rewrite fmap_cons.
  change (step catalog (withPrompt prompt' e) s ≫= exec catalog (withPrompt prompt' <$> sched)
          = step catalog e s ≫= exec catalog sched).
  replace (step catalog (withPrompt prompt' e) s) with (step catalog e s)
    by by destruct e.
  destruct (step catalog e s); simpl; [apply IH|done].
Qed.

(** C6. Whatever the state, the time and the rest of the schedule,
    rendering the engine with one prompt or with another, the empty one
    included, gives the same execution: the same state (log entries with
    their order, messages, details, statuses and timestamps, timers with
    their due times, clock, trace) or the same refusal; and replacing
    the prompt of every render of a schedule changes nothing either. *)
Theorem prompt_noninterference catalog (prompt1 prompt2 : jsstring) t active h rest s :
  exec catalog (Render t (mkProps active h prompt1) :: rest) s
  = exec catalog (Render t (mkProps active h prompt2) :: rest) s
  ∧ exec catalog (Render t (mkProps active h []) :: rest) s
    = exec catalog (Render t (mkProps active h prompt2) :: rest) s
  ∧ (∀ sched, exec catalog (withPrompt prompt1 <$> sched) s
              = exec catalog (withPrompt prompt2 <$> sched) s).
Proof.
  split; [done|split; [done|]].
  intros sched. by rewrite !exec_withPrompt.
Qed.

(** The run with a long prompt is the recorded run with the empty one. *)
Example prompt_noninterference_demo :
  exec deploymentSteps
    (Render 0 (mkProps true 1 (replicate 100 65%N)) :: demoSchedule) mounted
  = Some (demoRun 17).
Proof. by vm_compute. Qed.

(** ** Re-activation *)

(** C9. Whatever the state of the component, a run in flight or not, a
    render at time [t] with [isActive] true and a changed dependency
    runs the effect again: a new run starts at step 0 with the log reset
    to the entry of the first step (to no entry for an empty catalog)
    and [currentStep] at 0, while every timer that was outstanding
    stays outstanding, ahead of the one timer of the new run, and can be
    fired once due. On [deploymentSteps], re-activated at time 100: the
    timer of the abandoned run fires at 2000 and marks the entry of the
    new run completed, before the new run's own timer, due at 2100; at
    2600 the log holds two running entries with the same id; and when
    nothing is left to fire the log holds 15 entries and [onComplete]
    has been called twice. *)
Theorem reactivation_restarts catalog s t props :
  (clock s ≤ t)%Z →
  isActive props = true →
  deps s ≠ Some (true, onComplete props) →
  (∃ s' newTimer,
      step catalog (Render t props) s = Some s'
      ∧ closures s' = closures s ++ [mkClosure 0 (onComplete props)]
      ∧ timers s' = timers s ++ [newTimer]
      ∧ currentStep s' = 0
      ∧ logs s' = match catalog !! 0 with
                  | Some step => [entryOf 0 step running t]
                  | None => []
                  end
      ∧ (∀ k tm t', timers s !! k = Some tm → (t ≤ t')%Z → (due tm ≤ t')%Z →
           is_Some (step catalog (Fire k t') s')))
  ∧ ((∃ step, deploymentSteps !! 0 = Some step
               ∧ logs (reactivatedRun 0) = [entryOf 0 step running 100])
     ∧ timers (reactivatedRun 0)
       = [mkTimer 2000 (StepElapsed 0 "step-0"); mkTimer 2100 (StepElapsed 1 "step-0")]
     ∧ clock (reactivatedRun 1) = 2000%Z
     ∧ (∃ step, deploymentSteps !! 0 = Some step
                ∧ logs (reactivatedRun 1) = [entryOf 0 step completed 100])
     ∧ timers (reactivatedRun 1)
       = [mkTimer 2100 (StepElapsed 1 "step-0"); mkTimer 2500 (NextStep 0)]
     ∧ clock (reactivatedRun 4) = 2600%Z
     ∧ LogEntry.id <$> logs (reactivatedRun 4) = ["step-0"; "step-1"; "step-1"]
     ∧ LogEntry.status <$> logs (reactivatedRun 4) = [completed; running; running]
     ∧ timers (reactivatedRun 34) = []
     ∧ length (logs (reactivatedRun 34)) = 15
     ∧ calls (reactivatedRun 34) = [(1, completionPayload); (2, completionPayload)]).
Proof.
  intros Ht Hact Hdeps. split.
  2:{ split; [by eexists|]. do 2 (split; [by vm_compute|]).
      split; [by eexists|]. by vm_compute. }
  unfold step. rewrite bool_decide_eq_true_2 by done.
  unfold render. simpl. rewrite Hact, bool_decide_eq_false_2 by done.
  unfold effect. simpl. rewrite Hact. simpl.
  unfold processStep. simpl.
  rewrite lookup_app_r, Nat.sub_diag by done. simpl.
  assert (∀ s' newTimer, timers s' = timers s ++ [newTimer] → clock s' = t →
            ∀ k tm t', timers s !! k = Some tm → (t ≤ t')%Z → (due tm ≤ t')%Z →
              is_Some (step catalog (Fire k t') s')) as Hfire.
  { intros s' newTimer Htm Hck k tm t' Hk Ht' Hdue. unfold step.
    rewrite Htm, (lookup_app_l_Some _ _ _ _ Hk), Hck.
    rewrite bool_decide_eq_true_2 by done. eauto. }
  case_bool_decide as Hlen.
  - assert (catalog !! 0 = None) as -> by (apply lookup_ge_None; lia).
    eexists _, _. do 5 (split; [done|]). by eapply Hfire.
  - destruct (catalog !! 0) as [step|] eqn:Hstep.
    2:{ apply lookup_ge_None in Hstep. lia. }
    eexists _, _. do 5 (split; [done|]). by eapply Hfire.
Qed.

Lemma reactivation_restarts_witness :
  ∃ s' newTimer,
    step deploymentSteps (Render 100 reactivationProps) (demoRun 0) = Some s'
    ∧ closures s' = closures (demoRun 0) ++ [mkClosure 0 2]
    ∧ timers s' = timers (demoRun 0) ++ [newTimer]
    ∧ currentStep s' = 0
    ∧ logs s' = match deploymentSteps !! 0 with
                | Some step => [entryOf 0 step running 100]
                | None => []
                end
    ∧ (∀ k tm t', timers (demoRun 0) !! k = Some tm → (100 ≤ t')%Z → (due tm ≤ t')%Z →
         is_Some (step deploymentSteps (Fire k t') s')).
Proof.
  apply (reactivation_restarts deploymentSteps (demoRun 0) 100 reactivationProps).
  - by vm_compute.
  - reflexivity.
  - by vm_compute.
Defined.

(** ** The view of the engine *)

Lemma high_not_low c : isHighSurrogate c = true → isLowSurrogate c = false.
Proof.
  unfold isHighSurrogate, isLowSurrogate.
  intros [_ H%N.leb_le]%andb_prop. apply andb_false_iff. left. apply N.leb_gt. lia.
Qed.

Lemma isWellFormed_app a b :
  isWellFormed a = true → isWellFormed (a ++ b) = isWellFormed b.
Proof.
  revert b. induction a as [a IH] using (induction_ltof1 _ length); unfold ltof in IH.
  intros b Ha. destruct a as [|c [|d rest]]; simpl in *; [done|..].
  - destruct (isHighSurrogate c); [done|]. destruct (isLowSurrogate c); [done|done].
  - destruct (isHighSurrogate c).
    + apply andb_prop in Ha as [-> Hr]. simpl. apply IH; [simpl; lia|done].
    + destruct (isLowSurrogate c); [done|].
      apply (IH (d :: rest)); [simpl; lia|done].
Qed.

(** In a well-formed string a high surrogate starts a pair: what comes
    before it is well formed. *)
Lemma isWellFormed_take_high s : ∀ n c,
  isWellFormed s = true → s !! n = Some c → isHighSurrogate c = true →
  isWellFormed (take n s) = true.
Proof.
  induction s as [s IH] using (induction_ltof1 _ length); unfold ltof in IH.
  intros n c Hs Hn Hc. destruct n as [|n]; [done|].
  destruct s as [|a [|b rest]]; simpl in *; [done|..].
  - by destruct n.
  - destruct (isHighSurrogate a) eqn:Ha.
    + apply andb_prop in Hs as [Hb Hr].
      destruct n as [|n]; simpl in *.
      * injection Hn as ->. apply high_not_low in Hc. congruence.
      * rewrite Hb. simpl. eapply (IH rest); [simpl; lia|done..].
    + destruct (isLowSurrogate a); [done|].
      apply (IH (b :: rest) ltac:(simpl; lia) n c Hs Hn Hc).
Qed.

(** Cutting a well-formed string anywhere but inside a pair leaves it
    well formed. *)
Lemma isWellFormed_take s : ∀ n,
  isWellFormed s = true →
  (∀ c, n ≠ 0 → s !! (n - 1) = Some c → n < length s → isHighSurrogate c = false) →
  isWellFormed (take n s) = true.
Proof.
  induction s as [s IH] using (induction_ltof1 _ length); unfold ltof in IH.
  intros n Hs Hcut. destruct n as [|n]; [done|].
  destruct s as [|a [|b rest]]; simpl in *; [done|..].
  - rewrite take_nil. destruct (isHighSurrogate a); [done|]. by destruct (isLowSurrogate a).
  - destruct (isHighSurrogate a) eqn:Ha.
    + apply andb_prop in Hs as [Hb Hr].
      destruct n as [|n]; simpl in *.
      * specialize (Hcut a). rewrite Ha in Hcut. exfalso.
        assert (true = false); [apply Hcut; (done || lia)|done].
      * rewrite Hb. simpl. apply IH; [simpl; lia|done|].
        intros c Hn0 Hc Hlt. apply (Hcut c); [lia| |lia].
        destruct n as [|n]; [done|]. simpl in *. by rewrite Nat.sub_0_r in *.
    + destruct (isLowSurrogate a); [done|].
      apply (IH (b :: rest)); [simpl; lia|done|].
      intros c Hn0 Hc Hlt. apply (Hcut c); [lia| |simpl in *; lia].
      destruct n as [|n]; [done|]. simpl in *. by rewrite Nat.sub_0_r in *.
Qed.


(** X2. The cut is made between code units: for a well-formed prompt
    the text under the header is ill formed exactly when the prompt is
    longer than 80 units and its 80th unit is the first half of a
    surrogate pair. *)
Theorem promptPreview_surrogate (prompt : jsstring) :
  isWellFormed prompt = true →
  isWellFormed (promptPreview prompt) = false
  ↔ 80 < length prompt ∧ ∃ c, prompt !! 79 = Some c ∧ isHighSurrogate c = true.
Proof.
  intros Hwf. unfold promptPreview. case_bool_decide as Hlen.
  - destruct (prompt !! 79) as [c|] eqn:Hc.
    2:{ apply lookup_ge_None in Hc. lia. }
    destruct (isHighSurrogate c) eqn:Hhigh.
    + split; [eauto|]. intros _.
      rewrite (take_S_r _ _ _ Hc), <- app_assoc.
      rewrite isWellFormed_app by by eapply isWellFormed_take_high.
      simpl. by rewrite Hhigh.
    + split; [|intros (_ & c' & [= <-] & ?); congruence].
      rewrite isWellFormed_app; [done|].
      apply isWellFormed_take; [done|]. simpl. intros c' _ Hc' _. congruence.
  - rewrite app_nil_r, take_ge by lia. split; [congruence|lia].
Qed.

Lemma promptPreview_surrogate_witness :
  isWellFormed (promptPreview (replicate 79 65%N ++ [0xD83C; 0xDF89; 66]%N)) = false
  ↔ 80 < length (replicate 79 65%N ++ [0xD83C; 0xDF89; 66]%N)
    ∧ ∃ c, (replicate 79 65%N ++ [0xD83C; 0xDF89; 66]%N) !! 79 = Some c
           ∧ isHighSurrogate c = true.
Proof.
  apply (promptPreview_surrogate (replicate 79 65%N ++ [0xD83C; 0xDF89; 66]%N)).
  by vm_compute.
Defined.

(** X4. In a run the row at position [k] has the key [step-k], so no
    two rows share a key. *)
Theorem rowKeys_distinct catalog props t0 sched s :
  isActive props = true →
  uninterrupted props sched = true →
  exec catalog (Render t0 props :: sched) mounted = Some s →
  rowKeys s = stepId <$> seq 0 (length (logs s))
  ∧ NoDup (rowKeys s).
Proof.
  intros Hact Hun Hexec.
  destruct (run_state _ _ _ _ _ Hact Hun Hexec) as (Hph & _ & _).
  destruct (phase_logs _ _ _ _ Hph) as [_ Hlogs].
  assert (rowKeys s = stepId <$> seq 0 (length (logs s))) as Hkeys.
  { unfold rowKeys. apply list_eq. intros k.
    rewrite !list_lookup_fmap.
    destruct (logs s !! k) as [log|] eqn:Hk; simpl.
    - destruct (Hlogs k log Hk) as (st & _ & -> & _).
      apply lookup_lt_Some in Hk. by rewrite lookup_seq_lt.
    - apply lookup_ge_None in Hk. by rewrite lookup_seq_ge. }
  split; [done|]. rewrite Hkeys.
  apply NoDup_fmap_2; [|apply NoDup_seq].
  intros i j. apply stepId_inj.
Qed.

Lemma rowKeys_distinct_witness :
  rowKeys (demoRun 6) = stepId <$> seq 0 (length (logs (demoRun 6)))
  ∧ NoDup (rowKeys (demoRun 6)).
Proof.
  apply (rowKeys_distinct deploymentSteps demoProps 0 (take 6 demoSchedule) (demoRun 6));
    vm_compute; reflexivity.
Defined.

(** After the recorded re-activation two rows share a key. *)
Example rowKeys_reactivated :
  rowKeys (reactivatedRun 4) = ["step-0"; "step-1"; "step-1"].
Proof. by vm_compute. Qed.

(** ** The times of a run *)

Lemma startOf_S catalog i step :
  catalog !! i = Some step →
  startOf catalog (S i) = (startOf catalog i + pace step)%Z.
Proof.
  intros Hi. unfold startOf. rewrite (take_S_r _ _ _ Hi), fmap_app, foldr_app. simpl.
  generalize (pace <$> take i catalog). intros l.
  induction l as [|x l IH]; simpl; lia.
Qed.

Lemma startOf_0 catalog : startOf catalog 0 = 0%Z.
Proof. done. Qed.

Lemma markCompleted_timestamp entryId prev k log :
  markCompleted entryId prev !! k = Some log →
  ∃ log', prev !! k = Some log' ∧ LogEntry.timestamp log' = LogEntry.timestamp log.
Proof.
  rewrite markCompleted_lookup. destruct (prev !! k) as [log'|]; [|done].
  simpl. intros [= <-]. exists log'. split; [done|]. by case_bool_decide.
Qed.

Section TimingFacts.
Variable catalog : list Step.t.
Variable h : Handler.
Variable R : Z → Z → Prop.
Variable t0 : Z.
Hypothesis R_add : ∀ a b c, R a b → R (a + c)%Z (b + c)%Z.

Lemma R_to a b a' b' : R a b → a' = a → b' = b → R a' b'.
Proof. by intros ? -> ->. Qed.

(** A timer of the run fires at a time [t] that inherits what is known
    of its due time. *)
Lemma fire_timed f k t s s' :
  run_inv catalog h f s →
  timed catalog R t0 s →
  step catalog (Fire k t) s = Some s' →
  (∀ tm a, timers s !! k = Some tm → R a (due tm) → R a t) →
  timed catalog R t0 s'.
Proof.
  destruct s as [lg cur cls tms ck tr dp].
  intros (Hph & _ & _) (Hlogs & Hmarked & Hcalled & Htimers) Hstep Hlate.
  simpl in Hstep.
  destruct Hph as [i st d Hf Hst Hlg Hcur Hcls Htms _
                  |i d pos tm Hf Hi Hlg Hcur Hcls Htms _ _ _
                  |d Hf Hlg Hcur Hcls Htms _ _
                  |Hf Hlg Hcur Hcls Htms _];
    simpl in *; subst cls tms;
    (destruct k as [|k]; [|done]); simpl in Hstep;
    try done; case_bool_decide as Ht; [|done| |done| |done];
    injection Hstep as <-;
    (assert (R (t0 + idealDue catalog (mkState lg cur _ _ ck tr dp) (mkTimer d _))%Z t) as Hnow
       by (eapply Hlate; [done|]; apply Htimers; simpl; by left));
    unfold idealDue, stepIndexOf in Hnow; simpl in Hnow.
  - (* the duration of step [i] has elapsed *)
    split; [|split; [|split]]; simpl.
    + intros k log Hk. apply markCompleted_timestamp in Hk as (log' & Hk & <-). eauto.
    + intros o j [Ho|Ho%list_elem_of_singleton]%elem_of_app Ha; [eauto|].
      subst o. simpl in *. assert (j = i) as -> by (apply stepId_inj; congruence).
      eapply R_to; [exact Hnow|lia|done].
    + intros o h' r [Ho|Ho%list_elem_of_singleton]%elem_of_app Ha; [eauto|].
      by subst o.
    + intros tm' Htm'%list_elem_of_singleton. subst tm'.
      unfold idealDue, stepIndexOf. simpl.
      eapply R_to; [exact (R_add _ _ 500 Hnow)|lia|lia].
  - (* the pause after step [i] has elapsed *)
    unfold processStep. simpl. case_bool_decide as Hend.
    + assert (S i = length catalog) as HN by lia.
      split; [|split; [|split]]; simpl; [done..|].
      intros tm' Htm'%list_elem_of_singleton. subst tm'.
      unfold idealDue, runLength. simpl. rewrite <- HN.
      eapply R_to; [exact (R_add _ _ 1000 Hnow)|lia|lia].
    + destruct (catalog !! S i) as [st|] eqn:Hst.
      2:{ apply lookup_ge_None in Hst. lia. }
      assert (length lg = S i) as Hlen.
      { rewrite <- (length_fmap untimed), Hlg. apply settled_length. lia. }
      split; [|split; [|split]]; simpl.
      * intros k log [Hk|[Hge Hk]]%lookup_app_Some; [eauto|].
        rewrite Hlen in Hge, Hk. destruct (k - S i) as [|?] eqn:E; [|done].
        injection Hk as <-. simpl. assert (k = S i) as -> by lia.
        exact Hnow.
      * intros o j [Ho|Ho%list_elem_of_singleton]%elem_of_app Ha; [eauto|]. by subst o.
      * intros o h' r [Ho|Ho%list_elem_of_singleton]%elem_of_app Ha; [eauto|]. by subst o.
      * intros tm' Htm'%list_elem_of_singleton. subst tm'.
        unfold idealDue, stepIndexOf. simpl.
        rewrite (startOf_S _ _ _ Hst). unfold pace.
        eapply R_to; [exact (R_add _ _ (0 `max` Step.duration st)%Z Hnow)|lia|lia].
  - (* the delay before the callback has elapsed *)
    split; [|split; [|split]]; simpl; [done| | |].
    + intros o j [Ho|Ho%list_elem_of_singleton]%elem_of_app Ha; [eauto|]. by subst o.
    + intros o h' r [Ho|Ho%list_elem_of_singleton]%elem_of_app Ha; [eauto|].
      subst o. done.
    + intros tm' Htm'. by apply elem_of_nil in Htm'.
Qed.
End TimingFacts.

(** A timer set by a callback is due no earlier than the callback runs. *)
Lemma fire_new_timers catalog k t s s' :
  step catalog (Fire k t) s = Some s' →
  clock s' = t
  ∧ ∀ tm, tm ∈ timers s' → tm ∈ delete k (timers s) ∨ (t ≤ due tm)%Z.
Proof.
  simpl. destruct (timers s !! k) as [tm0|]; [|done].
  case_bool_decide; [|done]. intros [= <-].
  destruct (callback tm0) as [run entryId|run|run]; simpl.
  - split; [done|]. intros tm [?| ->%list_elem_of_singleton]%elem_of_app; [by left|].
    right. simpl. lia.
  - unfold processStep. simpl. destruct (closures s !! run) as [c|]; [|by split; [|left]].
    case_bool_decide.
    + split; [done|]. intros tm [?| ->%list_elem_of_singleton]%elem_of_app; [by left|].
      right. simpl. lia.
    + destruct (catalog !! stepIndex c); [|by split; [|left]].
      split; [done|]. intros tm [?| ->%list_elem_of_singleton]%elem_of_app; [by left|].
      right. simpl. lia.
  - destruct (closures s !! run); by (split; [|left]).
Qed.

Section TimingRuns.
Variable catalog : list Step.t.

(** The activation is on time. *)
Lemma activation_timed (R : Z → Z → Prop) t0 props s :
  (∀ a, R a a) →
  isActive props = true →
  step catalog (Render t0 props) mounted = Some s →
  timed catalog R t0 s.
Proof.
  intros Hrefl Hact Hstep. unfold step in Hstep. simpl in Hstep.
  case_bool_decide; [|done]. injection Hstep as <-.
  unfold render, effect. simpl. rewrite Hact. simpl.
  unfold processStep. simpl. case_bool_decide as Hlen.
  - split; [|split; [|split]]; simpl.
    + intros k log Hk. by destruct k.
    + intros o i [Ho|Ho]%elem_of_cons Ha; [by subst o|by apply elem_of_nil in Ho].
    + intros o h r [Ho|Ho]%elem_of_cons Ha; [by subst o|by apply elem_of_nil in Ho].
    + intros tm Htm%list_elem_of_singleton. subst tm.
      unfold idealDue, runLength. simpl.
      assert (length catalog = 0) as -> by lia.
      eapply R_to; [apply (Hrefl (t0 + 1000)%Z)|..]; [|done].
      unfold startOf. simpl. lia.
  - destruct (catalog !! 0) as [st|] eqn:Hst.
    2:{ apply lookup_ge_None in Hst. lia. }
    split; [|split; [|split]]; simpl.
    + intros k log Hk. destruct k as [|[|]]; [|done..]. injection Hk as <-. simpl.
      eapply R_to; [apply (Hrefl t0)|..]; [|done]. unfold startOf. simpl. lia.
    + intros o i Ho Ha. repeat (apply elem_of_cons in Ho as [->|Ho]; [done|]).
      by apply elem_of_nil in Ho.
    + intros o h r Ho Ha. repeat (apply elem_of_cons in Ho as [->|Ho]; [done|]).
      by apply elem_of_nil in Ho.
    + intros tm Htm%list_elem_of_singleton. subst tm.
      unfold idealDue, stepIndexOf. simpl. rewrite (startOf_S _ _ _ Hst). unfold pace.
      eapply R_to; [apply (Hrefl (t0 + 0 `max` Step.duration st)%Z)|..]; [|done].
      unfold startOf. simpl. lia.
Qed.

(** No schedule gets a run ahead of its times. *)
Lemma exec_timed h t0 sched : ∀ f s s',
  run_inv catalog h f s →
  timed catalog Z.le t0 s →
  forallb (keepsDeps (true, h)) sched = true →
  exec catalog sched s = Some s' →
  timed catalog Z.le t0 s'.
Proof.
  induction sched as [|e sched IH]; intros f s s' Hinv Htimed Hkeep Hexec;
    simpl in Hkeep, Hexec.
  - by injection Hexec as <-.
  - apply andb_prop in Hkeep as [He Hkeep].
    destruct (step catalog e s) as [s1|] eqn:Hstep; [|done]. simpl in Hexec.
    destruct (step_inv _ _ _ _ _ _ Hinv He Hstep) as [Hinv1 _].
    eapply (IH _ s1); [exact Hinv1| |done..].
    destruct e as [t props|k t].
    + simpl in Hstep, He. apply bool_decide_eq_true_1 in He.
      case_bool_decide; [|done]. injection Hstep as <-.
      destruct Hinv as (_ & Hdeps & _).
      unfold render. simpl. rewrite He, Hdeps. rewrite bool_decide_eq_true_2 by done.
      exact Htimed.
    + apply (fire_timed catalog h Z.le t0 ltac:(intros; lia) f k t s s1 Hinv Htimed Hstep).
      intros tm a Hk Ha. simpl in Hstep. rewrite Hk in Hstep.
        case_bool_decide; [|done]. lia.
Qed.

(** The punctual environment keeps a run exactly on its times. *)
Lemma ticks_timed h t0 n : ∀ f s s',
  run_inv catalog h f s →
  timed catalog eq t0 s →
  (∀ tm, tm ∈ timers s → (clock s ≤ due tm)%Z) →
  ticks catalog n s = Some s' →
  timed catalog eq t0 s' ∧ ∀ tm, tm ∈ timers s' → (clock s' ≤ due tm)%Z.
Proof.
  induction n as [|n IH]; intros f s s' Hinv Htimed Hahead Hticks; simpl in Hticks.
  - by injection Hticks as <-.
  - destruct (tick catalog s) as [s1|] eqn:Htick; [|done]. simpl in Hticks.
    unfold tick, nextFire in Htick.
    destruct (earliest (timers s)) as [[k tm]|] eqn:Hearly; [|done]. simpl in Htick.
    assert (timers s = [tm] ∧ k = 0) as [Htm ->].
    { destruct Hinv as (Hph & _ & _).
      destruct (phase_calls _ _ _ _ Hph) as [(_ & _ & tm' & Htm')|(_ & _ & Htm')];
        rewrite Htm' in Hearly; simpl in Hearly; [|done].
      injection Hearly as <- <-. done. }
    assert (clock s `max` due tm = due tm)%Z as Hmax.
    { specialize (Hahead tm). rewrite Htm in Hahead.
      assert (clock s ≤ due tm)%Z by (apply Hahead; by left). lia. }
    rewrite Hmax in Htick.
    destruct (step_inv _ _ _ (Fire 0 (due tm)) _ _ Hinv eq_refl Htick) as [Hinv1 _].
    eapply (IH _ s1); [exact Hinv1| | |done].
    + apply (fire_timed catalog h eq t0 ltac:(by intros a b c ->) f 0 (due tm) s s1
               Hinv Htimed Htick).
      intros tm' a Hk ->. rewrite Htm in Hk. by injection Hk as ->.
    + destruct (fire_new_timers _ _ _ _ _ Htick) as [-> Hnew].
      intros tm' Htm'. destruct (Hnew tm' Htm') as [Hold|?]; [|done].
      rewrite Htm in Hold. by apply elem_of_nil in Hold.
Qed.
End TimingRuns.

Lemma activation_ahead catalog t0 props s :
  step catalog (Render t0 props) mounted = Some s →
  ∀ tm, tm ∈ timers s → (clock s ≤ due tm)%Z.
Proof.
  unfold step. simpl. case_bool_decide; [|done]. intros [= <-].
  unfold render, effect. simpl. destruct (isActive props); simpl.
  2:{ intros tm Htm. by apply elem_of_nil in Htm. }
  unfold processStep. simpl. case_bool_decide.
  - intros tm ->%list_elem_of_singleton. simpl. lia.
  - destruct (catalog !! 0); simpl.
    + intros tm ->%list_elem_of_singleton. simpl. lia.
    + intros tm Htm. by apply elem_of_nil in Htm.
Qed.

(** X6. When every timer fires exactly when it is due the run is
    exactly on its times: the entry of step [i] is created the
    durations of the steps before it and their pauses after the
    activation, it is marked its own duration later, and [onComplete]
    is called all durations, all pauses and 1000 ms after the
    activation, which happens after one timer more than twice the
    number of steps. *)
Theorem punctual_run_times catalog props t0 n s0 s :
  isActive props = true →
  step catalog (Render t0 props) mounted = Some s0 →
  ticks catalog n s0 = Some s →
  (∀ k log, logs s !! k = Some log →
     LogEntry.timestamp log = (t0 + startOf catalog k)%Z)
  ∧ (∀ o i step, o ∈ trace s → action o = Marked (stepId i) → catalog !! i = Some step →
     at_time o = (t0 + startOf catalog i + Z.max 0 (Step.duration step))%Z)
  ∧ (∀ o h r, o ∈ trace s → action o = Called h r →
     at_time o = (t0 + runLength catalog)%Z)
  ∧ (n = 2 * length catalog + 1 →
     ∃ o, o ∈ trace s ∧ action o = Called (onComplete props) completionPayload
          ∧ at_time o = (t0 + runLength catalog)%Z).
Proof.
  intros Hact Hstep Hticks.
  assert (0 ≤ t0)%Z as Ht0.
  { unfold step in Hstep. simpl in Hstep. by case_bool_decide. }
  destruct (activation_inv catalog (onComplete props) t0 props Hact eq_refl Ht0)
    as (s0' & Hstep' & Hinv & _).
  rewrite Hstep in Hstep'. injection Hstep' as <-.
  assert (timed catalog eq t0 s0) as Htimed0 by by eapply activation_timed.
  destruct (ticks_timed catalog _ t0 n _ _ _ Hinv Htimed0
              (activation_ahead _ _ _ _ Hstep) Hticks)
    as [(Hlogs & Hmarked & Hcalled & _) _].
  split; [|split; [|split]].
  - intros k log Hk. symmetry. by apply Hlogs.
  - intros o i step Ho Ha Hi. specialize (Hmarked o i Ho Ha).
    rewrite (startOf_S _ _ _ Hi) in Hmarked. unfold pace in Hmarked. lia.
  - intros o h r Ho Ha. symmetry. by eapply Hcalled.
  - intros ->.
    destruct (ticks_inv catalog (onComplete props) (2 * length catalog + 1) 0 s0 Hinv)
      as (sched' & s' & Hticks' & _ & _ & _ & Hph & _); [lia|].
    rewrite Hticks in Hticks'. injection Hticks' as <-.
    destruct (phase_calls _ _ _ _ Hph) as [(? & _)|(_ & Hc & _)]; [lia|].
    assert ((onComplete props, completionPayload) ∈ calls s) as Hin by (rewrite Hc; by left).
    unfold calls in Hin. apply list_elem_of_omap in Hin as (o & Ho & Hcall).
    exists o. destruct (action o) eqn:Ha; try done. injection Hcall as -> ->.
    split; [done|]. split; [done|]. symmetry. by eapply Hcalled.
Qed.

Lemma punctual_run_times_witness :
  (∀ k log, logs (demoRun 17) !! k = Some log →
     LogEntry.timestamp log = (0 + startOf deploymentSteps k)%Z)
  ∧ (∀ o i step, o ∈ trace (demoRun 17) → action o = Marked (stepId i) →
     deploymentSteps !! i = Some step →
     at_time o = (0 + startOf deploymentSteps i + Z.max 0 (Step.duration step))%Z)
  ∧ (∀ o h r, o ∈ trace (demoRun 17) → action o = Called h r →
     at_time o = (0 + runLength deploymentSteps)%Z)
  ∧ (17 = 2 * length deploymentSteps + 1 →
     ∃ o, o ∈ trace (demoRun 17) ∧ action o = Called 1 completionPayload
          ∧ at_time o = (0 + runLength deploymentSteps)%Z).
Proof.
  apply (punctual_run_times deploymentSteps demoProps 0 17 (demoRun 0) (demoRun 17));
    vm_compute; reflexivity.
Defined.

Example punctual_timestamps :
  LogEntry.timestamp <$> logs (demoRun 17)
  = [0; 2500; 6000; 8500; 13000; 16500; 19500; 23000]%Z.
Proof. by vm_compute. Qed.

(** ** The life of the log *)

(** X7. A run is over after one timer more than twice the number of
    steps: no schedule fires more; until then exactly one timer is
    outstanding and fires at any time from its due time on, and after
    that nothing can fire. *)
Theorem run_terminates catalog props t0 sched s :
  isActive props = true →
  uninterrupted props sched = true →
  exec catalog (Render t0 props :: sched) mounted = Some s →
  firings sched ≤ 2 * length catalog + 1
  ∧ (firings sched < 2 * length catalog + 1 →
     ∃ tm, timers s = [tm]
           ∧ ∀ t, (clock s ≤ t)%Z → (due tm ≤ t)%Z →
                  is_Some (step catalog (Fire 0 t) s))
  ∧ (firings sched = 2 * length catalog + 1 →
     ∀ k t, step catalog (Fire k t) s = None).
Proof.
  intros Hact Hun Hexec.
  destruct (run_state _ _ _ _ _ Hact Hun Hexec) as (Hph & _ & _).
  destruct (phase_calls _ _ _ _ Hph) as [(Hf & _ & tm & Htm)|(Hf & _ & Htm)].
  - split; [lia|]. split; [|lia].
    intros _. exists tm. split; [done|]. intros t Hck Hdue.
    unfold step. rewrite Htm. simpl. rewrite bool_decide_eq_true_2 by done. eauto.
  - split; [lia|]. split; [lia|].
    intros _ k t. unfold step. by rewrite Htm.
Qed.

Lemma run_terminates_witness :
  firings demoSchedule ≤ 2 * length deploymentSteps + 1
  ∧ (firings demoSchedule < 2 * length deploymentSteps + 1 →
     ∃ tm, timers (demoRun 17) = [tm]
           ∧ ∀ t, (clock (demoRun 17) ≤ t)%Z → (due tm ≤ t)%Z →
                  is_Some (step deploymentSteps (Fire 0 t) (demoRun 17)))
  ∧ (firings demoSchedule = 2 * length deploymentSteps + 1 →
     ∀ k t, step deploymentSteps (Fire k t) (demoRun 17) = None).
Proof.
  apply (run_terminates deploymentSteps demoProps 0 demoSchedule (demoRun 17));
    vm_compute; reflexivity.
Defined.

Lemma evolves_refl l : evolves l l.
Proof. split; [done|]. intros k log Hk. by left. Qed.

Lemma evolves_trans l1 l2 l3 : evolves l1 l2 → evolves l2 l3 → evolves l1 l3.
Proof.
  intros [Hlen12 H12] [Hlen23 H23]. split; [lia|].
  intros k log Hk. destruct (H12 k log Hk) as [Hk2|Hk2];
    destruct (H23 _ _ Hk2) as [Hk3|Hk3]; auto.
Qed.

Lemma evolves_markCompleted entryId l : evolves l (markCompleted entryId l).
Proof.
  split; [by rewrite markCompleted_length|].
  intros k log Hk. rewrite markCompleted_lookup, Hk. simpl.
  case_bool_decide; auto.
Qed.

Lemma evolves_snoc l log : evolves l (l ++ [log]).
Proof.
  split; [rewrite length_app; lia|].
  intros k log' Hk. left. by apply lookup_app_l_Some.
Qed.

(** An event that does not run the effect lets the log evolve. *)
Lemma step_evolves catalog d e s s' :
  deps s = Some d → keepsDeps d e = true → step catalog e s = Some s' →
  deps s' = Some d ∧ evolves (logs s) (logs s').
Proof.
  intros Hdeps Hkeep Hstep. destruct e as [t props|k t]; simpl in Hkeep, Hstep.
  - apply bool_decide_eq_true_1 in Hkeep. case_bool_decide; [|done].
    injection Hstep as <-. unfold render. simpl.
    rewrite Hkeep, Hdeps. rewrite bool_decide_eq_true_2 by done.
    split; [done|apply evolves_refl].
  - destruct (timers s !! k) as [tm|]; [|done].
    case_bool_decide; [|done]. injection Hstep as <-.
    destruct (callback tm) as [run entryId|run|run]; simpl.
    + split; [done|apply evolves_markCompleted].
    + unfold processStep. simpl.
      destruct (closures s !! run) as [c|]; [|by split; [|apply evolves_refl]].
      case_bool_decide; [by split; [|apply evolves_refl]|].
      destruct (catalog !! stepIndex c); [|by split; [|apply evolves_refl]].
      split; [done|apply evolves_snoc].
    + destruct (closures s !! run); by (split; [|apply evolves_refl]).
Qed.

(** X8. As long as the effect does not run again the log is append-only:
    whatever timers fire, from whatever state, every entry stays at its
    position with its id, message, details, timestamp and icon, its
    status unchanged or turned to [completed]; no entry is removed or
    moved. *)
Theorem log_append_only catalog d sched s s' :
  deps s = Some d →
  forallb (keepsDeps d) sched = true →
  exec catalog sched s = Some s' →
  length (logs s) ≤ length (logs s')
  ∧ ∀ k log, logs s !! k = Some log →
      logs s' !! k = Some log
      ∨ logs s' !! k = Some (LogEntry.with_status completed log).
Proof.
  revert s. induction sched as [|e sched IH]; intros s Hdeps Hkeep Hexec;
    simpl in Hkeep, Hexec.
  - injection Hexec as <-. apply evolves_refl.
  - apply andb_prop in Hkeep as [He Hkeep].
    destruct (step catalog e s) as [s1|] eqn:Hstep; [|done]. simpl in Hexec.
    destruct (step_evolves _ _ _ _ _ Hdeps He Hstep) as [Hdeps1 Hev1].
    eapply evolves_trans; [exact Hev1|]. by apply IH.
Qed.

Lemma log_append_only_witness :
  length (logs (demoRun 3)) ≤ length (logs (demoRun 17))
  ∧ ∀ k log, logs (demoRun 3) !! k = Some log →
      logs (demoRun 17) !! k = Some log
      ∨ logs (demoRun 17) !! k = Some (LogEntry.with_status completed log).
Proof.
  apply (log_append_only deploymentSteps (true, 1) (drop 3 demoSchedule)
           (demoRun 3) (demoRun 17)); vm_compute; reflexivity.
Defined.

(** X9. A component that is only ever rendered inactive does nothing:
    whatever the schedule, it creates no entry, sets no timer, starts no
    run and makes no call, and a schedule that fires a timer is
    refused. *)
Theorem inactive_inert catalog sched s :
  forallb keepsInactive sched = true →
  exec catalog sched mounted = Some s →
  logs s = [] ∧ currentStep s = 0 ∧ closures s = [] ∧ timers s = []
  ∧ trace s = [] ∧ calls s = [] ∧ firings sched = 0.
Proof.
  assert (∀ s0, logs s0 = [] ∧ currentStep s0 = 0 ∧ closures s0 = [] ∧ timers s0 = []
                ∧ trace s0 = [] →
            forallb keepsInactive sched = true → exec catalog sched s0 = Some s →
            (logs s = [] ∧ currentStep s = 0 ∧ closures s = [] ∧ timers s = []
             ∧ trace s = []) ∧ firings sched = 0) as Hgen.
  { induction sched as [|e sched IH]; intros s0 Hidle Hkeep Hexec;
      simpl in Hkeep, Hexec.
    - by injection Hexec as <-.
    - apply andb_prop in Hkeep as [He Hkeep].
      destruct (step catalog e s0) as [s1|] eqn:Hstep; [|done]. simpl in Hexec.
      destruct Hidle as (Hl & Hc & Hcl & Htm & Htr).
      destruct e as [t props|k t]; simpl in He, Hstep.
      + case_bool_decide; [|done]. injection Hstep as <-.
        apply (IH (render catalog props (setClock t s0))); [|done..].
        unfold render, effect. simpl. rewrite He.
        by case_bool_decide.
      + by rewrite Htm in Hstep. }
  intros Hkeep Hexec.
  destruct (Hgen mounted) as [(Hl & Hc & Hcl & Htm & Htr) Hf]; [done..|].
  unfold calls. by rewrite Htr.
Qed.

Lemma inactive_inert_witness :
  logs (setDeps (false, 3) (setClock 70 mounted)) = []
  ∧ currentStep (setDeps (false, 3) (setClock 70 mounted)) = 0
  ∧ closures (setDeps (false, 3) (setClock 70 mounted)) = []
  ∧ timers (setDeps (false, 3) (setClock 70 mounted)) = []
  ∧ trace (setDeps (false, 3) (setClock 70 mounted)) = []
  ∧ calls (setDeps (false, 3) (setClock 70 mounted)) = []
  ∧ firings [Render 5 (mkProps false 1 [65%N]); Render 70 (mkProps false 3 [])] = 0.
Proof.
  apply (inactive_inert deploymentSteps
           [Render 5 (mkProps false 1 [65%N]); Render 70 (mkProps false 3 [])]);
    vm_compute; reflexivity.
Defined.

(** ** The page and its three screens together *)

(** X10. Whoever calls the three handlers of [Index], in whatever
    order and however often, stale callbacks included, the page shows
    exactly one screen: it is never blank, since the state [completed]
    is only entered together with a result. *)
Theorem Index_one_screen (handlerCalls : list HandlerCall) :
  length (screens (foldl (λ st c, callHandler c st) Index.initial handlerCalls)) = 1
  ∧ (Index.appState (foldl (λ st c, callHandler c st) Index.initial handlerCalls)
     = Index.completedScreen →
     is_Some (Index.deploymentResult
                (foldl (λ st c, callHandler c st) Index.initial handlerCalls))).
Proof.
  assert (Index.appState (foldl (λ st c, callHandler c st) Index.initial handlerCalls)
          = Index.completedScreen →
          is_Some (Index.deploymentResult
                     (foldl (λ st c, callHandler c st) Index.initial handlerCalls))) as Hinv.
  { induction handlerCalls as [|c handlerCalls IH] using rev_ind; [done|].
    rewrite foldl_app. simpl. destruct c; simpl; [done|eauto|done]. }
  split; [|done]. unfold screens.
  destruct (Index.appState _) eqn:Hst; [done..|].
  destruct Hinv as [r ->]; done.
Qed.

Example Index_stale_completion :
  screens (foldl (λ st c, callHandler c st) Index.initial
             [CallDeploymentComplete completionPayload; CallDeploy [65%N]; CallStartNew;
              CallDeploymentComplete completionPayload])
  = [ResultsScreen completionPayload].
Proof. by vm_compute. Qed.

Lemma render_clock catalog props s : clock (render catalog props s) = clock s.
Proof.
  unfold render, effect, processStep. simpl.
  repeat (case_bool_decide || case_match); simpl; try done.
Qed.

Section AppFacts.
Variable catalog : list Step.t.

Lemma App_step_sound e a a' :
  App.sound catalog a → App.step catalog e a = Some a' → App.sound catalog a'.
Proof.
  intros (Horph & Hnow & Hst) Hstep.
  destruct (Index.appState (App.page a)) eqn:Happ.
  - (* on the canvas *)
    destruct Hst as [Hpage Heng].
    destruct e as [text|i|t|k t|].
    + unfold App.step in Hstep. rewrite Happ in Hstep. injection Hstep as <-.
      split; [done|]. split; [done|]. simpl. by rewrite Happ.
    + unfold App.step in Hstep. rewrite Happ in Hstep.
      destruct (examplePrompts !! i); [|done]. injection Hstep as <-.
      split; [done|]. split; [done|]. simpl. by rewrite Happ.
    + unfold App.step in Hstep. rewrite Happ in Hstep.
      case_bool_decide as Ht; [|done].
      unfold MagicCanvas.handleDeploy in Hstep.
      destruct (trim (App.typed a)) as [|c rest] eqn:Htrim;
        cbn [truthy andb negb] in Hstep.
      { injection Hstep as <-. split; [done|]. split; [simpl; lia|].
        simpl. by rewrite Happ. }
      destruct (activation_inv catalog (S (App.indexRenders a)) t
                  (mkProps true (S (App.indexRenders a)) (App.typed a)))
        as (s & Hs & Hinv & _); [done..|lia|].
      assert (clock s = t) as Hclock.
      { unfold step in Hs. simpl in Hs. case_bool_decide; [|done]. injection Hs as <-.
        by rewrite render_clock. }
      rewrite Hs in Hstep. injection Hstep as <-.
      split; [done|]. split; [simpl; lia|]. simpl. rewrite Hpage. simpl.
      split; [done|]. split; [by rewrite Htrim|].
      exists s, 0. split; [done|]. split; [done|]. split; [lia|done].
    + unfold App.step in Hstep. by rewrite Happ in Hstep.
    + unfold App.step in Hstep. by rewrite Happ in Hstep.
  - (* deploying *)
    destruct Hst as (Hres & Htrim & s & f & Heng & Hinv & Hf & Hclock).
    destruct e as [text|i|t|k t|];
      try (unfold App.step in Hstep; by rewrite Happ in Hstep).
    unfold App.step in Hstep. rewrite Happ, Heng in Hstep.
    case_bool_decide as Ht; [|done].
    destruct (step catalog (Fire k t) s) as [s'|] eqn:Hfire; [|done].
    destruct (step_inv catalog _ f (Fire k t) s s' Hinv eq_refl Hfire) as [Hinv' _].
    destruct (fire_new_timers _ _ _ _ _ Hfire) as [Hclock' _].
    destruct Hinv as (Hph & _).
    destruct (phase_calls _ _ _ _ Hph) as [(_ & Hc & _)|(? & _)]; [|lia].
    rewrite Hc in Hstep. simpl in Hstep.
    pose proof Hinv' as (Hph' & _).
    destruct (phase_calls _ _ _ _ Hph') as [(Hf' & Hc' & _)|(Hf' & Hc' & Htm')];
      rewrite Hc' in Hstep; simpl in Hstep; injection Hstep as <-.
    + split; [done|]. split; [simpl; lia|]. simpl. rewrite Happ.
      split; [done|]. split; [done|].
      exists s', (f + firings [Fire k t]).
      split; [done|]. split; [done|]. simpl in Hf'. split; [simpl; lia|done].
    + split; [simpl; rewrite Htm'; simpl; lia|]. split; [simpl; lia|]. done.
  - (* on the result screen *)
    destruct Hst as [Hres Heng].
    destruct e as [text|i|t|k t|];
      try (unfold App.step in Hstep; by rewrite Happ in Hstep).
    unfold App.step in Hstep. rewrite Happ in Hstep. injection Hstep as <-.
    split; [done|]. split; [done|]. done.
Qed.

Lemma App_exec_sound events : ∀ a a',
  App.sound catalog a → App.exec catalog events a = Some a' → App.sound catalog a'.
Proof.
  induction events as [|e events IH]; intros a a' Hs Hexec; simpl in Hexec.
  - by injection Hexec as <-.
  - destruct (App.step catalog e a) as [a1|] eqn:Hstep; [|done].
    eapply IH; [|done]. by eapply App_step_sound.
Qed.

Lemma App_initial_sound : App.sound catalog App.initial.
Proof. done. Qed.
End AppFacts.

Section AppRuns.
Variable catalog : list Step.t.

Lemma nextFire_single s tm :
  timers s = [tm] →
  nextFire s = Some (Fire 0 (clock s `max` due tm)%Z)
  ∧ ∃ s1, step catalog (Fire 0 (clock s `max` due tm)%Z) s = Some s1
          ∧ tick catalog s = Some s1.
Proof.
  intros Htm.
  assert (nextFire s = Some (Fire 0 (clock s `max` due tm)%Z)) as Hnext
    by (unfold nextFire; by rewrite Htm).
  split; [done|]. unfold tick. rewrite Hnext. simpl. rewrite Htm. simpl.
  rewrite bool_decide_eq_true_2 by lia. eauto.
Qed.

(** While the engine has not made its call a tick of the page is a tick
    of the engine. *)
Lemma App_ticks_engine n : ∀ a s f,
  Index.appState (App.page a) = Index.deploying →
  App.engine a = Some s →
  App.now a = clock s →
  run_inv catalog (App.indexRenders a) f s →
  f + n ≤ 2 * length catalog →
  ∃ s', ticks catalog n s = Some s'
        ∧ run_inv catalog (App.indexRenders a) (f + n) s'
        ∧ App.ticks catalog n a
          = Some (App.mk (App.page a) (App.typed a) (Some s') (clock s')
                    (App.indexRenders a) (App.orphaned a)).
Proof.
  induction n as [|n IH]; intros a s f Happ Heng Hnow Hinv Hf.
  - exists s. rewrite Nat.add_0_r. split; [done|]. split; [done|].
    simpl. rewrite <- Hnow, <- Heng. by destruct a.
  - pose proof Hinv as (Hph & _).
    destruct (phase_calls _ _ _ _ Hph) as [(_ & Hc & tm & Htm)|(? & _)]; [|lia].
    destruct (nextFire_single s tm Htm) as (Hnext & s1 & Hfire & Htick).
    destruct (step_inv catalog _ f (Fire 0 (clock s `max` due tm)%Z) s s1 Hinv eq_refl Hfire)
      as [Hinv1 _].
    destruct (fire_new_timers _ _ _ _ _ Hfire) as [Hclock1 _].
    pose proof Hinv1 as (Hph1 & _).
    destruct (phase_calls _ _ _ _ Hph1) as [(_ & Hc1 & _)|(? & _)]; [|simpl in *; lia].
    set (a1 := App.mk (App.page a) (App.typed a) (Some s1) (clock s1)
                 (App.indexRenders a) (App.orphaned a)).
    assert (App.tick catalog a = Some a1) as Hatick.
    { unfold App.tick. rewrite Heng, Hnext. unfold App.step. rewrite Happ, Heng, Hfire.
      rewrite bool_decide_eq_true_2 by lia. rewrite Hc, Hc1. simpl.
      unfold a1. by rewrite Hclock1. }
    destruct (IH a1 s1 (f + 1)) as (s' & Hticks & Hinv' & Haticks); try done.
    { simpl in *. lia. }
    exists s'. split; [|split].
    + change (tick catalog s ≫= ticks catalog n = Some s'). by rewrite Htick.
    + by replace (f + S n) with (f + 1 + n) by lia.
    + change (App.tick catalog a ≫= App.ticks catalog n = Some
                (App.mk (App.page a) (App.typed a) (Some s') (clock s')
                   (App.indexRenders a) (App.orphaned a))).
      by rewrite Hatick.
Qed.
End AppRuns.

Lemma option_bind_some {A B} (f : A → option B) (x : A) : Some x ≫= f = f x.
Proof. done. Qed.

Lemma App_exec_cons catalog e events a :
  App.exec catalog (e :: events) a = App.step catalog e a ≫= App.exec catalog events.
Proof. done. Qed.

Lemma App_ticks_snoc catalog n a :
  App.ticks catalog (n + 1) a = App.ticks catalog n a ≫= App.tick catalog.
Proof.
  revert a. induction n as [|n IH]; intros a; simpl.
  - by destruct (App.tick catalog a).
  - destruct (App.tick catalog a) as [a1|]; simpl; [apply IH|done].
Qed.

(** X11. Whatever the user and the timers do, the page never
    re-activates its engine and never leaves a timer behind: while
    deploying, the engine is in the one run that its mount started, with
    one timer outstanding, no call made, a prompt that is not blank and
    the handler of the latest render of the page; the engine is
    unmounted only by its own call of [onComplete], when no timer is
    outstanding; the page shows exactly one screen; on the canvas the
    page is as at the start; and a result on the page is the payload of
    the engine, on the result screen, every one of its services having
    an icon and a key of its own. *)
Theorem App_never_reactivates catalog events a :
  App.exec catalog events App.initial = Some a →
  App.orphaned a = 0
  ∧ length (screens (App.page a)) = 1
  ∧ (Index.appState (App.page a) = Index.deploying ↔ is_Some (App.engine a))
  ∧ (∀ s, App.engine a = Some s →
       length (closures s) = 1 ∧ length (timers s) = 1 ∧ calls s = []
       ∧ deps s = Some (true, App.indexRenders a)
       ∧ trim (Index.currentPrompt (App.page a)) ≠ []
       ∧ App.now a = clock s)
  ∧ (Index.appState (App.page a) = Index.canvas → App.page a = Index.initial)
  ∧ (∀ result, Index.deploymentResult (App.page a) = Some result →
       Index.appState (App.page a) = Index.completedScreen
       ∧ result = completionPayload
       ∧ Forall (λ service, is_Some (serviceIcons service))
                (DeploymentResult.services result)
       ∧ NoDup (DeploymentResult.services result)).
Proof.
  intros Hexec.
  destruct (App_exec_sound catalog events _ _ (App_initial_sound catalog) Hexec)
    as (Horph & _ & Hst).
  split; [done|]. unfold screens.
  destruct (Index.appState (App.page a)) eqn:Happ.
  - destruct Hst as [Hpage Heng]. rewrite Heng, Hpage. simpl.
    split; [done|]. split; [split; [done|by intros []]|].
    split; [done|]. split; [done|]. done.
  - destruct Hst as (Hres & Htrim & s & f & Heng & Hinv & Hf & Hnow).
    rewrite Heng, Hres. simpl.
    split; [done|]. split; [split; eauto|].
    split; [|split; [done|done]].
    intros s' [= <-]. destruct Hinv as (Hph & Hdeps & _).
    destruct (phase_calls _ _ _ _ Hph) as [(_ & Hc & tm & Htm)|(? & _)]; [|lia].
    assert (∃ c, closures s = [c]) as [c Hc'] by (destruct Hph; eauto).
    rewrite Hc', Htm. done.
  - destruct Hst as [Hres Heng]. rewrite Heng, Hres. simpl.
    split; [done|]. split; [split; [done|by intros []]|].
    split; [done|]. split; [done|].
    intros result [= <-]. split; [done|]. split; [done|].
    split; [by repeat constructor|].
    apply (bool_decide_unpack _). by vm_compute.
Qed.

Lemma App_never_reactivates_witness :
  App.orphaned demoApp = 0
  ∧ length (screens (App.page demoApp)) = 1
  ∧ (Index.appState (App.page demoApp) = Index.deploying ↔ is_Some (App.engine demoApp))
  ∧ (∀ s, App.engine demoApp = Some s →
       length (closures s) = 1 ∧ length (timers s) = 1 ∧ calls s = []
       ∧ deps s = Some (true, App.indexRenders demoApp)
       ∧ trim (Index.currentPrompt (App.page demoApp)) ≠ []
       ∧ App.now demoApp = clock s)
  ∧ (Index.appState (App.page demoApp) = Index.canvas → App.page demoApp = Index.initial)
  ∧ (∀ result, Index.deploymentResult (App.page demoApp) = Some result →
       Index.appState (App.page demoApp) = Index.completedScreen
       ∧ result = completionPayload
       ∧ Forall (λ service, is_Some (serviceIcons service))
                (DeploymentResult.services result)
       ∧ NoDup (DeploymentResult.services result)).
Proof.
  apply (App_never_reactivates deploymentSteps demoSession demoApp).
  by vm_compute.
Defined.

Example demoApp_deploying :
  screens (App.page demoApp) = [LogsScreen (utf16 "Python으로 만든 실시간 채팅 앱, Redis 사용, 도메인은 chat.my-app.com")]
  ∧ (λ s, LogEntry.status <$> logs s) <$> App.engine demoApp = Some [completed; running]
  ∧ App.now demoApp = 2600%Z.
Proof. by vm_compute. Qed.

(** X12. From the canvas, however the page got there, a prompt that is
    not blank deploys: typing it and clicking the deploy button at time
    [t0] shows the log screen with that prompt; the log screen stays for
    the first [2N] timers of a catalog of [N] steps; with punctual
    timers the timer after that shows the result screen with the payload
    and the prompt, all durations, all pauses and 1000 ms after the
    click; and the start-over button then puts the page back as it was
    at the start, with an empty text area and no engine. *)
Theorem App_deploys catalog events a0 text t0 :
  App.exec catalog events App.initial = Some a0 →
  Index.appState (App.page a0) = Index.canvas →
  trim text ≠ [] →
  (App.now a0 ≤ t0)%Z →
  ∃ a1 a2 a3,
    App.exec catalog [App.TypeText text; App.ClickDeploy t0] a0 = Some a1
    ∧ screens (App.page a1) = [LogsScreen text]
    ∧ (∀ n a, n ≤ 2 * length catalog → App.ticks catalog n a1 = Some a →
         screens (App.page a) = [LogsScreen text])
    ∧ App.ticks catalog (2 * length catalog + 1) a1 = Some a2
    ∧ App.page a2 = Index.mk Index.completedScreen text (Some completionPayload)
    ∧ screens (App.page a2) = [ResultsScreen completionPayload]
    ∧ App.now a2 = (t0 + runLength catalog)%Z
    ∧ App.step catalog App.ClickStartNew a2 = Some a3
    ∧ App.page a3 = Index.initial ∧ App.typed a3 = [] ∧ App.engine a3 = None.
Proof.
  intros Hexec Happ Htrim Ht0.
  destruct (App_exec_sound catalog events _ _ (App_initial_sound catalog) Hexec)
    as (Horph & Hnow & Hst).
  rewrite Happ in Hst. destruct Hst as [Hpage Heng].
  set (renders := S (App.indexRenders a0)).
  set (props := mkProps true renders text).
  destruct (activation_inv catalog renders t0 props) as (s0 & Hs0 & Hinv0 & _);
    [done..|lia|].
  assert (clock s0 = t0) as Hclock0.
  { unfold step in Hs0. simpl in Hs0. case_bool_decide; [|done]. injection Hs0 as <-.
    by rewrite render_clock. }
  set (a1 := App.mk (Index.mk Index.deploying text None) [] (Some s0) t0 renders
               (App.orphaned a0)).
  assert (App.exec catalog [App.TypeText text; App.ClickDeploy t0] a0 = Some a1) as Hrun1.
  { rewrite App_exec_cons.
    assert (App.step catalog (App.TypeText text) a0
            = Some (App.mk (App.page a0) text (App.engine a0) (App.now a0)
                      (App.indexRenders a0) (App.orphaned a0))) as ->
      by (unfold App.step; by rewrite Happ).
    rewrite option_bind_some, App_exec_cons. unfold App.step.
    cbn [App.page App.typed App.now App.indexRenders App.orphaned App.engine].
    rewrite Happ, bool_decide_eq_true_2 by done.
    unfold MagicCanvas.handleDeploy.
    destruct (trim text) eqn:Htr; [done|]. cbn [truthy andb negb].
    fold renders. fold props. rewrite Hs0, Hpage. done. }
  (* the first [2N] timers *)
  assert (∀ n, n ≤ 2 * length catalog →
            ∃ s, ticks catalog n s0 = Some s ∧ run_inv catalog renders n s
                 ∧ App.ticks catalog n a1
                   = Some (App.mk (App.page a1) [] (Some s) (clock s) renders
                             (App.orphaned a0))) as Hticks.
  { intros n Hn. by apply (App_ticks_engine catalog n a1 s0 0). }
  destruct (Hticks (2 * length catalog)) as (s & Hs & Hinv & Hlast); [lia|].
  (* the timer of the callback *)
  destruct (ticks_timed catalog renders t0 _ _ _ _ Hinv0
              (activation_timed catalog eq t0 props s0 ltac:(done) eq_refl Hs0)
              (activation_ahead _ _ _ _ Hs0) Hs) as [(_ & _ & _ & Hdue) Hahead].
  pose proof Hinv as (Hph & _).
  assert (∃ d, timers s = [mkTimer d (Completion 0)] ∧ calls s = []) as (d & Htm & Hc).
  { destruct Hph as [i st d Hf Hst _ _ _ _ _|i d pos t Hf _ _ _ _ _ _ _ _
                    |d _ _ _ _ Htm Hc _|Hf _ _ _ _ _]; [..|eauto|]; [|lia..].
    apply lookup_lt_Some in Hst. lia. }
  assert (d = t0 + runLength catalog)%Z as ->.
  { symmetry. apply (Hdue (mkTimer d (Completion 0))). rewrite Htm. by left. }
  assert (clock s ≤ t0 + runLength catalog)%Z as Hck.
  { apply (Hahead (mkTimer _ (Completion 0))). rewrite Htm. by left. }
  destruct (nextFire_single catalog s _ Htm) as (Hnext & s2 & Hfire & _).
  cbn [due] in Hnext, Hfire.
  replace (clock s `max` (t0 + runLength catalog))%Z with (t0 + runLength catalog)%Z
    in Hnext, Hfire by lia.
  destruct (step_inv catalog renders _ (Fire 0 (t0 + runLength catalog)%Z) s s2
              Hinv eq_refl Hfire) as [(Hph2 & _) _].
  destruct (phase_calls _ _ _ _ Hph2) as [(? & _)|(_ & Hc2 & Htm2)]; [simpl in *; lia|].
  set (a2 := App.mk (Index.mk Index.completedScreen text (Some completionPayload)) []
               None (t0 + runLength catalog)%Z (S renders) (App.orphaned a0)).
  assert (App.ticks catalog (2 * length catalog + 1) a1 = Some a2) as Hrun2.
  { rewrite App_ticks_snoc, Hlast, option_bind_some. unfold App.tick.
    cbn [App.engine]. rewrite Hnext. unfold App.step.
    cbn [App.page App.typed App.now App.indexRenders App.orphaned App.engine a1
         Index.appState].
    rewrite bool_decide_eq_true_2 by lia. rewrite Hfire, Hc, Hc2, Htm2. simpl.
    unfold a2. by rewrite Nat.add_0_r. }
  exists a1, a2, (App.mk Index.initial [] None (t0 + runLength catalog)%Z (S (S renders))
                    (App.orphaned a0)).
  split; [done|]. split; [done|]. split; [|done].
  intros n a Hn Ha. destruct (Hticks n Hn) as (s' & _ & _ & Ha').
  rewrite Ha in Ha'. by injection Ha' as ->.
Qed.

Lemma App_deploys_witness :
  ∃ a1 a2 a3,
    App.exec deploymentSteps [App.TypeText [32; 65]%N; App.ClickDeploy 40] App.initial
    = Some a1
    ∧ screens (App.page a1) = [LogsScreen [32; 65]%N]
    ∧ (∀ n a, n ≤ 2 * length deploymentSteps → App.ticks deploymentSteps n a1 = Some a →
         screens (App.page a) = [LogsScreen [32; 65]%N])
    ∧ App.ticks deploymentSteps (2 * length deploymentSteps + 1) a1 = Some a2
    ∧ App.page a2 = Index.mk Index.completedScreen [32; 65]%N (Some completionPayload)
    ∧ screens (App.page a2) = [ResultsScreen completionPayload]
    ∧ App.now a2 = (40 + runLength deploymentSteps)%Z
    ∧ App.step deploymentSteps App.ClickStartNew a2 = Some a3
    ∧ App.page a3 = Index.initial ∧ App.typed a3 = [] ∧ App.engine a3 = None.
Proof.
  apply (App_deploys deploymentSteps [] App.initial [32; 65]%N 40).
  - reflexivity.
  - reflexivity.
  - by vm_compute.
  - by vm_compute.
Defined.

(** X13. Every example button of the canvas gives a prompt that
    deploys: from the canvas, however the page got there, clicking the
    [i]-th example and then the deploy button shows the log screen with
    that example, unchanged, as the prompt; a blank text in its place
    leaves the canvas on the screen; and there is no fifth example. *)
Theorem App_examples_deploy catalog events a0 i example t0 :
  App.exec catalog events App.initial = Some a0 →
  Index.appState (App.page a0) = Index.canvas →
  examplePrompts !! i = Some example →
  (App.now a0 ≤ t0)%Z →
  (∃ a1, App.exec catalog [App.ClickExample i; App.ClickDeploy t0] a0 = Some a1
         ∧ screens (App.page a1) = [LogsScreen example]
         ∧ App.typed a1 = [])
  ∧ (∀ blank, trim blank = [] →
       ∃ a1, App.exec catalog [App.TypeText blank; App.ClickDeploy t0] a0 = Some a1
             ∧ screens (App.page a1) = [CanvasScreen]
             ∧ App.typed a1 = blank ∧ App.engine a1 = None)
  ∧ i < 4
  ∧ App.step catalog (App.ClickExample 4) a0 = None.
Proof.
  intros Hexec Happ Hex Ht0.
  destruct (App_exec_sound catalog events _ _ (App_initial_sound catalog) Hexec)
    as (Horph & Hnow & Hst).
  rewrite Happ in Hst. destruct Hst as [Hpage Heng].
  assert (trim example ≠ []) as Htrim.
  { assert (Forall (λ ex, trim ex ≠ []) examplePrompts) as Hall
      by (apply (bool_decide_unpack _); by vm_compute).
    rewrite Forall_lookup in Hall. by eapply Hall. }
  split; [|split; [|split]].
  - rewrite App_exec_cons.
    assert (App.step catalog (App.ClickExample i) a0
            = Some (App.mk (App.page a0) example (App.engine a0) (App.now a0)
                      (App.indexRenders a0) (App.orphaned a0))) as ->
      by (unfold App.step; by rewrite Happ, Hex).
    rewrite option_bind_some, App_exec_cons. unfold App.step.
    cbn [App.page App.typed App.now App.indexRenders App.orphaned App.engine].
    rewrite Happ, bool_decide_eq_true_2 by done.
    unfold MagicCanvas.handleDeploy.
    destruct (trim example) eqn:Htr; [done|]. cbn [truthy andb negb].
    destruct (activation_inv catalog (S (App.indexRenders a0)) t0
                (mkProps true (S (App.indexRenders a0)) example))
      as (s0 & Hs0 & _); [done..|lia|].
    rewrite Hs0, Hpage. eexists. by split.
  - intros blank Hblank. rewrite App_exec_cons.
    assert (App.step catalog (App.TypeText blank) a0
            = Some (App.mk (App.page a0) blank (App.engine a0) (App.now a0)
                      (App.indexRenders a0) (App.orphaned a0))) as ->
      by (unfold App.step; by rewrite Happ).
    rewrite option_bind_some, App_exec_cons. unfold App.step.
    cbn [App.page App.typed App.now App.indexRenders App.orphaned App.engine].
    rewrite Happ, bool_decide_eq_true_2 by done.
    unfold MagicCanvas.handleDeploy. rewrite Hblank. cbn [truthy andb negb].
    rewrite Hpage, Heng. eexists. by split.
  - apply lookup_lt_Some in Hex. by vm_compute in Hex.
  - unfold App.step. by rewrite Happ.
Qed.

Lemma App_examples_deploy_witness :
  (∃ a1, App.exec deploymentSteps [App.ClickExample 3; App.ClickDeploy 7] App.initial
         = Some a1
         ∧ screens (App.page a1)
           = [LogsScreen (utf16 "Go 마이크로서비스로 이메일 발송 API, SMTP 연결")]
         ∧ App.typed a1 = [])
  ∧ (∀ blank, trim blank = [] →
       ∃ a1, App.exec deploymentSteps [App.TypeText blank; App.ClickDeploy 7] App.initial
             = Some a1
             ∧ screens (App.page a1) = [CanvasScreen]
             ∧ App.typed a1 = blank ∧ App.engine a1 = None)
  ∧ 3 < 4
  ∧ App.step deploymentSteps (App.ClickExample 4) App.initial = None.
Proof.
  apply (App_examples_deploy deploymentSteps [] App.initial 3
           (utf16 "Go 마이크로서비스로 이메일 발송 API, SMTP 연결") 7).
  - reflexivity.
  - reflexivity.
  - by vm_compute.
  - by vm_compute.
Defined.

(** The services of the payload are own keys of [serviceIcons]; other
    names are not, and some of them are found all the same. *)
Example serviceIconLookup_demo :
  serviceIconLookup <$> DeploymentResult.services completionPayload
  = [OwnIcon GlobeIcon; OwnIcon ZapIcon; OwnIcon DatabaseIcon; OwnIcon DatabaseIcon]
  ∧ serviceIconLookup "constructor" = InheritedValue
  ∧ serviceIconLookup "Cache" = UndefinedValue.
Proof. by vm_compute. Qed.

(** ** A run goes on while the component is hidden *)

Lemma phase_ext catalog h f s s' :
  logs s' = logs s → currentStep s' = currentStep s → closures s' = closures s →
  timers s' = timers s → trace s' = trace s →
  phase catalog h s f → phase catalog h s' f.
Proof.
  intros Hl Hc Hcl Htm Htr Hph.
  assert (calls s' = calls s) as Hca by (unfold calls; by rewrite Htr).
  destruct Hph;
    [eapply phase_running|eapply phase_settling|eapply phase_finishing|eapply phase_finished];
    rewrite ?Hl, ?Hc, ?Hcl, ?Htm, ?Htr, ?Hca; eauto.
Qed.

Lemma runCallback_setDeps catalog d cb s :
  runCallback catalog cb (setDeps d s) = setDeps d (runCallback catalog cb s).
Proof.
  destruct s as [lg cur cls tms ck tr dp].
  destruct cb as [run entryId|run|run]; unfold runCallback, processStep; simpl.
  - done.
  - destruct (cls !! run) as [c|]; [|done].
    case_bool_decide; [done|]. by destruct (catalog !! stepIndex c).
  - by destruct (cls !! run).
Qed.

Lemma hidden_step catalog h f e s s' :
  phase catalog h s f → ordered catalog (trace s) →
  keepsInactive e = true →
  step catalog e s = Some s' →
  phase catalog h s' (f + firings [e]) ∧ ordered catalog (trace s').
Proof.
  intros Hph Hord He Hstep. destruct e as [t props|k t]; simpl in He, Hstep.
  - case_bool_decide; [|done]. injection Hstep as <-.
    rewrite Nat.add_0_r. unfold render, effect. simpl. rewrite He.
    case_bool_decide; simpl; (split; [|done]); by eapply phase_ext; [..|exact Hph].
  - assert (run_inv catalog h f (setDeps (true, h) s)) as Hinv.
    { split; [|done]. by eapply phase_ext; [..|exact Hph]. }
    assert (step catalog (Fire k t) (setDeps (true, h) s) = Some (setDeps (true, h) s'))
      as Hstep'.
    { simpl. destruct (timers s !! k) as [tm|]; [|done].
      case_bool_decide; [|done]. injection Hstep as <-.
      f_equal. by rewrite <- runCallback_setDeps. }
    destruct (step_inv catalog h f (Fire k t) _ _ Hinv eq_refl Hstep')
      as [(Hph' & _ & Hord') _].
    split; [|done]. by eapply phase_ext; [..|exact Hph'].
Qed.

Lemma hidden_exec catalog h sched : ∀ f s s',
  phase catalog h s f → ordered catalog (trace s) →
  forallb keepsInactive sched = true →
  exec catalog sched s = Some s' →
  phase catalog h s' (f + firings sched) ∧ ordered catalog (trace s').
Proof.
  induction sched as [|e sched IH]; intros f s s' Hph Hord Hkeep Hexec;
    simpl in Hkeep, Hexec.
  - injection Hexec as <-. simpl. by rewrite Nat.add_0_r.
  - apply andb_prop in Hkeep as [He Hkeep].
    destruct (step catalog e s) as [s1|] eqn:Hstep; [|done]. simpl in Hexec.
    destruct (hidden_step _ _ _ _ _ _ Hph Hord He Hstep) as [Hph1 Hord1].
    destruct (IH _ _ _ Hph1 Hord1 Hkeep Hexec) as [Hph' Hord'].
    split; [|done].
    replace (f + firings (e :: sched)) with (f + firings [e] + firings sched);
      [done|destruct e; simpl; lia].
Qed.

Lemma exec_app catalog sched1 sched2 : ∀ s,
  exec catalog (sched1 ++ sched2) s = exec catalog sched1 s ≫= exec catalog sched2.
Proof.
  induction sched1 as [|e sched1 IH]; intros s; simpl; [done|].
  destruct (step catalog e s) as [s1|]; simpl; [apply IH|done].
Qed.

(** X14. Hiding the component does not stop its run: when a run is
    followed by renders with [isActive] false, with whatever handler,
    and by its timers, no new run starts, the one timer of the run stays
    outstanding and fires, the log grows as if nothing had happened, and
    after one timer more than twice the number of steps, counted from
    the activation, all entries are completed and [onComplete] has been
    called once, with the payload, on the handler of the activation. *)
Theorem hidden_run_completes catalog props t0 sched hidden s :
  isActive props = true →
  uninterrupted props sched = true →
  forallb keepsInactive hidden = true →
  exec catalog (Render t0 props :: sched ++ hidden) mounted = Some s →
  length (closures s) = 1
  ∧ firings (sched ++ hidden) ≤ 2 * length catalog + 1
  ∧ length (logs s) = (firings (sched ++ hidden) / 2 + 1) `min` length catalog
  ∧ currentStep s = (firings (sched ++ hidden) / 2) `min` pred (length catalog)
  ∧ (firings (sched ++ hidden) ≤ 2 * length catalog →
     length (timers s) = 1 ∧ calls s = [])
  ∧ (firings (sched ++ hidden) = 2 * length catalog + 1 →
     timers s = []
     ∧ calls s = [(onComplete props, completionPayload)]
     ∧ length (logs s) = length catalog
     ∧ Forall (λ log, LogEntry.status log = completed) (logs s)).
Proof.
  intros Hact Hun Hhid Hexec.
  change (Render t0 props :: sched ++ hidden)
    with ((Render t0 props :: sched) ++ hidden) in Hexec.
  rewrite exec_app in Hexec.
  destruct (exec catalog (Render t0 props :: sched) mounted) as [s1|] eqn:Hrun; [|done].
  simpl in Hexec.
  destruct (run_state _ _ _ _ _ Hact Hun Hrun) as (Hph1 & _ & Hord1).
  destruct (hidden_exec _ _ _ _ _ _ Hph1 Hord1 Hhid Hexec) as [Hph _].
  assert (firings (sched ++ hidden) = firings sched + firings hidden) as ->.
  { clear. induction sched as [|[] sched IH]; simpl; lia. }
  destruct (phase_indices _ _ _ _ Hph) as [Hcur _].
  destruct (phase_logs _ _ _ _ Hph) as [Hlen _].
  destruct (run_log_shape _ _ _ _ Hph) as [_ Hdone].
  split; [by destruct Hph as [| | |]; simplify_eq/=; match goal with H : closures s = _ |- _ => rewrite H end|].
  destruct (phase_calls _ _ _ _ Hph) as [(Hf & Hca & tm & Htm)|(Hf & Hca & Htm)].
  - split; [lia|]. split; [done|]. split; [done|]. split; [|lia].
    intros _. by rewrite Htm.
  - split; [lia|]. split; [done|]. split; [done|]. split; [lia|].
    intros _. split; [done|]. split; [done|]. apply Hdone. by rewrite Hca.
Qed.

Lemma hidden_run_completes_witness :
  length (closures hiddenRun) = 1
  ∧ firings (take 3 demoSchedule ++ hiddenSchedule) ≤ 2 * length deploymentSteps + 1
  ∧ length (logs hiddenRun)
    = (firings (take 3 demoSchedule ++ hiddenSchedule) / 2 + 1) `min` length deploymentSteps
  ∧ currentStep hiddenRun
    = (firings (take 3 demoSchedule ++ hiddenSchedule) / 2) `min` pred (length deploymentSteps)
  ∧ (firings (take 3 demoSchedule ++ hiddenSchedule) ≤ 2 * length deploymentSteps →
     length (timers hiddenRun) = 1 ∧ calls hiddenRun = [])
  ∧ (firings (take 3 demoSchedule ++ hiddenSchedule) = 2 * length deploymentSteps + 1 →
     timers hiddenRun = []
     ∧ calls hiddenRun = [(onComplete demoProps, completionPayload)]
     ∧ length (logs hiddenRun) = length deploymentSteps
     ∧ Forall (λ log, LogEntry.status log = completed) (logs hiddenRun)).
Proof.
  apply (hidden_run_completes deploymentSteps demoProps 0 (take 3 demoSchedule)
           hiddenSchedule hiddenRun).
  - reflexivity.
  - by vm_compute.
  - by vm_compute.
  - by vm_compute.
Defined.

Example hidden_run_calls :
  deps hiddenRun = Some (false, 5)
  ∧ calls hiddenRun = [(1, completionPayload)]
  ∧ LogEntry.status <$> logs hiddenRun = replicate 8 completed
  ∧ (λ o, at_time o) <$> filter (λ o, isCall o = true) (trace hiddenRun) = [25500%Z].
Proof. by vm_compute. Qed.

(** ** Every activation runs to its end *)

Lemma sum_list_with_delete {A} (f : A → nat) l k x :
  l !! k = Some x → sum_list_with f l = f x + sum_list_with f (delete k l).
Proof.
  revert k. induction l as [|y l IH]; intros [|k] Hk; simpl in *; try done.
  - by injection Hk as ->.
  - rewrite (IH k Hk). lia.
Qed.

Lemma sum_list_with_ext {A} (f g : A → nat) l :
  (∀ j x, l !! j = Some x → f x = g x) → sum_list_with f l = sum_list_with g l.
Proof.
  induction l as [|y l IH]; intros Hfg; simpl; [done|].
  rewrite (Hfg 0 y eq_refl), IH; [done|]. intros j x Hj. by apply (Hfg (S j)).
Qed.

Lemma remaining_ext catalog s s' tm :
  stepIndexOf (timerRun tm) s' = stepIndexOf (timerRun tm) s →
  remaining catalog s' tm = remaining catalog s tm.
Proof. unfold remaining, timerRun. destruct (callback tm); intros Heq; by rewrite ?Heq. Qed.

Lemma remaining_bounds catalog s tm :
  timer_fact catalog s tm → 1 ≤ remaining catalog s tm ≤ 2 * length catalog + 1.
Proof.
  unfold timer_fact, remaining, stepIndexOf. destruct (callback tm) as [run eid|run|run].
  - intros (c & -> & _). simpl. lia.
  - intros (c & i & pos & t & -> & Hi & Hle & _). simpl. lia.
  - lia.
Qed.

Lemma earliest_lookup (queue : list Timer) :
  queue ≠ [] → ∃ k tm, earliest queue = Some (k, tm) ∧ queue !! k = Some tm.
Proof.
  induction queue as [|tm rest IH]; [done|]. intros _. simpl.
  destruct rest as [|tm' rest'].
  - exists 0, tm. by simpl.
  - destruct IH as (k & tm1 & -> & Hk); [done|].
    case_bool_decide; [by exists (S k), tm1|by exists 0, tm].
Qed.

Section Drain.
Variable catalog : list Step.t.

Lemma outstanding_fire s s' k tm new :
  timers s !! k = Some tm →
  timers s' = delete k (timers s) ++ new →
  (∀ j tm', delete k (timers s) !! j = Some tm' →
     stepIndexOf (timerRun tm') s' = stepIndexOf (timerRun tm') s) →
  sum_list_with (remaining catalog s') new + 1 = remaining catalog s tm →
  outstanding catalog s' + 1 = outstanding catalog s.
Proof.
  intros Hk Htm Hsame Hnew. unfold outstanding.
  rewrite Htm, sum_list_with_app, (sum_list_with_delete _ _ _ _ Hk).
  rewrite (sum_list_with_ext (remaining catalog s') (remaining catalog s)); [lia|].
  intros j tm' Hj. apply remaining_ext. by eapply Hsame.
Qed.

(** A timer that fires leaves one timer less to come, and starts no
    run. *)
Lemma fire_outstanding k t s s' :
  any_inv catalog s → step catalog (Fire k t) s = Some s' →
  outstanding catalog s' + 1 = outstanding catalog s
  ∧ length (closures s') = length (closures s).
Proof.
  intros Hinv Hstep. simpl in Hstep.
  destruct (timers s !! k) as [tm|] eqn:Hk; [|done].
  case_bool_decide; [|done]. injection Hstep as <-.
  destruct (fired_timer catalog s k tm Hinv Hk) as (Hrun & _ & Hothers).
  destruct Hinv as (_ & Hfacts & _). specialize (Hfacts k tm Hk).
  destruct tm as [d cb]. unfold timer_fact in Hfacts. simpl in Hfacts.
  destruct cb as [run eid|run|run]; unfold timerRun in Hrun; simpl in Hrun.
  - destruct Hfacts as (c & Hc & Hlt & _). split.
    + eapply (outstanding_fire _ _ _ _ [_] Hk); [done| |].
      * intros j tm' Hj. destruct (Hothers j tm' Hj) as [Hne _].
        unfold stepIndexOf. simpl. by rewrite list_lookup_alter_ne.
      * unfold remaining, stepIndexOf. cbn -[Nat.mul Nat.sub].
        rewrite list_lookup_alter_eq, Hc. cbn -[Nat.mul Nat.sub]. lia.
    + simpl. by rewrite length_alter.
  - destruct Hfacts as (c & i & pos & t' & Hc & Hi & Hle & _).
    simpl. unfold processStep. simpl. rewrite Hc.
    case_bool_decide as Hend.
    + split; [|done].
      eapply (outstanding_fire _ _ _ _ [_] Hk); [done|done|].
      unfold remaining, stepIndexOf. cbn -[Nat.mul Nat.sub].
      rewrite Hc. cbn -[Nat.mul Nat.sub]. lia.
    + destruct (lookup_lt_is_Some_2 catalog (stepIndex c)) as [st Hst]; [lia|].
      rewrite Hst. split; [|done].
      eapply (outstanding_fire _ _ _ _ [_] Hk); [done|done|].
      unfold remaining, stepIndexOf. cbn -[Nat.mul Nat.sub].
      rewrite Hc. cbn -[Nat.mul Nat.sub]. lia.
  - destruct (lookup_lt_is_Some_2 (closures s) run) as [c Hc]; [done|].
    simpl. rewrite Hc. split; [|done].
    eapply (outstanding_fire _ _ _ _ [] Hk); [by rewrite app_nil_r|done|done].
Qed.

Lemma hidden_outstanding rest : ∀ s s',
  any_inv catalog s →
  forallb keepsInactive rest = true → exec catalog rest s = Some s' →
  outstanding catalog s' + firings rest = outstanding catalog s
  ∧ length (closures s') = length (closures s).
Proof.
  induction rest as [|e rest IH]; intros s s' Hinv Hkeep Hexec; simpl in Hkeep, Hexec.
  - injection Hexec as <-. simpl. lia.
  - apply andb_prop in Hkeep as [He Hkeep].
    destruct (step catalog e s) as [s1|] eqn:Hstep; [|done]. simpl in Hexec.
    pose proof (step_any catalog e s s1 Hinv Hstep) as Hinv1.
    destruct (IH s1 s' Hinv1 Hkeep Hexec) as [Hout Hlen].
    destruct e as [t props|k t].
    + simpl in He, Hstep. case_bool_decide; [|done]. injection Hstep as <-.
      assert (outstanding catalog (render catalog props (setClock t s))
              = outstanding catalog s
              ∧ length (closures (render catalog props (setClock t s)))
                = length (closures s)) as [Hout0 Hlen0].
      { unfold render, effect. rewrite He. simpl. by case_bool_decide. }
      simpl. split; [lia|congruence].
    + destruct (fire_outstanding k t s s1 Hinv Hstep) as [Hout1 Hlen1].
      simpl. split; [lia|congruence].
Qed.

Lemma drain n : ∀ s,
  any_inv catalog s → outstanding catalog s = n →
  ∃ s', ticks catalog n s = Some s' ∧ timers s' = [] ∧ any_inv catalog s'
        ∧ length (closures s') = length (closures s).
Proof.
  induction n as [|n IH]; intros s Hinv Hout.
  - exists s. split; [done|]. split; [|done].
    destruct (timers s) as [|tm rest] eqn:Htm; [done|].
    destruct Hinv as (_ & Hfacts & _).
    pose proof (remaining_bounds catalog s tm (Hfacts 0 tm ltac:(by rewrite Htm))).
    unfold outstanding in Hout. rewrite Htm in Hout. simpl in Hout. lia.
  - destruct (earliest_lookup (timers s)) as (k & tm & Hearly & Hk).
    { intros Htm. unfold outstanding in Hout. by rewrite Htm in Hout. }
    assert (tick catalog s
            = step catalog (Fire k (Z.max (clock s) (due tm))) s) as Htick.
    { unfold tick, nextFire. by rewrite Hearly. }
    assert (is_Some (step catalog (Fire k (Z.max (clock s) (due tm))) s)) as [s1 Hstep].
    { simpl. rewrite Hk. rewrite bool_decide_eq_true_2; [done|lia]. }
    destruct (fire_outstanding _ _ _ _ Hinv Hstep) as [Hout1 Hlen1].
    destruct (IH s1) as (s' & Hticks & Hnone & Hinv' & Hlen');
      [by eapply step_any|lia|].
    exists s'. split; [|split; [done|split; [done|congruence]]].
    change (tick catalog s ≫= ticks catalog n = Some s').
    by rewrite Htick, Hstep.
Qed.
End Drain.

(** X15. Every activation runs to its end, whatever came in between:
    in any state the component can get into, with any number of
    activations on top of each other, the timers still to come are
    counted by [outstanding]: at most one timer more than twice the
    number of steps for each outstanding timer; as long as the
    component is not activated again every timer that fires, early or
    late, takes one off the count and starts no run; and with punctual
    timers exactly that many firings leave no timer outstanding and
    every activation with exactly one call of [onComplete]. *)
Theorem activations_all_complete catalog sched s :
  exec catalog sched mounted = Some s →
  outstanding catalog s ≤ (2 * length catalog + 1) * length (timers s)
  ∧ (∀ rest s', forallb keepsInactive rest = true → exec catalog rest s = Some s' →
       outstanding catalog s' + firings rest = outstanding catalog s
       ∧ length (closures s') = length (closures s))
  ∧ ∃ s', ticks catalog (outstanding catalog s) s = Some s'
          ∧ timers s' = []
          ∧ length (closures s') = length (closures s)
          ∧ ∀ run, run < length (closures s) → callsBy run s' = 1.
Proof.
  intros Hexec.
  pose proof (exec_any catalog sched _ _ (mounted_any catalog) Hexec) as Hinv.
  split; [|split].
  - destruct Hinv as (_ & Hfacts & _). unfold outstanding.
    revert Hfacts. generalize (timers s) as queue.
    induction queue as [|tm rest IH]; intros Hfacts; simpl; [lia|].
    pose proof (remaining_bounds catalog s tm (Hfacts 0 tm eq_refl)).
    specialize (IH (λ j, Hfacts (S j))). lia.
  - intros rest s'. by apply hidden_outstanding.
  - destruct (drain catalog _ s Hinv eq_refl) as (s' & Hticks & Hnone & Hinv' & Hlen).
    exists s'. split; [done|]. split; [done|]. split; [done|].
    intros run Hrun. destruct Hinv' as (Hcount & _). specialize (Hcount run).
    unfold pendingOf in Hcount. rewrite Hnone, Hlen in Hcount. simpl in Hcount.
    by rewrite bool_decide_eq_true_2 in Hcount.
Qed.

Lemma activations_all_complete_witness :
  outstanding deploymentSteps (reactivatedRun 3)
  ≤ (2 * length deploymentSteps + 1) * length (timers (reactivatedRun 3))
  ∧ (∀ rest s', forallb keepsInactive rest = true →
       exec deploymentSteps rest (reactivatedRun 3) = Some s' →
       outstanding deploymentSteps s' + firings rest
       = outstanding deploymentSteps (reactivatedRun 3)
       ∧ length (closures s') = length (closures (reactivatedRun 3)))
  ∧ ∃ s', ticks deploymentSteps (outstanding deploymentSteps (reactivatedRun 3))
            (reactivatedRun 3) = Some s'
          ∧ timers s' = []
          ∧ length (closures s') = length (closures (reactivatedRun 3))
          ∧ ∀ run, run < length (closures (reactivatedRun 3)) → callsBy run s' = 1.
Proof.
  apply (activations_all_complete deploymentSteps
           [Render 0 demoProps; Render 100 reactivationProps;
            Fire 0 2000; Fire 0 2100; Fire 0 2500]).
  by vm_compute.
Defined.

Example reactivated_outstanding :
  outstanding deploymentSteps (reactivatedRun 0) = 34
  ∧ outstanding deploymentSteps (reactivatedRun 3) = 31
  ∧ length (closures (reactivatedRun 34)) = 2
  ∧ timers (reactivatedRun 34) = []
  ∧ calls (reactivatedRun 34) = [(1, completionPayload); (2, completionPayload)].
Proof. by vm_compute. Qed.

(** ** A run on its own *)

Lemma firings_app sched1 sched2 :
  firings (sched1 ++ sched2) = firings sched1 + firings sched2.
Proof. induction sched1 as [|[] sched1 IH]; simpl; lia. Qed.

Lemma fires_app sched1 sched2 : fires (sched1 ++ sched2) = fires sched1 ++ fires sched2.
Proof. induction sched1 as [|[] sched1 IH]; simpl; by rewrite ?IH. Qed.

Lemma firings_fires sched : firings (fires sched) = firings sched.
Proof. induction sched as [|[] sched IH]; simpl; by rewrite ?IH. Qed.

Lemma fires_keepsDeps d sched : forallb (keepsDeps d) (fires sched) = true.
Proof. induction sched as [|[] sched IH]; simpl; done. Qed.

Lemma uninterrupted_undisturbed d sched :
  forallb (keepsDeps d) sched = true → undisturbed d sched = true.
Proof.
  induction sched as [|[t props|k t] sched IH]; simpl; [done| |done].
  intros [He Hrest]%andb_prop. rewrite He. simpl.
  apply bool_decide_eq_true_1 in He. rewrite He. by apply IH.
Qed.

Lemma undisturbed_app d sched1 sched2 :
  undisturbed d (sched1 ++ sched2) = true → undisturbed d sched1 = true.
Proof.
  revert d. induction sched1 as [|[t props|k t] sched1 IH]; intros d; simpl; [done| |by apply IH].
  intros [He Hrest]%andb_prop. rewrite He. simpl. by eapply IH.
Qed.

Lemma step_clock catalog e s s' : step catalog e s = Some s' → (clock s ≤ clock s')%Z.
Proof.
  destruct e as [t props|k t]; simpl.
  - case_bool_decide; [|done]. intros [= <-].
    unfold render. case_bool_decide; [done|].
    unfold effect. destruct (isActive props); simpl; [|done].
    unfold processStep. simpl.
    destruct (_ !! _) as [c|]; [|done]. case_bool_decide; [done|].
    by destruct (catalog !! stepIndex c).
  - destruct (timers s !! k) as [tm|]; [|done]. case_bool_decide as Ht; [|done].
    intros [= <-]. destruct (callback tm) as [run eid|run|run]; simpl.
    + lia.
    + unfold processStep. simpl. destruct (closures s !! run) as [c|]; simpl; [|lia].
      case_bool_decide; simpl; [lia|]. destruct (catalog !! stepIndex c); simpl; lia.
    + destruct (closures s !! run); simpl; lia.
Qed.

Lemma exec_clock catalog sched : ∀ s s',
  exec catalog sched s = Some s' → (clock s ≤ clock s')%Z.
Proof.
  induction sched as [|e sched IH]; intros s s' Hexec; simpl in Hexec.
  - injection Hexec as <-. lia.
  - destruct (step catalog e s) as [s1|] eqn:Hstep; [|done]. simpl in Hexec.
    apply step_clock in Hstep. apply IH in Hexec. lia.
Qed.

Section Mirror.
Variable catalog : list Step.t.
Variable pre : list Closure.
Variable tpre : list Occurrence.

Lemma processStep_embed d run s0 :
  processStep catalog (length pre + run) (embed pre tpre d s0)
  = embed pre tpre d (processStep catalog run s0).
Proof.
  destruct s0 as [lg cur cls tms ck tr dp]. unfold processStep, embed. simpl.
  rewrite lookup_app_r by lia.
  replace (length pre + run - length pre) with run by lia.
  destruct (cls !! run) as [c|]; [|done].
  case_bool_decide.
  - unfold setTimeout, setTimers. simpl. by rewrite fmap_app.
  - destruct (catalog !! stepIndex c) as [step|]; [|done].
    unfold setTimeout, setTimers, setCurrentStep, setLogs, emit. simpl.
    by rewrite !fmap_app, app_assoc.
Qed.

Lemma runCallback_embed d cb s0 :
  runCallback catalog (shiftCallback (length pre) cb) (embed pre tpre d s0)
  = embed pre tpre d (runCallback catalog cb s0).
Proof.
  destruct cb as [run entryId|run|run]; simpl.
  - destruct s0 as [lg cur cls tms ck tr dp].
    unfold setTimeout, setTimers, incrStepIndex, setClosures, setLogs, emit, embed. simpl.
    by rewrite !fmap_app, app_assoc, alter_app_r.
  - apply processStep_embed.
  - destruct s0 as [lg cur cls tms ck tr dp]. unfold embed. simpl.
    rewrite lookup_app_r by lia.
    replace (length pre + run - length pre) with run by lia.
    destruct (cls !! run) as [c|]; [|done].
    unfold emit. simpl. by rewrite fmap_app, app_assoc.
Qed.

Lemma mirrors_embed d s0 s :
  mirrors pre tpre s0 s → clock s = clock s0 → deps s = d → s = embed pre tpre d s0.
Proof.
  destruct s as [lg cur cls tms ck tr dp], s0 as [lg0 cur0 cls0 tms0 ck0 tr0 dp0].
  unfold mirrors, embed. simpl. intros (-> & -> & -> & -> & -> & _) -> ->. done.
Qed.

Lemma embed_mirrors d s0 : mirrors pre tpre s0 (embed pre tpre d s0).
Proof. unfold mirrors, embed. simpl. repeat split; lia || done. Qed.

(** A timer of the embedded run fires as in the fresh component. *)
Lemma mirrors_fire k t s0 s s' :
  mirrors pre tpre s0 s →
  step catalog (Fire k t) s = Some s' →
  ∃ s0', step catalog (Fire k t) s0 = Some s0' ∧ mirrors pre tpre s0' s'.
Proof.
  intros Hm Hstep. pose proof Hm as (Hlg & Hcur & Hcls & Htms & Htr & Hck).
  simpl in Hstep |- *. rewrite Htms, list_lookup_fmap in Hstep.
  destruct (timers s0 !! k) as [tm|]; [|done]. simpl in Hstep.
  case_bool_decide as Ht; [|done]. injection Hstep as <-.
  rewrite bool_decide_eq_true_2 by lia.
  eexists. split; [done|].
  rewrite (mirrors_embed (deps s) (setClock t (setTimers (delete k) s0))
             (setClock t (setTimers (delete k) s))).
  - change (callback (shiftTimer (length pre) tm))
      with (shiftCallback (length pre) (callback tm)).
    rewrite runCallback_embed. apply embed_mirrors.
  - unfold mirrors. simpl. rewrite Htms, list_fmap_delete. repeat split; lia || done.
  - done.
  - done.
Qed.

(** A render that starts no run leaves the embedded run as it is. *)
Lemma mirrors_render t props d s0 s s' :
  mirrors pre tpre s0 s →
  deps s = Some d →
  bool_decide ((isActive props, onComplete props) = d) || negb (isActive props) = true →
  step catalog (Render t props) s = Some s' →
  mirrors pre tpre s0 s' ∧ deps s' = Some (isActive props, onComplete props).
Proof.
  intros (Hlg & Hcur & Hcls & Htms & Htr & Hck) Hd Hok Hstep. simpl in Hstep.
  case_bool_decide as Ht; [|done]. injection Hstep as <-.
  unfold render. simpl. rewrite Hd.
  destruct (decide (Some d = Some (isActive props, onComplete props))) as [Hsame|Hsame].
  - rewrite bool_decide_eq_true_2 by done.
    simpl. split; [|congruence]. unfold mirrors. simpl. repeat split; lia || done.
  - rewrite bool_decide_eq_false_2 by done.
    unfold effect. destruct (isActive props).
    + apply orb_prop in Hok as [Hok|?]; [|done].
      apply bool_decide_eq_true_1 in Hok. congruence.
    + simpl. split; [|done]. unfold mirrors. simpl. repeat split; lia || done.
Qed.

Lemma mirrors_exec sched : ∀ d s0 s s',
  mirrors pre tpre s0 s →
  deps s = Some d →
  undisturbed d sched = true →
  exec catalog sched s = Some s' →
  ∃ s0', exec catalog (fires sched) s0 = Some s0' ∧ mirrors pre tpre s0' s'.
Proof.
  induction sched as [|e sched IH]; intros d s0 s s' Hm Hd Hun Hexec; simpl in Hexec.
  - injection Hexec as <-. by exists s0.
  - destruct (step catalog e s) as [s1|] eqn:Hstep; [|done]. simpl in Hexec.
    destruct e as [t props|k t]; simpl in Hun.
    + apply andb_prop in Hun as [Hok Hun].
      destruct (mirrors_render _ _ _ _ _ _ Hm Hd Hok Hstep) as [Hm1 Hd1].
      simpl. by eapply IH.
    + destruct (mirrors_fire _ _ _ _ _ Hm Hstep) as (s0' & Hstep0 & Hm1).
      assert (deps s1 = Some d) as Hd1.
      { clear -Hstep Hd. simpl in Hstep.
        destruct (timers s !! k) as [tm|]; [|done]. case_bool_decide; [|done].
        injection Hstep as <-. rewrite <- Hd.
        destruct (callback tm) as [run eid|run|run]; simpl; [done| |].
        - unfold processStep. simpl. destruct (closures s !! run) as [c|]; [|done].
          case_bool_decide; [done|]. by destruct (catalog !! stepIndex c).
        - by destruct (closures s !! run). }
      destruct (IH _ _ _ _ Hm1 Hd1 Hun Hexec) as (s0'' & Hexec0 & Hm').
      exists s0''. split; [|done].
      change (step catalog (Fire k t) s0 ≫= exec catalog (fires sched) = Some s0'').
      by rewrite Hstep0.
Qed.
End Mirror.

(** The run started on a component with no timer outstanding is the
    run of a fresh component with the timers of the schedule, embedded
    behind the earlier effect invocations and actions. *)
Lemma isolated_run catalog before s_pre props t0 sched s :
  exec catalog before mounted = Some s_pre →
  timers s_pre = [] →
  isActive props = true →
  deps s_pre ≠ Some (true, onComplete props) →
  undisturbed (true, onComplete props) sched = true →
  exec catalog (Render t0 props :: sched) s_pre = Some s →
  ∃ s0, exec catalog (Render t0 props :: fires sched) mounted = Some s0
        ∧ mirrors (closures s_pre) (trace s_pre) s0 s.
Proof.
  intros Hpre Hnone Hact Hdeps Hun Hexec.
  change (step catalog (Render t0 props) s_pre ≫= exec catalog sched = Some s) in Hexec.
  destruct (step catalog (Render t0 props) s_pre) as [s1|] eqn:Hstep; [|done].
  simpl in Hexec.
  pose proof (exec_clock _ _ _ _ Hpre) as Hck. simpl in Hck.
  assert ((clock s_pre ≤ t0)%Z) as Ht0.
  { simpl in Hstep. by case_bool_decide. }
  destruct (activation_inv catalog (onComplete props) t0 props Hact eq_refl)
    as (s10 & Hstep0 & _); [lia|].
  assert (s1 = embed (closures s_pre) (trace s_pre) (Some (true, onComplete props)) s10)
    as Hs1.
  { simpl in Hstep, Hstep0.
    rewrite bool_decide_eq_true_2 in Hstep by done.
    rewrite bool_decide_eq_true_2 in Hstep0 by lia.
    injection Hstep as <-. injection Hstep0 as <-.
    unfold render. simpl. rewrite Hact.
    rewrite (bool_decide_eq_false_2 (deps s_pre = _)) by done.
    unfold effect. rewrite Hact. simpl.
    rewrite <- (Nat.add_0_r (length (closures s_pre))).
    rewrite <- processStep_embed. f_equal.
    unfold embed, emit, setLogs, setCurrentStep, setClosures, setDeps, setClock. simpl.
    rewrite Hnone. unfold shiftOccurrence. simpl. by rewrite !Nat.add_0_r. }
  destruct (mirrors_exec catalog (closures s_pre) (trace s_pre) sched
              (true, onComplete props) s10 s1 s)
    as (s0 & Hexec0 & Hm); [subst s1; apply embed_mirrors|by subst s1|done..|].
  exists s0. split; [|done].
  change (step catalog (Render t0 props) mounted ≫= exec catalog (fires sched) = Some s0).
  by rewrite Hstep0.
Qed.

Section MirrorFacts.
Variable catalog : list Step.t.
Variable pre : list Closure.
Variable tpre : list Occurrence.

Lemma mirrors_stepIndexOf run s0 s :
  mirrors pre tpre s0 s → stepIndexOf (length pre + run) s = stepIndexOf run s0.
Proof.
  intros (_ & _ & Hcls & _). unfold stepIndexOf. rewrite Hcls, lookup_app_r by lia.
  by replace (length pre + run - length pre) with run by lia.
Qed.

Lemma mirrors_sequencerState h f s0 s :
  mirrors pre tpre s0 s → phase catalog h s0 f →
  sequencerState catalog s = sequencerState catalog s0
  ∧ length (closures s) = S (length pre).
Proof.
  intros (_ & _ & Hcls & _) Hph.
  assert (∃ c, closures s0 = [c]) as [c Hc] by (destruct Hph; eauto).
  unfold sequencerState, currentRun. rewrite Hcls, Hc, length_app. simpl.
  rewrite Nat.add_1_r. simpl. split; [|done].
  rewrite lookup_app_r by lia. by rewrite Nat.sub_diag.
Qed.

(** The punctual environment fires the timer of the embedded run. *)
Lemma mirrors_tick h f s0 s :
  mirrors pre tpre s0 s → run_inv catalog h f s0 → f ≤ 2 * length catalog →
  ∃ s' s0', tick catalog s = Some s' ∧ mirrors pre tpre s0' s'
            ∧ run_inv catalog h (S f) s0'.
Proof.
  intros Hm Hinv Hf.
  assert (∃ tm, timers s0 = [tm]) as [tm Htm].
  { destruct Hinv as [Hph _]. destruct (phase_calls _ _ _ _ Hph) as [(_ & _ & ?)|(? & _)];
      [done|lia]. }
  pose proof Hm as (_ & _ & _ & Htms & _ & Hck). rewrite Htm in Htms. simpl in Htms.
  assert (is_Some (step catalog (Fire 0 (Z.max (clock s) (due tm))) s)) as [s' Hstep].
  { simpl. rewrite Htms. simpl. rewrite bool_decide_eq_true_2; [done|lia]. }
  destruct (mirrors_fire catalog pre tpre _ _ _ _ _ Hm Hstep) as (s0' & Hstep0 & Hm').
  exists s', s0'. split; [|split; [done|]].
  - rewrite <- Hstep. unfold tick, nextFire. by rewrite Htms.
  - destruct (step_inv catalog h f (Fire 0 (Z.max (clock s) (due tm))) _ _ Hinv eq_refl Hstep0)
      as [Hinv' _].
    simpl in Hinv'. by rewrite Nat.add_1_r in Hinv'.
Qed.

Lemma mirrors_ticks h n : ∀ f s0 s,
  mirrors pre tpre s0 s → run_inv catalog h f s0 → f + n ≤ 2 * length catalog + 1 →
  ∃ s' s0', ticks catalog n s = Some s' ∧ mirrors pre tpre s0' s'
            ∧ run_inv catalog h (f + n) s0'.
Proof.
  induction n as [|n IH]; intros f s0 s Hm Hinv Hf.
  - exists s, s0. by rewrite Nat.add_0_r.
  - destruct (mirrors_tick h f s0 s Hm Hinv) as (s1 & s01 & Htick & Hm1 & Hinv1); [lia|].
    destruct (IH (S f) s01 s1 Hm1 Hinv1) as (s' & s0' & Hticks & Hm' & Hinv'); [lia|].
    exists s', s0'. split; [|split; [done|]].
    + change (tick catalog s ≫= ticks catalog n = Some s'). by rewrite Htick.
    + by replace (f + S n) with (S f + n) by lia.
Qed.
End MirrorFacts.

(** Every state of a run on its own: the state of a run of a fresh
    component after as many timers. *)
Lemma isolated_state catalog before s_pre props t0 sched s :
  exec catalog before mounted = Some s_pre →
  timers s_pre = [] →
  isActive props = true →
  deps s_pre ≠ Some (true, onComplete props) →
  undisturbed (true, onComplete props) sched = true →
  exec catalog (Render t0 props :: sched) s_pre = Some s →
  ∃ s0, exec catalog (Render t0 props :: fires sched) mounted = Some s0
        ∧ mirrors (closures s_pre) (trace s_pre) s0 s
        ∧ run_inv catalog (onComplete props) (firings sched) s0.
Proof.
  intros Hpre Hnone Hact Hdeps Hun Hexec.
  destruct (isolated_run _ _ _ _ _ _ _ Hpre Hnone Hact Hdeps Hun Hexec) as (s0 & Hexec0 & Hm).
  exists s0. split; [done|]. split; [done|].
  rewrite <- (firings_fires sched).
  apply (run_state catalog props t0 (fires sched) s0 Hact); [|done].
  apply fires_keepsDeps.
Qed.

(** C1, as stated, fails when a run is re-activated while it is in
    progress: in the recorded re-activation the sequencer is
    [Completed] and the log has 15 entries for the 8 steps, two for
    each step but the first. *)
Lemma completed_log_reactivated :
  exec deploymentSteps [Render 0 demoProps; Render 100 reactivationProps] mounted
    ≫= ticks deploymentSteps 34 = Some (reactivatedRun 34)
  ∧ sequencerState deploymentSteps (reactivatedRun 34) = Completed
  ∧ length (logs (reactivatedRun 34)) = 15
  ∧ length (logs (reactivatedRun 34)) ≠ length deploymentSteps
  ∧ LogEntry.id <$> logs (reactivatedRun 34)
    = ["step-0"; "step-1"; "step-1"; "step-2"; "step-2"; "step-3"; "step-3"; "step-4";
       "step-4"; "step-5"; "step-5"; "step-6"; "step-6"; "step-7"; "step-7"].
Proof. by vm_compute. Qed.

(** C1, amended. A run that starts with no timer outstanding (the
    first run of the component, or a run after the runs before it have
    made their calls), that is not disturbed while it lasts and that has
    reached [Completed] has a log of exactly as many entries as the
    catalog has steps (8 for [deploymentSteps]); entry [i] is the entry
    of step [i] of the catalog, with status [completed]. *)
Theorem completed_run_log catalog before s_pre props t0 sched s :
  exec catalog before mounted = Some s_pre →
  timers s_pre = [] →
  isActive props = true →
  deps s_pre ≠ Some (true, onComplete props) →
  undisturbed (true, onComplete props) sched = true →
  exec catalog (Render t0 props :: sched) s_pre = Some s →
  sequencerState catalog s = Completed →
  length (logs s) = length catalog
  ∧ (∀ i step, catalog !! i = Some step →
       ∃ t, logs s !! i = Some (entryOf i step completed t))
  ∧ Forall (λ log, LogEntry.status log = completed) (logs s)
  ∧ length deploymentSteps = 8.
Proof.
  intros Hpre Hnone Hact Hdeps Hun Hexec Hdone.
  destruct (isolated_state _ _ _ _ _ _ _ Hpre Hnone Hact Hdeps Hun Hexec)
    as (s0 & _ & Hm & Hph & _ & _).
  destruct (mirrors_sequencerState catalog _ _ _ _ _ _ Hm Hph) as [Hseq _].
  rewrite Hseq in Hdone. destruct Hm as (Hlg & _). rewrite Hlg. clear Hseq Hlg.
  destruct (phase_indices _ _ _ _ Hph) as [_ Hix].
  destruct (phase_logs _ _ _ _ Hph) as [Hlen Hlogs].
  assert (length catalog ≤ (firings sched + 1) / 2) as Hf.
  { unfold sequencerState, currentRun, stepIndexOf in *.
    assert (∃ c, closures s0 = [c]) as [c Hc] by (destruct Hph; eauto).
    rewrite Hc in *. simpl in *. case_bool_decide; [done|]. lia. }
  assert (∀ k log, logs s0 !! k = Some log → LogEntry.status log = completed) as Hall.
  { intros k log Hk. destruct (Hlogs k log Hk) as (st & Hst & _ & [?|[_ Hrun]]); [done|].
    apply lookup_lt_Some in Hst. lia. }
  split; [lia|]. split; [|split; [|done]].
  - intros i step Hstep.
    destruct (logs s0 !! i) as [log|] eqn:Hlog.
    + destruct (Hlogs i log Hlog) as (st & Hst & Hlog' & _).
      rewrite (Hall _ _ Hlog) in Hlog'. exists (LogEntry.timestamp log).
      congruence.
    + apply lookup_ge_None in Hlog. apply lookup_lt_Some in Hstep. lia.
  - apply Forall_lookup_2. intros k log Hk. by eapply Hall.
Qed.

Lemma completed_run_log_witness :
  length (logs (secondRun 17)) = length deploymentSteps
  ∧ (∀ i step, deploymentSteps !! i = Some step →
       ∃ t, logs (secondRun 17) !! i = Some (entryOf i step completed t))
  ∧ Forall (λ log, LogEntry.status log = completed) (logs (secondRun 17))
  ∧ length deploymentSteps = 8.
Proof.
  apply (completed_run_log deploymentSteps (Render 0 demoProps :: demoSchedule)
           (demoRun 17) reactivationProps 30000 secondSchedule (secondRun 17)).
  - by vm_compute.
  - by vm_compute.
  - reflexivity.
  - by vm_compute.
  - by vm_compute.
  - by vm_compute.
  - by vm_compute.
Defined.

(** The first run of the component is a run on its own, and so is the
    second one when the first is over. *)
Example secondRun_log :
  length (logs (demoRun 17)) = 8
  ∧ length (closures (secondRun 17)) = 2
  ∧ LogEntry.timestamp <$> logs (secondRun 17)
    = [30000; 32500; 36000; 38500; 43000; 46500; 49500; 53000]%Z
  ∧ calls (secondRun 17) = [(1, completionPayload); (2, completionPayload)].
Proof. by vm_compute. Qed.

(** C4, as stated, fails when a run is re-activated while it is in
    progress: in the recorded re-activation, after four timers, the log
    holds two [running] entries, both for step 1, one before the
    other. *)
Lemma two_running_entries :
  exec deploymentSteps [Render 0 demoProps; Render 100 reactivationProps] mounted
    ≫= ticks deploymentSteps 4 = Some (reactivatedRun 4)
  ∧ LogEntry.status <$> logs (reactivatedRun 4) = [completed; running; running]
  ∧ LogEntry.id <$> logs (reactivatedRun 4) = ["step-0"; "step-1"; "step-1"]
  ∧ ¬ (∀ k1 k2 log1 log2,
         logs (reactivatedRun 4) !! k1 = Some log1 →
         logs (reactivatedRun 4) !! k2 = Some log2 →
         LogEntry.status log1 = running → LogEntry.status log2 = running →
         k1 = k2).
Proof.
  split; [by vm_compute|]. split; [by vm_compute|]. split; [by vm_compute|].
  intros Hone.
  destruct (logs (reactivatedRun 4) !! 1) as [log1|] eqn:H1; [|by vm_compute in H1].
  destruct (logs (reactivatedRun 4) !! 2) as [log2|] eqn:H2; [|by vm_compute in H2].
  assert (1 = 2); [|done].
  apply (Hone 1 2 log1 log2 H1 H2).
  - vm_compute in H1. by injection H1 as <-.
  - vm_compute in H2. by injection H2 as <-.
Qed.

(** C4, amended. In any execution at all, an entry is appended with
    status [running] and every entry of the log is [running] or
    [completed] (never [pending], never [error]). In a run that starts
    with no timer outstanding and is not disturbed while it lasts, an
    entry that is [running] is the last of the log and every entry
    before it is [completed]; so no two entries are [running] and no
    step after the running one has an entry. *)
Theorem status_invariant catalog before s_pre props t0 sched s :
  exec catalog before mounted = Some s_pre →
  timers s_pre = [] →
  isActive props = true →
  deps s_pre ≠ Some (true, onComplete props) →
  undisturbed (true, onComplete props) sched = true →
  exec catalog (Render t0 props :: sched) s_pre = Some s →
  (∀ anySched s', exec catalog anySched mounted = Some s' →
     (∀ o logEntry, o ∈ trace s' → action o = Appended logEntry →
        LogEntry.status logEntry = running)
     ∧ (∀ log, log ∈ logs s' →
        LogEntry.status log = running ∨ LogEntry.status log = completed))
  ∧ (∀ k log, logs s !! k = Some log → LogEntry.status log = running →
       LogEntry.id log = stepId k
       ∧ length (logs s) = S k
       ∧ ∀ j log', j < k → logs s !! j = Some log' → LogEntry.status log' = completed)
  ∧ (∀ k1 k2 log1 log2,
       logs s !! k1 = Some log1 → logs s !! k2 = Some log2 →
       LogEntry.status log1 = running → LogEntry.status log2 = running →
       k1 = k2).
Proof.
  intros Hpre Hnone Hact Hdeps Hun Hexec.
  destruct (isolated_state _ _ _ _ _ _ _ Hpre Hnone Hact Hdeps Hun Hexec)
    as (s0 & _ & (Hlg & _) & Hph & _ & _).
  rewrite Hlg. clear Hlg.
  destruct (run_log_shape _ _ _ _ Hph) as [Hshape _].
  split; [|split].
  - intros anySched s' Hexec'.
    destruct (exec_lawful catalog anySched mounted s') as [Htr Hlg]; [by constructor..|done|].
    split.
    + intros o logEntry Ho Ha. rewrite Forall_forall in Htr.
      specialize (Htr o Ho). unfold lawful in Htr. by rewrite Ha in Htr.
    + intros log Hlog. rewrite Forall_forall in Hlg. by apply Hlg.
  - intros k log Hk Hrun. destruct (Hshape k log Hk Hrun) as [Hlen Hbefore].
    split; [|done].
    destruct (phase_logs _ _ _ _ Hph) as [_ Hlogs].
    destruct (Hlogs k log Hk) as (st & _ & -> & _). done.
  - intros k1 k2 log1 log2 H1 H2 Hr1 Hr2.
    destruct (Hshape k1 log1 H1 Hr1) as [Hlen1 _].
    destruct (Hshape k2 log2 H2 Hr2) as [Hlen2 _]. lia.
Qed.

Lemma status_invariant_witness :
  (∀ anySched s', exec deploymentSteps anySched mounted = Some s' →
     (∀ o logEntry, o ∈ trace s' → action o = Appended logEntry →
        LogEntry.status logEntry = running)
     ∧ (∀ log, log ∈ logs s' →
        LogEntry.status log = running ∨ LogEntry.status log = completed))
  ∧ (∀ k log, logs (secondRun 4) !! k = Some log → LogEntry.status log = running →
       LogEntry.id log = stepId k
       ∧ length (logs (secondRun 4)) = S k
       ∧ ∀ j log', j < k → logs (secondRun 4) !! j = Some log' →
                   LogEntry.status log' = completed)
  ∧ (∀ k1 k2 log1 log2,
       logs (secondRun 4) !! k1 = Some log1 → logs (secondRun 4) !! k2 = Some log2 →
       LogEntry.status log1 = running → LogEntry.status log2 = running →
       k1 = k2).
Proof.
  apply (status_invariant deploymentSteps (Render 0 demoProps :: demoSchedule)
           (demoRun 17) reactivationProps 30000 (take 4 secondSchedule) (secondRun 4)).
  - by vm_compute.
  - by vm_compute.
  - reflexivity.
  - by vm_compute.
  - by vm_compute.
  - by vm_compute.
Defined.

(** The log of the second recorded run after four timers: two
    completed entries and the running one. *)
Example secondRun_4_statuses :
  LogEntry.status <$> logs (secondRun 4) = [completed; completed; running].
Proof. by vm_compute. Qed.

(** ** The step counter of a run, in any execution *)

Lemma processStep_closures catalog run s :
  closures (processStep catalog run s) = closures s.
Proof.
  unfold processStep. destruct (closures s !! run) as [c|]; [|done].
  case_bool_decide; [done|]. by destruct (catalog !! stepIndex c).
Qed.

(** No event takes the counter of a run back, or past the length of
    the catalog. *)
Lemma step_stepIndexOf catalog e s s' run :
  any_inv catalog s → step catalog e s = Some s' →
  stepIndexOf run s ≤ stepIndexOf run s'
  ∧ (stepIndexOf run s ≤ length catalog → stepIndexOf run s' ≤ length catalog).
Proof.
  intros Hinv Hstep. destruct e as [t props|k t]; simpl in Hstep.
  - case_bool_decide; [|done]. injection Hstep as <-.
    unfold render. case_bool_decide; [done|].
    unfold effect. destruct (isActive props); simpl; [|done].
    unfold stepIndexOf. rewrite processStep_closures. simpl.
    destruct (decide (run < length (closures s))) as [Hlt|Hge].
    + by rewrite lookup_app_l.
    + rewrite (lookup_ge_None_2 (closures s)) by lia. simpl. split; [lia|].
      intros _. rewrite lookup_app_r by lia.
      destruct (run - length (closures s)) as [|j]; simpl; lia.
  - destruct (timers s !! k) as [tm|] eqn:Hk; [|done].
    case_bool_decide; [|done]. injection Hstep as <-.
    destruct Hinv as (_ & Hfacts & _). specialize (Hfacts k tm Hk).
    unfold timer_fact in Hfacts. unfold stepIndexOf.
    destruct (callback tm) as [run' eid|run'|run']; simpl.
    + destruct Hfacts as (c & Hc & Hlt & _).
      destruct (decide (run = run')) as [->|Hne].
      * rewrite list_lookup_alter_eq, Hc. simpl. lia.
      * by rewrite list_lookup_alter_ne.
    + by rewrite processStep_closures.
    + by destruct (closures s !! run').
Qed.

Lemma exec_stepIndexOf catalog run rest : ∀ s s',
  any_inv catalog s → exec catalog rest s = Some s' →
  stepIndexOf run s ≤ stepIndexOf run s'
  ∧ (stepIndexOf run s ≤ length catalog → stepIndexOf run s' ≤ length catalog).
Proof.
  induction rest as [|e rest IH]; intros s s' Hinv Hexec; simpl in Hexec.
  - by injection Hexec as <-.
  - destruct (step catalog e s) as [s1|] eqn:Hstep; [|done]. simpl in Hexec.
    destruct (step_stepIndexOf catalog e s s1 run Hinv Hstep) as [Hle1 Hb1].
    destruct (IH s1 s' (step_any catalog e s s1 Hinv Hstep) Hexec) as [Hle2 Hb2].
    split; [lia|]. intros Hb. apply Hb2, Hb1, Hb.
Qed.

(** C5, as stated, fails on [currentStep]. It never equals the length
    of the catalog: in no state of the first run over
    [deploymentSteps] does it, it ends at 7. And it does not only
    increase when a run is re-activated while it is in progress: in the
    recorded late re-activation the timer of the first run sets it to
    3 and the next timer, of the second run, sets it back to 1. *)
Lemma currentStep_stops_short :
  (∀ sched s,
     uninterrupted demoProps sched = true →
     exec deploymentSteps (Render 0 demoProps :: sched) mounted = Some s →
     currentStep s ≠ length deploymentSteps)
  ∧ timers (demoRun 17) = []
  ∧ currentStep (demoRun 17) = 7
  ∧ length deploymentSteps = 8
  ∧ exec deploymentSteps
      (Render 0 demoProps :: take 4 demoSchedule ++ [Render 6100 reactivationProps])
      mounted
    ≫= ticks deploymentSteps 3 = Some (lateReactivation 3)
  ∧ tick deploymentSteps (lateReactivation 3) = Some (lateReactivation 4)
  ∧ currentStep (lateReactivation 3) = 3
  ∧ currentStep (lateReactivation 4) = 1.
Proof.
  split; [|by vm_compute].
  intros sched s Hun Hexec.
  destruct (run_state deploymentSteps demoProps _ _ _ eq_refl Hun Hexec) as (Hph & _ & _).
  apply phase_indices in Hph as [Hcur _]. rewrite Hcur.
  change (length deploymentSteps) with 8. lia.
Qed.

(** C5, amended. In any execution at all, the counter [stepIndex] of a
    run never decreases and never exceeds the number [N] of steps of
    the catalog. In a run that starts with no timer outstanding and is
    not disturbed while it lasts, after [f] timers [stepIndex] is
    [min ((f+1)/2) N] and [currentStep] is [min (f/2) (N-1)]: both
    start at 0 and never decrease, [currentStep] is [stepIndex] or one
    less and stops at [N-1], [stepIndex] stops at [N]. Once
    [stepIndex] is [N] the sequencer is [Completed] and the log and
    both indices stay as they are; and from every state of the run the
    punctual environment gets [stepIndex] to [N]. *)
Theorem step_indices catalog before s_pre props t0 sched1 sched2 s1 s2 :
  exec catalog before mounted = Some s_pre →
  timers s_pre = [] →
  isActive props = true →
  deps s_pre ≠ Some (true, onComplete props) →
  undisturbed (true, onComplete props) (sched1 ++ sched2) = true →
  exec catalog (Render t0 props :: sched1) s_pre = Some s1 →
  exec catalog sched2 s1 = Some s2 →
  (∀ anySched rest sA sB run,
     exec catalog anySched mounted = Some sA → exec catalog rest sA = Some sB →
     stepIndexOf run sA ≤ stepIndexOf run sB ≤ length catalog)
  ∧ (∃ s0, step catalog (Render t0 props) s_pre = Some s0
         ∧ currentStep s0 = 0 ∧ stepIndexOf (length (closures s_pre)) s0 = 0)
  ∧ stepIndexOf (length (closures s_pre)) s1
    = ((firings sched1 + 1) / 2) `min` length catalog
  ∧ currentStep s1 = (firings sched1 / 2) `min` pred (length catalog)
  ∧ currentStep s1 ≤ currentStep s2
  ∧ stepIndexOf (length (closures s_pre)) s1 ≤ stepIndexOf (length (closures s_pre)) s2
  ∧ currentStep s1 ≤ stepIndexOf (length (closures s_pre)) s1 ≤ S (currentStep s1)
  ∧ (stepIndexOf (length (closures s_pre)) s1 = length catalog →
       sequencerState catalog s1 = Completed
       ∧ logs s2 = logs s1
       ∧ currentStep s2 = currentStep s1
       ∧ stepIndexOf (length (closures s_pre)) s2 = length catalog)
  ∧ (∃ n s', ticks catalog n s1 = Some s'
             ∧ stepIndexOf (length (closures s_pre)) s' = length catalog).
Proof.
  intros Hpre Hnone Hact Hdeps Hun Hexec1 Hexec2.
  split.
  { intros anySched rest sA sB run HA HB.
    pose proof (exec_any catalog anySched _ _ (mounted_any catalog) HA) as HinvA.
    destruct (exec_stepIndexOf catalog run anySched _ _ (mounted_any catalog) HA)
      as [_ HboundA].
    destruct (exec_stepIndexOf catalog run rest _ _ HinvA HB) as [Hmono HboundB].
    split; [done|]. apply HboundB, HboundA. unfold stepIndexOf. simpl. lia. }
  assert (exec catalog (Render t0 props :: sched1 ++ sched2) s_pre = Some s2) as Hexec12.
  { change (Render t0 props :: sched1 ++ sched2)
      with ((Render t0 props :: sched1) ++ sched2).
    by rewrite exec_app, Hexec1. }
  destruct (isolated_state _ _ _ _ _ _ _ Hpre Hnone Hact Hdeps
              (undisturbed_app _ _ _ Hun) Hexec1) as (s01 & Hrun1 & Hm1 & Hinv1).
  destruct (isolated_state _ _ _ _ _ _ _ Hpre Hnone Hact Hdeps Hun Hexec12)
    as (s02 & Hrun2 & Hm2 & Hinv2).
  assert (exec catalog (fires sched2) s01 = Some s02) as Hrest.
  { rewrite fires_app in Hrun2.
    change (Render t0 props :: fires sched1 ++ fires sched2)
      with ((Render t0 props :: fires sched1) ++ fires sched2) in Hrun2.
    by rewrite exec_app, Hrun1 in Hrun2. }
  destruct (exec_inv catalog (onComplete props) (fires sched2) _ _ _ Hinv1
              (fires_keepsDeps _ _) Hrest) as [_ Hframe].
  rewrite firings_app in Hinv2.
  pose proof (mirrors_stepIndexOf _ _ 0 _ _ Hm1) as Hix1'.
  pose proof (mirrors_stepIndexOf _ _ 0 _ _ Hm2) as Hix2'.
  rewrite Nat.add_0_r in Hix1', Hix2'. rewrite Hix1', Hix2'.
  destruct (mirrors_sequencerState catalog _ _ _ _ _ _ Hm1 (proj1 Hinv1)) as [Hseq _].
  pose proof Hm1 as (Hlg1 & Hcs1 & _). pose proof Hm2 as (Hlg2 & Hcs2 & _).
  rewrite Hseq, Hlg1, Hlg2, Hcs1, Hcs2.
  destruct Hinv1 as (Hph1 & Hd1 & Ho1), Hinv2 as (Hph2 & _ & _).
  destruct (phase_indices _ _ _ _ Hph1) as [Hcur1 Hi1].
  destruct (phase_indices _ _ _ _ Hph2) as [Hcur2 Hi2].
  assert (firings sched1 ≤ 2 * length catalog + 1) as Hf1
    by (destruct (phase_calls _ _ _ _ Hph1) as [(? & _)|(? & _)]; lia).
  assert (firings sched1 + firings sched2 ≤ 2 * length catalog + 1) as Hf2
    by (destruct (phase_calls _ _ _ _ Hph2) as [(? & _)|(? & _)]; lia).
  split; [|split; [done|split; [done|split; [lia|split; [lia|split; [lia|split]]]]]].
  - change (step catalog (Render t0 props) s_pre ≫= exec catalog sched1 = Some s1)
      in Hexec1.
    destruct (step catalog (Render t0 props) s_pre) as [s0|] eqn:Hstep; [|done].
    exists s0. split; [done|].
    assert (exec catalog [Render t0 props] s_pre = Some s0) as Hexec0.
    { change (step catalog (Render t0 props) s_pre ≫= exec catalog [] = Some s0).
      by rewrite Hstep. }
    destruct (isolated_state catalog before s_pre props t0 [] s0 Hpre Hnone Hact Hdeps
                eq_refl Hexec0) as (s00 & Hrun0 & Hm0 & Hph0 & _).
    pose proof (mirrors_stepIndexOf _ _ 0 _ _ Hm0) as Hix0.
    rewrite Nat.add_0_r in Hix0. rewrite Hix0.
    destruct Hm0 as (_ & -> & _).
    apply phase_indices in Hph0 as [-> ->]. simpl. split; [|done].
    by destruct (pred (length catalog)).
  - intros HN. split; [|split; [apply Hframe; lia|lia]].
    unfold sequencerState, currentRun. unfold stepIndexOf in HN.
    assert (∃ c, closures s01 = [c]) as [c Hc] by (destruct Hph1; eauto).
    rewrite Hc in HN |- *. simpl in HN |- *. case_bool_decide; [lia|done].
  - destruct (mirrors_ticks catalog (closures s_pre) (trace s_pre) (onComplete props)
                (2 * length catalog + 1 - firings sched1) (firings sched1) s01 s1)
      as (s' & s0' & Hticks & Hm' & Hph' & _); [done|by split|lia|].
    exists (2 * length catalog + 1 - firings sched1), s'. split; [done|].
    pose proof (mirrors_stepIndexOf _ _ 0 _ _ Hm') as Hix'.
    rewrite Nat.add_0_r in Hix'. rewrite Hix'.
    apply phase_indices in Hph' as [_ ->]. lia.
Qed.

Lemma step_indices_witness :
  (∀ anySched rest sA sB run,
     exec deploymentSteps anySched mounted = Some sA →
     exec deploymentSteps rest sA = Some sB →
     stepIndexOf run sA ≤ stepIndexOf run sB ≤ length deploymentSteps)
  ∧ (∃ s0, step deploymentSteps (Render 30000 reactivationProps) (demoRun 17) = Some s0
         ∧ currentStep s0 = 0 ∧ stepIndexOf (length (closures (demoRun 17))) s0 = 0)
  ∧ stepIndexOf (length (closures (demoRun 17))) (secondRun 5)
    = ((firings (take 5 secondSchedule) + 1) / 2) `min` length deploymentSteps
  ∧ currentStep (secondRun 5)
    = (firings (take 5 secondSchedule) / 2) `min` pred (length deploymentSteps)
  ∧ currentStep (secondRun 5) ≤ currentStep (secondRun 17)
  ∧ stepIndexOf (length (closures (demoRun 17))) (secondRun 5)
    ≤ stepIndexOf (length (closures (demoRun 17))) (secondRun 17)
  ∧ currentStep (secondRun 5) ≤ stepIndexOf (length (closures (demoRun 17))) (secondRun 5)
    ≤ S (currentStep (secondRun 5))
  ∧ (stepIndexOf (length (closures (demoRun 17))) (secondRun 5) = length deploymentSteps →
       sequencerState deploymentSteps (secondRun 5) = Completed
       ∧ logs (secondRun 17) = logs (secondRun 5)
       ∧ currentStep (secondRun 17) = currentStep (secondRun 5)
       ∧ stepIndexOf (length (closures (demoRun 17))) (secondRun 17)
         = length deploymentSteps)
  ∧ (∃ n s', ticks deploymentSteps n (secondRun 5) = Some s'
             ∧ stepIndexOf (length (closures (demoRun 17))) s' = length deploymentSteps).
Proof.
  apply (step_indices deploymentSteps (Render 0 demoProps :: demoSchedule)
           (demoRun 17) reactivationProps 30000
           (take 5 secondSchedule) (drop 5 secondSchedule) (secondRun 5) (secondRun 17)).
  - by vm_compute.
  - by vm_compute.
  - reflexivity.
  - by vm_compute.
  - by vm_compute.
  - by vm_compute.
  - by vm_compute.
Defined.

(** The indices of the second recorded run after five timers and at
    its end. *)
Example secondRun_indices :
  stepIndexOf 1 (secondRun 5) = 3 ∧ currentStep (secondRun 5) = 2
  ∧ stepIndexOf 1 (secondRun 17) = 8 ∧ currentStep (secondRun 17) = 7.
Proof. by vm_compute. Qed.

(** ** The view and the times of a run on its own *)

(** X3. In a run that starts with no timer outstanding and is not
    disturbed while it lasts, over a catalog that is not empty, the
    badge counts the rows shown: its first number is the number of log
    entries, it is at least 1 and at most the number of steps, and it
    is the number of steps once the sequencer is [Completed]. Over an
    empty catalog the badge reads 1 / 0. *)
Theorem badge_counts_rows catalog before s_pre props t0 sched s :
  exec catalog before mounted = Some s_pre →
  timers s_pre = [] →
  isActive props = true →
  deps s_pre ≠ Some (true, onComplete props) →
  undisturbed (true, onComplete props) sched = true →
  exec catalog (Render t0 props :: sched) s_pre = Some s →
  (catalog ≠ [] →
     (badge catalog s).1 = length (logs s)
     ∧ 1 ≤ (badge catalog s).1 ≤ (badge catalog s).2
     ∧ (sequencerState catalog s = Completed → (badge catalog s).1 = (badge catalog s).2))
  ∧ (catalog = [] → badge catalog s = (1, 0)).
Proof.
  intros Hpre Hnone Hact Hdeps Hun Hexec.
  destruct (isolated_state _ _ _ _ _ _ _ Hpre Hnone Hact Hdeps Hun Hexec)
    as (s0 & _ & Hm & Hph & _ & _).
  destruct (mirrors_sequencerState catalog _ _ _ _ _ _ Hm Hph) as [Hseq _].
  destruct Hm as (Hlg & Hcs & _).
  unfold badge. simpl. rewrite Hseq, Hlg, Hcs. clear Hseq Hlg Hcs.
  destruct (phase_indices _ _ _ _ Hph) as [Hcur Hix].
  destruct (phase_logs _ _ _ _ Hph) as [Hlen _].
  split.
  - intros Hne. assert (0 < length catalog) by (destruct catalog; [done|simpl; lia]).
    split; [lia|]. split; [lia|].
    intros Hdone. unfold sequencerState, currentRun, stepIndexOf in *.
    assert (∃ c, closures s0 = [c]) as [c Hc] by (destruct Hph; eauto).
    rewrite Hc in Hix, Hdone. cbn -[Nat.div Nat.mul Nat.min] in Hix, Hdone.
    case_bool_decide; [done|]. lia.
  - intros ->. cbn [length] in *. f_equal. lia.
Qed.

Lemma badge_counts_rows_witness :
  (deploymentSteps ≠ [] →
     (badge deploymentSteps (secondRun 6)).1 = length (logs (secondRun 6))
     ∧ 1 ≤ (badge deploymentSteps (secondRun 6)).1 ≤ (badge deploymentSteps (secondRun 6)).2
     ∧ (sequencerState deploymentSteps (secondRun 6) = Completed →
        (badge deploymentSteps (secondRun 6)).1 = (badge deploymentSteps (secondRun 6)).2))
  ∧ (deploymentSteps = [] → badge deploymentSteps (secondRun 6) = (1, 0)).
Proof.
  apply (badge_counts_rows deploymentSteps (Render 0 demoProps :: demoSchedule)
           (demoRun 17) reactivationProps 30000 (take 6 secondSchedule) (secondRun 6)).
  - by vm_compute.
  - by vm_compute.
  - reflexivity.
  - by vm_compute.
  - by vm_compute.
  - by vm_compute.
Defined.

(** The badge of the recorded runs, and of the recorded re-activation,
    where it falls behind the rows. *)
Example badge_demo :
  badge deploymentSteps (demoRun 0) = (1, 8)
  ∧ badge deploymentSteps (demoRun 6) = (4, 8)
  ∧ badge deploymentSteps (demoRun 17) = (8, 8)
  ∧ badge deploymentSteps (secondRun 6) = (4, 8)
  ∧ badge deploymentSteps (reactivatedRun 4) = (2, 8)
  ∧ length (logs (reactivatedRun 4)) = 3.
Proof. by vm_compute. Qed.

(** The times of the first run of a component, however late its timers
    fire. *)
Lemma run_times_bound catalog props t0 sched s :
  isActive props = true →
  uninterrupted props sched = true →
  exec catalog (Render t0 props :: sched) mounted = Some s →
  (∀ k log, logs s !! k = Some log →
     (t0 + startOf catalog k ≤ LogEntry.timestamp log)%Z)
  ∧ (∀ o i step, o ∈ trace s → action o = Marked (stepId i) → catalog !! i = Some step →
     (t0 + startOf catalog i + Z.max 0 (Step.duration step) ≤ at_time o)%Z)
  ∧ (∀ o h r, o ∈ trace s → action o = Called h r →
     (t0 + runLength catalog ≤ at_time o)%Z).
Proof.
  intros Hact Hun Hexec. unfold uninterrupted in Hun. rewrite Hact in Hun.
  change (step catalog (Render t0 props) mounted ≫= exec catalog sched = Some s) in Hexec.
  destruct (step catalog (Render t0 props) mounted) as [s0|] eqn:Hstep; [|done].
  assert (0 ≤ t0)%Z as Ht0.
  { unfold step in Hstep. simpl in Hstep. by case_bool_decide. }
  destruct (activation_inv catalog (onComplete props) t0 props Hact eq_refl Ht0)
    as (s0' & Hstep' & Hinv & _).
  rewrite Hstep in Hstep'. injection Hstep' as <-.
  assert (timed catalog Z.le t0 s0) as Htimed0.
  { eapply activation_timed; [|done..]. intros a. lia. }
  destruct (exec_timed catalog _ t0 sched _ _ _ Hinv Htimed0 Hun Hexec)
    as (Hlogs & Hmarked & Hcalled & _).
  split; [done|]. split; [|done].
  intros o i step Ho Ha Hi. specialize (Hmarked o i Ho Ha).
  rewrite (startOf_S _ _ _ Hi) in Hmarked. unfold pace in Hmarked. lia.
Qed.

(** X5. However late the timers fire, a run that starts with no timer
    outstanding and is not disturbed while it lasts is never ahead of
    its catalog: the entry of step [i] is created no earlier than the
    durations of the steps before it and a pause of 500 ms after each
    allow, it is marked no earlier than its own duration after that,
    and [onComplete] is called no earlier than all durations, all
    pauses and the final 1000 ms allow, counted from the activation.
    For [deploymentSteps] that is 25500 ms. The markings and the call
    are those made since the activation. *)
Theorem run_not_early catalog before s_pre props t0 sched s :
  exec catalog before mounted = Some s_pre →
  timers s_pre = [] →
  isActive props = true →
  deps s_pre ≠ Some (true, onComplete props) →
  undisturbed (true, onComplete props) sched = true →
  exec catalog (Render t0 props :: sched) s_pre = Some s →
  (∀ k log, logs s !! k = Some log →
     (t0 + startOf catalog k ≤ LogEntry.timestamp log)%Z)
  ∧ (∀ o i step, o ∈ drop (length (trace s_pre)) (trace s) →
     action o = Marked (stepId i) → catalog !! i = Some step →
     (t0 + startOf catalog i + Z.max 0 (Step.duration step) ≤ at_time o)%Z)
  ∧ (∀ o h r, o ∈ drop (length (trace s_pre)) (trace s) → action o = Called h r →
     (t0 + runLength catalog ≤ at_time o)%Z)
  ∧ runLength deploymentSteps = 25500%Z.
Proof.
  intros Hpre Hnone Hact Hdeps Hun Hexec.
  destruct (isolated_run _ _ _ _ _ _ _ Hpre Hnone Hact Hdeps Hun Hexec)
    as (s0 & Hexec0 & Hlg & _ & _ & _ & Htr & _).
  destruct (run_times_bound catalog props t0 (fires sched) s0 Hact) as (Hlogs & Hmarked & Hcalled);
    [apply fires_keepsDeps|done|].
  rewrite Hlg, Htr, drop_app_length.
  split; [done|]. split; [|split; [|by vm_compute]].
  - intros o i step (o0 & -> & Ho0)%list_elem_of_fmap Ha Hi.
    exact (Hmarked o0 i step Ho0 Ha Hi).
  - intros o h r (o0 & -> & Ho0)%list_elem_of_fmap Ha.
    exact (Hcalled o0 h r Ho0 Ha).
Qed.

Lemma run_not_early_witness :
  (∀ k log, logs (secondRun 17) !! k = Some log →
     (30000 + startOf deploymentSteps k ≤ LogEntry.timestamp log)%Z)
  ∧ (∀ o i step, o ∈ drop (length (trace (demoRun 17))) (trace (secondRun 17)) →
     action o = Marked (stepId i) → deploymentSteps !! i = Some step →
     (30000 + startOf deploymentSteps i + Z.max 0 (Step.duration step) ≤ at_time o)%Z)
  ∧ (∀ o h r, o ∈ drop (length (trace (demoRun 17))) (trace (secondRun 17)) →
     action o = Called h r →
     (30000 + runLength deploymentSteps ≤ at_time o)%Z)
  ∧ runLength deploymentSteps = 25500%Z.
Proof.
  apply (run_not_early deploymentSteps (Render 0 demoProps :: demoSchedule)
           (demoRun 17) reactivationProps 30000 secondSchedule (secondRun 17)).
  - by vm_compute.
  - by vm_compute.
  - reflexivity.
  - by vm_compute.
  - by vm_compute.
  - by vm_compute.
Defined.

(** A late schedule of the first run: every timer three seconds late.
    And the recorded re-activation, where the stale timer of the first
    run marks the entry that the second run created at 100 ms. *)
Example late_run :
  (s ← exec deploymentSteps [Render 0 demoProps; Fire 0 5000; Fire 0 8500; Fire 0 14500]
         mounted;
   Some (LogEntry.timestamp <$> logs s))
  = Some [0; 8500]%Z
  ∧ startOf deploymentSteps 1 = 2500%Z
  ∧ (λ log, (LogEntry.timestamp log, LogEntry.status log)) <$> logs (reactivatedRun 1)
    = [(100%Z, completed)]
  ∧ clock (reactivatedRun 1) = 2000%Z.
Proof. by vm_compute. Qed.

(** ** The payload is passed *)

Lemma ticks_lawful catalog n : ∀ s s',
  Forall lawful (trace s) → Forall twoState (logs s) →
  ticks catalog n s = Some s' →
  Forall lawful (trace s') ∧ Forall twoState (logs s').
Proof.
  induction n as [|n IH]; intros s s' Htr Hlg Hticks; simpl in Hticks.
  - by injection Hticks as <-.
  - destruct (tick catalog s) as [s1|] eqn:Htick; [|done]. simpl in Hticks.
    unfold tick in Htick. destruct (nextFire s) as [e|]; [|done]. simpl in Htick.
    destruct (step_lawful _ _ _ _ Htr Hlg Htick). by eapply IH.
Qed.

(** C7. In any execution at all, whatever the prompts: the callback
    timer of a run, when it fires, calls the [onComplete] of the run's
    activation with the record [completionPayload], and that is the one
    thing it does; every activation gets there: with punctual timers,
    after the timers still to come, each effect invocation has made its
    one call, with that record; every call made carries that record;
    the execution is the same with any other prompt; and the fields of
    the record are the literals of the source. *)
Theorem payload_fixed catalog sched s :
  exec catalog sched mounted = Some s →
  (∀ k t tm run s', timers s !! k = Some tm → callback tm = Completion run →
     step catalog (Fire k t) s = Some s' →
     ∃ c, closures s !! run = Some c
          ∧ trace s'
            = trace s ++ [occ t run (Called (closedOnComplete c) completionPayload)]
          ∧ calls s' = calls s ++ [(closedOnComplete c, completionPayload)]
          ∧ logs s' = logs s ∧ closures s' = closures s
          ∧ timers s' = delete k (timers s))
  ∧ (∃ s', ticks catalog (outstanding catalog s) s = Some s'
           ∧ timers s' = []
           ∧ (∀ run, run < length (closures s) →
                callsBy run s' = 1
                ∧ ∃ o h, o ∈ trace s' ∧ by_run o = run
                         ∧ action o = Called h completionPayload)
           ∧ (∀ h result, (h, result) ∈ calls s' → result = completionPayload))
  ∧ (∀ h result, (h, result) ∈ calls s → result = completionPayload)
  ∧ (∀ prompt', exec catalog (withPrompt prompt' <$> sched) mounted = Some s)
  ∧ DeploymentResult.liveUrl completionPayload = "https://chat.my-app.com"
  ∧ DeploymentResult.sourceRepo completionPayload
    = "https://github.com/tone-platform/my-chat-app"
  ∧ DeploymentResult.configRepo completionPayload
    = "https://github.com/tone-platform/my-chat-app-config"
  ∧ DeploymentResult.services completionPayload
    = ["Frontend"; "Backend"; "Redis"; "Database"]
  ∧ DeploymentResult.status completionPayload = "deployed".
Proof.
  intros Hexec.
  pose proof (exec_any catalog sched _ _ (mounted_any catalog) Hexec) as Hinv.
  destruct (exec_lawful catalog sched mounted s) as [Htr Hlg]; [by constructor..|done|].
  assert (∀ s1, Forall lawful (trace s1) →
                ∀ h result, (h, result) ∈ calls s1 → result = completionPayload) as Hpay.
  { intros s1 Htr1 h result Hin. unfold calls in Hin.
    apply list_elem_of_omap in Hin as (o & Ho & Hcall).
    rewrite Forall_forall in Htr1. specialize (Htr1 o Ho). unfold lawful in Htr1.
    destruct (action o); try done. by injection Hcall as <- <-. }
  split; [|split; [|split; [by apply Hpay|split; [|done]]]].
  - intros k t tm run s' Hk Hcb Hstep.
    destruct (fired_timer catalog s k tm Hinv Hk) as (Hrun & _).
    unfold timerRun in Hrun. rewrite Hcb in Hrun.
    destruct (lookup_lt_is_Some_2 (closures s) run Hrun) as [c Hc].
    exists c. split; [done|].
    simpl in Hstep. rewrite Hk in Hstep. case_bool_decide; [|done].
    injection Hstep as <-. rewrite Hcb. simpl. rewrite Hc. simpl.
    split; [done|]. split; [|done].
    unfold calls. simpl. by rewrite omap_app.
  - destruct (drain catalog _ s Hinv eq_refl) as (s' & Hticks & Hnone & Hinv' & Hlen).
    destruct (ticks_lawful catalog _ _ _ Htr Hlg Hticks) as [Htr' _].
    exists s'. split; [done|]. split; [done|]. split; [|by apply Hpay].
    intros run Hrun. destruct Hinv' as (Hcount & _). specialize (Hcount run).
    unfold pendingOf in Hcount. rewrite Hnone, Hlen in Hcount. simpl in Hcount.
    rewrite bool_decide_eq_true_2 in Hcount by done. split; [done|].
    unfold callsBy in Hcount.
    destruct (filter _ (trace s')) as [|o rest] eqn:Hfilter; [done|].
    assert (o ∈ filter (λ o, by_run o = run ∧ isCall o = true) (trace s')) as Ho
      by (rewrite Hfilter; left).
    apply list_elem_of_filter in Ho as [[Hby Hcall] Ho].
    rewrite Forall_forall in Htr'. specialize (Htr' o Ho). unfold lawful in Htr'.
    unfold isCall in Hcall. destruct (action o) as [| | |h result] eqn:Ha; try done.
    subst result. by exists o, h.
  - intros prompt'. by rewrite exec_withPrompt.
Qed.

Lemma payload_fixed_witness :
  (∀ k t tm run s', timers (demoRun 16) !! k = Some tm → callback tm = Completion run →
     step deploymentSteps (Fire k t) (demoRun 16) = Some s' →
     ∃ c, closures (demoRun 16) !! run = Some c
          ∧ trace s'
            = trace (demoRun 16)
              ++ [occ t run (Called (closedOnComplete c) completionPayload)]
          ∧ calls s' = calls (demoRun 16) ++ [(closedOnComplete c, completionPayload)]
          ∧ logs s' = logs (demoRun 16) ∧ closures s' = closures (demoRun 16)
          ∧ timers s' = delete k (timers (demoRun 16)))
  ∧ (∃ s', ticks deploymentSteps (outstanding deploymentSteps (demoRun 16)) (demoRun 16)
           = Some s'
           ∧ timers s' = []
           ∧ (∀ run, run < length (closures (demoRun 16)) →
                callsBy run s' = 1
                ∧ ∃ o h, o ∈ trace s' ∧ by_run o = run
                         ∧ action o = Called h completionPayload)
           ∧ (∀ h result, (h, result) ∈ calls s' → result = completionPayload))
  ∧ (∀ h result, (h, result) ∈ calls (demoRun 16) → result = completionPayload)
  ∧ (∀ prompt', exec deploymentSteps
                  (withPrompt prompt' <$> (Render 0 demoProps :: take 16 demoSchedule))
                  mounted
                = Some (demoRun 16))
  ∧ DeploymentResult.liveUrl completionPayload = "https://chat.my-app.com"
  ∧ DeploymentResult.sourceRepo completionPayload
    = "https://github.com/tone-platform/my-chat-app"
  ∧ DeploymentResult.configRepo completionPayload
    = "https://github.com/tone-platform/my-chat-app-config"
  ∧ DeploymentResult.services completionPayload
    = ["Frontend"; "Backend"; "Redis"; "Database"]
  ∧ DeploymentResult.status completionPayload = "deployed".
Proof.
  apply (payload_fixed deploymentSteps (Render 0 demoProps :: take 16 demoSchedule)).
  by vm_compute.
Defined.

(** The recorded run makes no call before its last timer and one with
    it; the recorded re-activation makes two. *)
Example payload_fixed_demo :
  calls (demoRun 16) = []
  ∧ callback <$> timers (demoRun 16) = [Completion 0]
  ∧ step deploymentSteps (Fire 0 25500) (demoRun 16) = Some (demoRun 17)
  ∧ calls (demoRun 17) = [(1, completionPayload)]
  ∧ calls (reactivatedRun 34) = [(1, completionPayload); (2, completionPayload)].
Proof. by vm_compute. Qed.
